(** * hukuk_rag_mvp: retrieval-and-synthesis pipeline

    A shallow embedding of the chunker ([DocumentProcessor]), the vector
    index wrapper ([ChromaManager]) and the query pipeline ([RAGPipeline]),
    followed by the properties of the specification that were checked
    against them.

    Modelling conventions.
    - A Python [str] is a list of characters ([list ascii]); indices and
      sizes that the code computes with are [Z], because the chunker lets
      [start] go negative and Python gives negative indices a meaning.
      The letters outside ASCII in the fixed Turkish messages stand as
      their UTF-8 bytes; nothing proved below depends on their length.
    - A Python [float] is the rational number it holds ([Q]).  The
      arithmetic of [search], [_calculate_confidence] and
      [calculate_confidence] rounds the exact result of every operation
      to binary64, nearest with ties to even ([Binary64.rnd]), and a
      decimal literal is the binary64 nearest to it; comparisons are
      exact.  NaN, the infinities, overflow and the sign of zero are
      outside the model.  Decimal rounding ([round(x, 2)], [f"{x:.2f}"])
      is half to even on the exact value.
    - A [dict] read with [d['k']] is a record field; a key read with
      [d.get('k', default)] is an [option] field.
    - The collaborators (embedding model, vector store, generation
      backend, clock, uuid source) are fields of an environment record;
      calls to them are recorded in a trace. *)

From Stdlib Require Import List String Ascii ZArith QArith Qround Qminmax Qabs.
From Stdlib Require Import Qpower Lia Lqa Bool Sorted DecimalString DecimalNat.
From Stdlib Require PrimFloat FloatOps SpecFloat Uint63.
Import ListNotations.

Local Open Scope Z_scope.

(** ** Python primitives used by the sources *)

Module Py.

Definition str := list ascii.

Definition lit (s : string) : str := list_ascii_of_string s.

Definition len {A} (l : list A) : Z := Z.of_nat (List.length l).

(** *** Numbers *)

Definition Qltb (x y : Q) : bool :=
  (Qnum x * QDen y <? Qnum y * QDen x)%Z.

(** [max(a, b)]: the first argument is kept unless the second is
    strictly greater. *)
Definition max2 (a b : Q) : Q := if Qltb a b then b else a.

(** [min(a, b)]: the first argument is kept unless the second is
    strictly smaller. *)
Definition min2 (a b : Q) : Q := if Qltb b a then b else a.

(** [max(iterable)] on a non-empty iterable: the running maximum is
    replaced only by a strictly greater item. *)
Definition max_iter (first : Q) (rest : list Q) : Q :=
  fold_left max2 rest first.

(** [sum(1 for x in xs if p x)]. *)
Definition sum_ones {A} (p : A -> bool) (xs : list A) : Z :=
  fold_left (fun acc x => if p x then acc + 1 else acc) xs 0.

(** Nearest integer, ties to the even neighbour. *)
Definition round_half_even (x : Q) : Z :=
  let f := Qfloor x in
  let r := (x - inject_Z f)%Q in
  if Qltb r (1 # 2) then f
  else if Qltb (1 # 2) r then f + 1
  else if Z.even f then f else f + 1.

(** *** Text *)

Definition str_of_nat (n : nat) : str :=
  lit (NilZero.string_of_uint (Nat.to_uint n)).

Definition str_of_Z (z : Z) : str :=
  if z <? 0 then lit "-" ++ str_of_nat (Z.to_nat (- z))
  else str_of_nat (Z.to_nat z).

Definition two_digits (n : Z) : str :=
  if n <? 10 then lit "0" ++ str_of_Z n else str_of_Z n.

(** [f"{x:.2f}"]. *)
Definition format_2f (x : Q) : str :=
  let n := round_half_even (Qabs x * 100)%Q in
  (if Qltb x 0 then lit "-" else [])
    ++ str_of_Z (n / 100) ++ lit "." ++ two_digits (n mod 100).

(** Clamping of a slice bound, as CPython's [PySlice_AdjustIndices]
    does for step 1. *)
Definition adjust (n i : Z) : Z :=
  if i <? 0 then Z.max (i + n) 0 else Z.min i n.

(** [s[start:stop]]. *)
Definition slice {A} (s : list A) (start stop : Z) : list A :=
  let a := adjust (len s) start in
  let b := adjust (len s) stop in
  firstn (Z.to_nat (b - a)) (skipn (Z.to_nat a) s).

(** [s[start:]]. *)
Definition slice_from {A} (s : list A) (start : Z) : list A :=
  skipn (Z.to_nat (adjust (len s) start)) s.

(** [s[:stop]]. *)
Definition slice_to {A} (s : list A) (stop : Z) : list A :=
  firstn (Z.to_nat (adjust (len s) stop)) s.

Fixpoint rfind_scan (c : ascii) (s : str) (i a b acc : Z) : Z :=
  match s with
  | [] => acc
  | x :: s' =>
      rfind_scan c s' (i + 1) a b
        (if (a <=? i) && (i <? b) && Ascii.eqb x c then i else acc)
  end.

(** [s.rfind(c, start, stop)] for a one-character needle: the highest
    index in the adjusted range holding [c], or [-1]. *)
Definition rfind (c : ascii) (s : str) (start stop : Z) : Z :=
  rfind_scan c s 0 (adjust (len s) start) (adjust (len s) stop) (-1).

(** [str.isspace] on the code points below 256. *)
Definition isspace (c : ascii) : bool :=
  let n := nat_of_ascii c in
  ((9 <=? n) && (n <=? 13) || (28 <=? n) && (n <=? 32)
   || (n =? 133) || (n =? 160))%nat.

Fixpoint lstrip (s : str) : str :=
  match s with
  | [] => []
  | c :: s' => if isspace c then lstrip s' else s
  end.

Definition rstrip (s : str) : str := rev (lstrip (rev s)).

(** [s.strip()]. *)
Definition strip (s : str) : str := rstrip (lstrip s).

(** [sep.join(parts)]. *)
Fixpoint join (sep : str) (parts : list str) : str :=
  match parts with
  | [] => []
  | [p] => p
  | p :: ps => p ++ sep ++ join sep ps
  end.

(** Truth value of a string or a list: empty is false. *)
Definition truthy {A} (s : list A) : bool :=
  match s with [] => false | _ => true end.

(** [a == b] on strings. *)
Definition str_eqb (a b : str) : bool :=
  if list_eq_dec ascii_dec a b then true else false.

Fixpoint enumerate_from {A} (i : nat) (l : list A) : list (nat * A) :=
  match l with
  | [] => []
  | x :: l' => (i, x) :: enumerate_from (S i) l'
  end.

(** [enumerate(l)]. *)
Definition enumerate {A} (l : list A) : list (nat * A) :=
  enumerate_from 0 l.


(** [re.sub(r'\s+', ' ', s)]: every maximal run of whitespace is replaced
    by one space.  [in_run] tells that the character before was
    whitespace, so that the run has been replaced already. *)
Fixpoint sub_spaces (in_run : bool) (s : str) : str :=
  match s with
  | [] => []
  | c :: s' =>
      if isspace c then
        if in_run then sub_spaces true s'
        else " "%char :: sub_spaces true s'
      else c :: sub_spaces false s'
  end.

Definition re_sub_spaces (s : str) : str := sub_spaces false s.

(** [c.lower()] on the code points below 256: the letters A-Z and the
    capital letters of Latin-1 (192-222 but the multiplication sign) move
    up by 32. *)
Definition lower_char (c : ascii) : ascii :=
  let n := nat_of_ascii c in
  if ((65 <=? n) && (n <=? 90)
      || (192 <=? n) && (n <=? 222) && negb (n =? 215))%nat
  then ascii_of_nat (n + 32) else c.

(** [s.lower()]. *)
Definition lower (s : str) : str := map lower_char s.

(** [x in xs] for a string and a list of strings. *)
Definition str_in (x : str) (xs : list str) : bool :=
  existsb (str_eqb x) xs.

End Py.

Import Py.

(** ** Python's [float]: binary64 arithmetic *)

Module Binary64.

Definition pow2 (e : Z) : Q := (2 ^ e)%Q.

(** The [e] with [2^e <= |x| < 2^(e+1)], for [x] other than 0. *)
Definition ilog2 (x : Q) : Z :=
  let e := Z.log2 (Z.abs (Qnum x)) - Z.log2 (QDen x) in
  if Qle_bool (pow2 e) (Qabs x) then e else e - 1.

(** The exponent of the last of the 53 bits of [x]; it stops at -1074,
    where the subnormal numbers begin. *)
Definition exponent (x : Q) : Z := Z.max (ilog2 x - 52) (-1074).

(** The binary64 number nearest to [x], ties to the even significand. *)
Definition rnd (x : Q) : Q :=
  if Qeq_bool x 0 then 0%Q
  else
    let e := exponent x in
    Qred (inject_Z (round_half_even (x / pow2 e)) * pow2 e).

(** The finite binary64 numbers: a significand of at most 53 bits at an
    exponent not below that of the subnormal numbers. *)
Definition representable (y : Q) : Prop :=
  exists m e : Z,
    Z.abs m < 2 ^ 53 /\ -1074 <= e /\ y == inject_Z m * pow2 e.

(** A decimal literal such as [0.1] is read as the nearest binary64. *)
Definition decimal (x : Q) : Q := rnd x.

(** An [int] that meets a [float] in an operation is converted first. *)
Definition of_int (n : Z) : Q := rnd (inject_Z n).

Definition add (a b : Q) : Q := rnd (a + b).
Definition sub (a b : Q) : Q := rnd (a - b).
Definition mul (a b : Q) : Q := rnd (a * b).
Definition div (a b : Q) : Q := rnd (a / b).

(** [sum(xs)] on floats: the items are added from the left, starting
    from 0. *)
Definition sum (xs : list Q) : Q := fold_left add xs 0%Q.

(** [round(x, 2)]: the exact value of [x] is rounded to a whole number
    of hundredths, half to even, and the float nearest to that decimal
    is returned. *)
Definition round2 (x : Q) : Q :=
  rnd (inject_Z (round_half_even (x * 100)) / 100).

End Binary64.

(** Rocq's primitive floats, which are binary64 numbers computed by
    the processor; they are used below to cross-check [Binary64.rnd] on
    the values of the examples. *)

Module Machine.

Definition of_Z (z : Z) : PrimFloat.float :=
  PrimFloat.of_uint63 (Uint63.of_Z z).

(** The float nearest to the fraction [n / d] of two small naturals,
    as a decimal literal with that value is read. *)
Definition fraction (n d : Z) : PrimFloat.float :=
  PrimFloat.div (of_Z n) (of_Z d).

(** The exact value of a finite float. *)
Definition value (f : PrimFloat.float) : option Q :=
  match FloatOps.Prim2SF f with
  | SpecFloat.S754_zero _ => Some 0%Q
  | SpecFloat.S754_finite s m e =>
      Some (Qred ((if s then - inject_Z (Zpos m) else inject_Z (Zpos m))
                  * Binary64.pow2 e))
  | _ => None
  end.

(** [max(0, 1.0 - (distance / 20.0))] on primitive floats. *)
Definition normalize (distance : PrimFloat.float) : PrimFloat.float :=
  let difference :=
    PrimFloat.sub PrimFloat.one (PrimFloat.div distance (of_Z 20)) in
  if PrimFloat.ltb PrimFloat.zero difference then difference
  else PrimFloat.zero.

End Machine.

Definition space : ascii := " "%char.
Definition newline : str := ["010"%char].
Definition dquote : ascii := "034"%char.

(** ** src/database/chroma_manager.py *)

Module ChromaManager.

(** The metadata dictionary stored with every chunk.  [filename] is read
    by the pipeline with [[]]; [chunk_index] with [.get]. *)
Record Metadata := {
  filename : str;
  file_type : str;
  chunk_index : option Z;
  total_chunks : Z;
  timestamp : str;
  file_size : Z
}.

(** An input record of [add_documents]; every key is read with [.get]. *)
Record Document := {
  doc_content : option str;
  doc_filename : option str;
  doc_file_type : option str;
  doc_chunk_index : option Z;
  doc_total_chunks : option Z;
  doc_timestamp : option str;
  doc_file_size : option Z
}.

Definition Vector := list Q.

Record IndexedRecord := {
  rec_id : str;
  rec_document : str;
  rec_metadata : Metadata;
  rec_embedding : Vector
}.

(** One row of [collection.query]'s answer. *)
Record QueryRow := {
  row_id : str;
  row_document : str;
  row_metadata : Metadata;
  row_distance : Q
}.

(** A formatted search result.  The pipeline reads [similarity] with
    [.get('similarity', 0)]. *)
Record Hit := {
  id : str;
  content : str;
  metadata : Metadata;
  distance : Q;
  similarity : option Q
}.

Record State := {
  collection : list IndexedRecord;
  uuids_drawn : nat
}.

(** The collaborators.  [None] stands for a raised exception. *)
Record Backend := {
  top_k : Z;
  encode : list str -> option (list Vector);
  uuid4 : nat -> str;
  storage_accepts : list IndexedRecord -> list IndexedRecord -> bool;
  collection_query :
    list IndexedRecord -> list Vector -> Z -> option (list (list QueryRow))
}.

Definition get {A} (o : option A) (default : A) : A :=
  match o with Some a => a | None => default end.

(** The body of the [for doc in documents] loop of [add_documents]. *)
Definition add_documents_body (B : Backend)
    (acc : list str * list Metadata * list str * nat) (doc : Document)
  : list str * list Metadata * list str * nat :=
  let '(texts, metadatas, ids, drawn) := acc in
  let doc_id := uuid4 B drawn in
  let content := get (doc_content doc) [] in
  if negb (truthy content) then (texts, metadatas, ids, S drawn)
  else
    let metadata := {|
      filename := get (doc_filename doc) (lit "unknown");
      file_type := get (doc_file_type doc) (lit "txt");
      chunk_index := Some (get (doc_chunk_index doc) 0);
      total_chunks := get (doc_total_chunks doc) 1;
      timestamp := get (doc_timestamp doc) [];
      file_size := get (doc_file_size doc) 0 |} in
    (texts ++ [content], metadatas ++ [metadata], ids ++ [doc_id],
     S drawn).

Fixpoint zip_records (texts : list str) (metadatas : list Metadata)
    (ids : list str) (embeddings : list Vector)
  : option (list IndexedRecord) :=
  match texts, metadatas, ids, embeddings with
  | [], [], [], [] => Some []
  | t :: ts, m :: ms, i :: is_, e :: es =>
      match zip_records ts ms is_ es with
      | Some rs =>
          Some ({| rec_id := i; rec_document := t; rec_metadata := m;
                   rec_embedding := e |} :: rs)
      | None => None
      end
  | _, _, _, _ => None
  end.

(** [collection.add(documents=, metadatas=, ids=, embeddings=)]: the
    four lists must agree in length and the store must take the batch;
    the batch is then appended. *)
Definition collection_add (B : Backend) (c : list IndexedRecord)
    (texts : list str) (metadatas : list Metadata) (ids : list str)
    (embeddings : list Vector) : option (list IndexedRecord) :=
  match zip_records texts metadatas ids embeddings with
  | Some batch => if storage_accepts B c batch then Some (c ++ batch)
                  else None
  | None => None
  end.

(** The [metadata] dictionary that the loop of [add_documents] builds
    for a record, written out once more to state what is stored. *)
Definition stored_metadata (doc : Document) : Metadata :=
  {| filename := get (doc_filename doc) (lit "unknown");
     file_type := get (doc_file_type doc) (lit "txt");
     chunk_index := Some (get (doc_chunk_index doc) 0);
     total_chunks := get (doc_total_chunks doc) 1;
     timestamp := get (doc_timestamp doc) [];
     file_size := get (doc_file_size doc) 0 |}.

(** [add_documents]: every exception is caught and turned into
    [False]. *)
Definition add_documents (B : Backend) (st : State)
    (documents : list Document) : bool * State :=
  match documents with
  | [] => (false, st)
  | _ =>
      let '(texts, metadatas, ids, drawn) :=
        fold_left (add_documents_body B) documents
          ([], [], [], uuids_drawn st) in
      let st1 := {| collection := collection st; uuids_drawn := drawn |} in
      match texts with
      | [] => (false, st1)
      | _ =>
          match encode B texts with
          | None => (false, st1)
          | Some embeddings =>
              match collection_add B (collection st) texts metadatas ids
                      embeddings with
              | Some c => (true, {| collection := c;
                                    uuids_drawn := drawn |})
              | None => (false, st1)
              end
          end
      end
  end.

(** [max(0, 1.0 - (distance / 20.0))], the expression of [search]. *)
Definition normalize (distance : Q) : Q :=
  max2 0 (Binary64.sub 1 (Binary64.div distance 20)).

Definition format_result (r : QueryRow) : Hit :=
  {| id := row_id r;
     content := row_document r;
     metadata := row_metadata r;
     distance := row_distance r;
     similarity := Some (normalize (row_distance r)) |}.

(** [search]: the store answers with one list of rows per query
    embedding, nearest first, and the loop formats the first list
    ([results['ids'][0]]).  Every exception is caught and turned into
    [[]]. *)
Definition search (B : Backend) (st : State) (query : str)
    (n_results : option Z) : list Hit :=
  let n := match n_results with Some n => n | None => top_k B end in
  match encode B [query] with
  | Some query_embedding =>
      match collection_query B (collection st) query_embedding n with
      | Some (rows :: _) => map format_result rows
      | Some [] => []
      | None => []
      end
  | None => []
  end.

End ChromaManager.

(** ** src/processing/document_processor.py *)

Module DocumentProcessor.

(** The configuration that [_load_config] returned, as far as [__init__]
    reads it: [document_processing.supported_formats],
    [embedding.chunk_size] and [embedding.chunk_overlap].  A missing key
    makes the subscript raise. *)
Record Config := {
  cfg_supported_formats : option (list str);
  cfg_chunk_size : option Z;
  cfg_chunk_overlap : option Z
}.

Record t := {
  supported_formats : list str;
  chunk_size : Z;
  chunk_overlap : Z
}.

Inductive exn := KeyError (key : string).

(** The outcome of constructing the processor: nothing in [__init__]
    catches, so a raised exception ends the start-up. *)
Inductive startup :=
| Started (p : t)
| Fatal (e : exn).

Definition __init__ (config : Config) : startup :=
  match cfg_supported_formats config with
  | None => Fatal (KeyError "supported_formats")
  | Some formats =>
      match cfg_chunk_size config with
      | None => Fatal (KeyError "chunk_size")
      | Some size =>
          match cfg_chunk_overlap config with
          | None => Fatal (KeyError "chunk_overlap")
          | Some overlap =>
              Started {| supported_formats := formats;
                         chunk_size := size;
                         chunk_overlap := overlap |}
          end
      end
  end.

(** The variables of the [while] loop of [_split_into_chunks]. *)
Record loop_state := {
  start : Z;
  chunks : list str
}.

(** One pass through the body of the loop, up to and including
    [start = end - self.chunk_overlap]. *)
Definition loop_body (self : t) (text : str) (st : loop_state)
  : loop_state :=
  let end_ := start st + chunk_size self in
  let '(end_, chunk) :=
    if end_ >=? len text then (end_, slice_from text (start st))
    else
      let last_space := rfind space text (start st) end_ in
      let end_ := if last_space >? start st then last_space else end_ in
      (end_, slice text (start st) end_) in
  {| start := end_ - chunk_overlap self;
     chunks := chunks st ++ [strip chunk] |}.

(** The loop, with a bound on the number of passes: [None] when the
    bound is used up before the loop exits. *)
Fixpoint loop (fuel : nat) (self : t) (text : str) (st : loop_state)
  : option (list str) :=
  if start st <? len text then
    match fuel with
    | O => None
    | S fuel' =>
        let st' := loop_body self text st in
        if start st' >=? len text then Some (chunks st')
        else loop fuel' self text st'
    end
  else Some (chunks st).

Definition _split_into_chunks (fuel : nat) (self : t) (text : str)
  : option (list str) :=
  if len text <=? chunk_size self then Some [text]
  else
    match loop fuel self text {| start := 0; chunks := [] |} with
    | Some chunks => Some (filter (fun chunk => truthy (strip chunk)) chunks)
    | None => None
    end.

(** [_clean_text]. *)
Definition _clean_text (text : str) : str :=
  let text := re_sub_spaces text in
  let text := strip text in
  if len text <? 10 then [] else text.

(** What reading a text file in one encoding gives. *)
Inductive read_result :=
| Read (text : str)
| UnicodeDecodeError
| OtherError.

(** What [process_file] and the readers observe of a path.  For the PDF
    and DOCX libraries [None] stands for a raised exception: of opening
    the document for the outer [option], of [extract_text] on one page
    for the inner one. *)
Record File := {
  file_exists : bool;
  file_name : str;
  file_path : str;
  file_suffix : str;
  file_st_size : Z;
  pdf_pages : option (list (option str));
  docx_paragraphs : option (list str);
  read_text : string -> read_result
}.

(** The body of the page loop of [_extract_from_pdf]. *)
Definition pdf_page_body (text : str) (item : nat * option str) : str :=
  let '(page_num, page) := item in
  match page with
  | Some page_text =>
      if truthy page_text then
        text ++ newline ++ lit "--- Sayfa " ++ str_of_nat (page_num + 1)
          ++ lit " ---" ++ newline ++ page_text ++ newline
      else text
  | None => text
  end.

Definition _extract_from_pdf (f : File) : str :=
  match pdf_pages f with
  | Some pages => fold_left pdf_page_body (enumerate pages) []
  | None => []
  end.

Definition _extract_from_docx (f : File) : str :=
  match docx_paragraphs f with
  | Some paragraphs =>
      fold_left (fun text paragraph => text ++ paragraph ++ newline)
        paragraphs []
  | None => []
  end.

(** The [for encoding in [...]] loop of [_extract_from_txt]: the first
    encoding whose read does not raise gives the text. *)
Fixpoint read_with_fallbacks (f : File) (encodings : list string) : str :=
  match encodings with
  | [] => []
  | encoding :: rest =>
      match read_text f encoding with
      | Read text => text
      | _ => read_with_fallbacks f rest
      end
  end.

Definition _extract_from_txt (f : File) : str :=
  match read_text f "utf-8" with
  | Read text => text
  | UnicodeDecodeError =>
      read_with_fallbacks f ["cp1254"; "iso-8859-9"; "latin1"]%string
  | OtherError => []
  end.

Definition _extract_text (f : File) : str :=
  let suffix := lower (file_suffix f) in
  if str_eqb suffix (lit ".pdf") then _extract_from_pdf f
  else if str_eqb suffix (lit ".docx") then _extract_from_docx f
  else if str_eqb suffix (lit ".txt") then _extract_from_txt f
  else [].

(** The dictionary that [process_file] builds for a chunk. *)
Record ProcessedDocument := {
  pd_content : str;
  pd_filename : str;
  pd_file_path : str;
  pd_file_type : str;
  pd_file_size : Z;
  pd_chunk_index : Z;
  pd_total_chunks : Z;
  pd_timestamp : str;
  pd_processed_date : str
}.

(** The two renderings of [datetime.now()] taken while the document of
    the chunk at a given position is built. *)
Record Clock := {
  isoformat_at : nat -> str;
  strftime_at : nat -> str
}.

Definition make_document (f : File) (clock : Clock) (total : Z)
    (item : nat * str) : ProcessedDocument :=
  let '(i, chunk) := item in
  {| pd_content := chunk;
     pd_filename := file_name f;
     pd_file_path := file_path f;
     pd_file_type := lower (file_suffix f);
     pd_file_size := file_st_size f;
     pd_chunk_index := Z.of_nat i;
     pd_total_chunks := total;
     pd_timestamp := isoformat_at clock i;
     pd_processed_date := strftime_at clock i |}.

(** [process_file].  [max_file_size_mb] is the entry of that name in the
    [document_processing] section, read with [.get(..., 50)].  The result
    is [None] when the loop of the chunker has not ended within [fuel]
    passes. *)
Definition process_file (fuel : nat) (self : t)
    (max_file_size_mb : option Z) (clock : Clock) (f : File)
  : option (list ProcessedDocument) :=
  if negb (file_exists f) then Some []
  else if negb (str_in (lower (file_suffix f)) (supported_formats self))
  then Some []
  else
    let file_size := file_st_size f in
    let max_size :=
      match max_file_size_mb with Some m => m | None => 50 end
      * 1024 * 1024 in
    if file_size >? max_size then Some []
    else
      let text_content := _extract_text f in
      if negb (truthy (strip text_content)) then Some []
      else
        let cleaned_text := _clean_text text_content in
        match _split_into_chunks fuel self cleaned_text with
        | Some chunks =>
            Some (map (make_document f clock (len chunks))
                    (enumerate chunks))
        | None => None
        end.

(** The dictionary handed to [add_documents]: every key that it reads
    with [.get] is present. *)
Definition as_document (d : ProcessedDocument) : ChromaManager.Document :=
  {| ChromaManager.doc_content := Some (pd_content d);
     ChromaManager.doc_filename := Some (pd_filename d);
     ChromaManager.doc_file_type := Some (pd_file_type d);
     ChromaManager.doc_chunk_index := Some (pd_chunk_index d);
     ChromaManager.doc_total_chunks := Some (pd_total_chunks d);
     ChromaManager.doc_timestamp := Some (pd_timestamp d);
     ChromaManager.doc_file_size := Some (pd_file_size d) |}.

End DocumentProcessor.

(** ** src/retrieval/rag_pipeline.py *)

Module RAGPipeline.

Import ChromaManager.

(** The [llm] and [retrieval] sections of the configuration. *)
Record Config := {
  model : str;
  alternative_model : option str;
  temperature : Q;
  max_tokens : Z;
  retrieval_top_k : Z;
  similarity_threshold : Q
}.

(** A chat-history entry; both keys are read with [.get]. *)
Record Message := {
  role : option str;
  msg_content : option str
}.

Record Source := {
  src_filename : str;
  src_similarity : str;
  src_chunk_index : Z;
  preview : str
}.

(** The dictionary returned by [query]; [retrieved_docs_count] is set
    on the full path only. *)
Record Result := {
  answer : str;
  sources : list Source;
  confidence : Q;
  query_text : str;
  result_timestamp : str;
  retrieved_docs_count : option Z
}.

(** *** Pure helpers *)

Definition doc_similarity (doc : Hit) : Q := get (similarity doc) 0%Q.

(** The text appended to [context_parts] for a hit labelled [n]. *)
Definition context_part (n : nat) (doc : Hit) : str :=
  let source_info :=
    lit "[Kaynak " ++ str_of_nat n ++ lit ": "
      ++ filename (metadata doc) ++ lit "]" in
  source_info ++ newline ++ strip (content doc) ++ newline.

(** The body of the [for i, doc in enumerate(relevant_docs)] loop. *)
Definition prepare_context_body (config : Config)
    (context_parts : list str) (item : nat * Hit) : list str :=
  let '(i, doc) := item in
  if Qltb (doc_similarity doc) (similarity_threshold config)
  then context_parts
  else context_parts ++ [context_part (i + 1) doc].

Definition _prepare_context (config : Config) (relevant_docs : list Hit)
  : str :=
  join newline
    (fold_left (prepare_context_body config) (enumerate relevant_docs) []).

(** [doc['content'][:200] + "..." if len(doc['content']) > 200
    else doc['content']]. *)
Definition make_preview (content : str) : str :=
  if len content >? 200 then slice_to content 200 ++ lit "..."
  else content.

(** The [source] dictionary built for a hit. *)
Definition make_source (doc : Hit) : Source :=
  {| src_filename := filename (metadata doc);
     src_similarity := format_2f (doc_similarity doc);
     src_chunk_index := get (chunk_index (metadata doc)) 0;
     preview := make_preview (content doc) |}.

(** The body of the [for doc in relevant_docs] loop. *)
Definition format_sources_body (config : Config) (sources : list Source)
    (doc : Hit) : list Source :=
  if Qltb (doc_similarity doc) (similarity_threshold config)
  then sources
  else sources ++ [make_source doc].

Definition _format_sources (config : Config) (relevant_docs : list Hit)
  : list Source :=
  fold_left (format_sources_body config) relevant_docs [].

(** The local [good_docs] of [_calculate_confidence]:
    [sum(1 for doc in relevant_docs if doc.get('similarity', 0) >= threshold)]. *)
Definition good_docs (config : Config) (relevant_docs : list Hit) : Z :=
  let threshold := similarity_threshold config in
  sum_ones (fun d => negb (Qltb (doc_similarity d) threshold)) relevant_docs.

Definition _calculate_confidence (config : Config)
    (relevant_docs : list Hit) : Q :=
  match relevant_docs with
  | [] => 0
  | doc :: docs =>
      let best_similarity :=
        max_iter (doc_similarity doc) (map doc_similarity docs) in
      let good_docs := good_docs config relevant_docs in
      let base_confidence := min2 best_similarity 1 in
      let doc_bonus :=
        min2
          (Binary64.mul (Binary64.of_int good_docs)
             (Binary64.decimal (1 # 10)))
          (Binary64.decimal (3 # 10)) in
      let confidence :=
        min2 (Binary64.add base_confidence doc_bonus) 1 in
      Binary64.round2 confidence
  end%Q.

Definition system_prompt : str := lit
"Sen uzman bir Türk hukuk asistanısın. Görevin:

1. Verilen hukuki belgelerden yararlanarak kullanıcının sorularını yanıtlamak
2. Sadece verilen belgeler temelinde cevap vermek
3. Yanıtlarını net, anlaşılır ve hukuki açıdan doğru şekilde sunmak
4. Eğer belgeler yetersizse bunu belirtmek
5. Kaynak referanslarını göstermek

KURALLARIN:
- Sadece verilen belgelerdeki bilgileri kullan
- Spekülasyon yapma
- Belirsizlik durumunda " ++ [dquote] ++ lit
"Bu konuda verilen belgelerde yeterli bilgi bulunmuyor" ++ [dquote] ++ lit " de
- Türkçe dilbilgisi kurallarına uygun yanıt ver
- Hukuki terimler kullanırken açıklama yap".

Definition history_line (msg : Message) : str :=
  let role :=
    match role msg with
    | Some r => if str_eqb r (lit "user") then lit "Kullanıcı"
                else lit "Asistan"
    | None => lit "Asistan"
    end in
  role ++ lit ": " ++ get (msg_content msg) [].

Definition history_context (chat_history : option (list Message)) : str :=
  match chat_history with
  | Some ((_ :: _) as history) =>
      let history_parts := map history_line (slice_from history (-3)) in
      if truthy history_parts then
        newline ++ lit "Önceki konuşma:" ++ newline
          ++ join newline history_parts ++ newline
      else []
  | _ => []
  end.

Definition _create_prompt (question context : str)
    (chat_history : option (list Message)) : str :=
  let user_prompt :=
    lit "Hukuki belgeler:" ++ newline ++ context ++ newline ++ newline
      ++ history_context chat_history ++ newline
      ++ lit "Kullanıcı sorusu: " ++ question ++ newline ++ newline
      ++ lit "Lütfen bu soruyu sadece verilen hukuki belgelere dayanarak yanıtla. Kaynak referanslarını da belirt." in
  system_prompt ++ newline ++ newline ++ user_prompt.

(** *** Effects: collaborator calls, exceptions *)

Inductive exn := Exception (message : str).

Inductive outcome (A : Type) :=
| Returned (a : A)
| Raised (e : exn).
Arguments Returned {A} a.
Arguments Raised {A} e.

(** What a query does that can be seen from outside or that the state
    machine of the orchestrator names: the calls it makes. *)
Inductive event :=
| Search (question : str) (n_results : Z)
| PrepareContext (relevant_docs : list Hit)
| CreatePrompt (question context : str)
| ChatCompletion (model_id prompt : str) (temperature : Q) (max_tokens : Z).

Definition trace := list event.

(** The collaborators of the pipeline.  The generation backend answers
    with the message content of the first choice, or raises; its answer
    may depend on everything that happened before. *)
Record World := {
  chroma : ChromaManager.Backend;
  chroma_state : ChromaManager.State;
  chat_completions_create :
    trace -> str -> str -> Q -> Z -> outcome str;
  now_isoformat : trace -> str
}.

Definition M (A : Type) : Type := trace -> outcome A * trace.

Definition ret {A} (a : A) : M A := fun tr => (Returned a, tr).

Definition bind {A B} (m : M A) (k : A -> M B) : M B :=
  fun tr =>
    match m tr with
    | (Returned a, tr') => k a tr'
    | (Raised e, tr') => (Raised e, tr')
    end.

Definition emit (e : event) : M unit :=
  fun tr => (Returned tt, tr ++ [e]).

Definition try_except {A} (body : M A) (handler : exn -> M A) : M A :=
  fun tr =>
    match body tr with
    | (Returned a, tr') => (Returned a, tr')
    | (Raised e, tr') => handler e tr'
    end.

Definition now (W : World) : M str :=
  fun tr => (Returned (now_isoformat W tr), tr).

Declare Scope eff_scope.
Delimit Scope eff_scope with eff.
Notation "x <- c ;; k" := (bind c (fun x => k))
  (at level 61, c at next level, right associativity) : eff_scope.
Notation "c ;;; k" := (bind c (fun _ => k))
  (at level 61, right associativity) : eff_scope.
Local Open Scope eff_scope.

(** [self.llm_client.chat.completions.create(...)] followed by
    [response.choices[0].message.content]. *)
Definition create (W : World) (config : Config) (model_id prompt : str)
  : M str :=
  fun tr =>
    (chat_completions_create W tr model_id prompt (temperature config)
       (max_tokens config),
     tr ++ [ChatCompletion model_id prompt (temperature config)
              (max_tokens config)]).

Definition degraded_answer : str :=
  lit "LLM yanıt vermedi. Lütfen daha sonra tekrar deneyin.".

Definition no_documents_answer : str :=
  lit "Üzgünüm, sorunuzla ilgili belge bulamadım. Lütfen daha spesifik bir soru sormayı deneyin.".

Definition error_answer (e : exn) : str :=
  let '(Exception message) := e in
  lit "Üzgünüm, sorunuzu işlerken bir hata oluştu: " ++ message.

(** [_get_llm_response].  The inner [try] either returns from the
    function ([Some]) or falls through to the final [return]. *)
Definition _get_llm_response (W : World) (config : Config) (prompt : str)
  : M str :=
  try_except
    (content <- create W config (model config) prompt ;;
     ret (strip content))
    (fun _ =>
       returned <-
         try_except
           (match alternative_model config with
            | Some alt_model =>
                if truthy alt_model then
                  content <- create W config alt_model prompt ;;
                  ret (Some (strip content))
                else ret None
            | None => ret None
            end)
           (fun _ => ret None) ;;
       match returned with
       | Some response => ret response
       | None => ret degraded_answer
       end).

Definition query (W : World) (config : Config) (question : str)
    (chat_history : option (list Message)) : M Result :=
  try_except
    (emit (Search question (retrieval_top_k config)) ;;;
     let relevant_docs :=
       ChromaManager.search (chroma W) (chroma_state W) question
         (Some (retrieval_top_k config)) in
     if negb (truthy relevant_docs) then
       timestamp <- now W ;;
       ret {| answer := no_documents_answer;
              sources := [];
              confidence := 0;
              query_text := question;
              result_timestamp := timestamp;
              retrieved_docs_count := None |}
     else
       emit (PrepareContext relevant_docs) ;;;
       let context := _prepare_context config relevant_docs in
       emit (CreatePrompt question context) ;;;
       let prompt := _create_prompt question context chat_history in
       llm_response <- _get_llm_response W config prompt ;;
       timestamp <- now W ;;
       ret {| answer := llm_response;
              sources := _format_sources config relevant_docs;
              confidence := _calculate_confidence config relevant_docs;
              query_text := question;
              result_timestamp := timestamp;
              retrieved_docs_count := Some (len relevant_docs) |})
    (fun e =>
       timestamp <- now W ;;
       ret {| answer := error_answer e;
              sources := [];
              confidence := 0;
              query_text := question;
              result_timestamp := timestamp;
              retrieved_docs_count := None |}).

End RAGPipeline.

(** ** main.py: the helpers of the HTTP API *)

Module Main.

Import ChromaManager.

(** [calculate_confidence]: the mean similarity, capped at 1. *)
Definition calculate_confidence (results : list Hit) : Q :=
  match results with
  | [] => 0
  | _ =>
      let avg_similarity :=
        Binary64.div (Binary64.sum (map RAGPipeline.doc_similarity results))
          (Binary64.of_int (len results)) in
      min2 avg_similarity 1
  end%Q.

End Main.

(** ** The specification's own formulas

    Definitions written from the words of the specification, to be
    compared with the definitions above, which are written from the
    sources. *)

Module Spec.

Import ChromaManager RAGPipeline.

(** "goodCount = count of hits with similarity >= threshold". *)
Definition good_count (threshold : Q) (hits : list Hit) : Z :=
  len (filter (fun hit => Qle_bool threshold (doc_similarity hit)) hits).

(** "hits with similarity >= t". *)
Definition surviving (threshold : Q) (hits : list Hit) : list Hit :=
  filter (fun hit => Qle_bool threshold (doc_similarity hit)) hits.

(** "ordered by descending similarity". *)
Definition descending (hits : list Hit) : Prop :=
  StronglySorted
    (fun a b => (doc_similarity b <= doc_similarity a)%Q) hits.

(** "the input sequence yields ... non-empty content": the records whose
    content is present and not empty. *)
Definition with_content (records : list Document) : list Document :=
  filter (fun record => truthy (get (doc_content record) [])) records.


(** The hits that survive, each with its 0-based position in the full
    hit list. *)
Definition labelled_survivors (threshold : Q) (hits : list Hit)
  : list (nat * Hit) :=
  filter (fun item => Qle_bool threshold (doc_similarity (snd item)))
    (enumerate hits).

End Spec.

(** ** Concrete inputs used by the examples below *)

Module Examples.

Import ChromaManager RAGPipeline.

Definition meta (name : string) : Metadata :=
  {| filename := lit name;
     file_type := lit ".txt";
     chunk_index := Some 0;
     total_chunks := 1;
     timestamp := lit "2024-01-01T00:00:00";
     file_size := 100 |}.

(** A hit with a given content and similarity; the distance is the [d]
    with [1 - d / 20] equal to the similarity. *)
Definition hit (name : string) (text : str) (sim : Q) : Hit :=
  {| id := lit name;
     content := text;
     metadata := meta name;
     distance := (20 * (1 - sim))%Q;
     similarity := Some sim |}.

(** The default configuration of the pipeline, with the threshold 0.7. *)
Definition config : Config :=
  {| model := lit "openai/gpt-oss-120b:novita";
     alternative_model := None;
     temperature := 1 # 10;
     max_tokens := 1000;
     retrieval_top_k := 5;
     similarity_threshold := 7 # 10 |}.

Definition config_with_alternative : Config :=
  {| model := lit "openai/gpt-oss-120b:novita";
     alternative_model := Some (lit "backup-model");
     temperature := 1 # 10;
     max_tokens := 1000;
     retrieval_top_k := 5;
     similarity_threshold := 7 # 10 |}.

Definition strong : Hit := hit "tck.txt" (lit "Madde 1") (9 # 10).
Definition weak : Hit := hit "tmk.txt" (lit "Madde 2") (3 # 10).

(** The same with the floats that the decimals 0.7, 0.9 and 0.3 denote. *)
Definition float_config : Config :=
  {| model := lit "openai/gpt-oss-120b:novita";
     alternative_model := None;
     temperature := Binary64.decimal (1 # 10);
     max_tokens := 1000;
     retrieval_top_k := 5;
     similarity_threshold := Binary64.decimal (7 # 10) |}.

Definition float_strong : Hit :=
  hit "tck.txt" (lit "Madde 1") (Binary64.decimal (9 # 10)).
Definition float_weak : Hit :=
  hit "tmk.txt" (lit "Madde 2") (Binary64.decimal (3 # 10)).

(** The hit that [search] makes of a row at the raw distance 2.5: its
    similarity is 0.875. *)
Definition near_hit : Hit :=
  {| id := lit "tck.txt";
     content := lit "Madde 1";
     metadata := meta "tck.txt";
     distance := 5 # 2;
     similarity := Some (normalize (5 # 2)) |}.

(** A chunk of 201 characters. *)
Definition long_content : str := repeat "a"%char 201.
Definition long_hit : Hit := hit "uzun.txt" long_content (9 # 10).

(** An index whose embedding model and store always answer, holding
    nothing yet. *)
Definition backend : Backend :=
  {| top_k := 5;
     encode := fun texts => Some (map (fun _ => [1%Q]) texts);
     uuid4 := fun n => lit "uuid-" ++ str_of_nat n;
     storage_accepts := fun _ _ => true;
     collection_query := fun records _ _ => Some [[]] |}.

Definition empty_index : State :=
  {| collection := []; uuids_drawn := 0 |}.

(** A generation backend that fails on every call. *)
Definition world_down : World :=
  {| chroma := backend;
     chroma_state := empty_index;
     chat_completions_create :=
       fun _ _ _ _ _ => Raised (Exception (lit "timeout"));
     now_isoformat := fun _ => lit "2024-01-01T00:00:00" |}.

Definition question : str := lit "Ceza kanunu nedir?".

Definition row (name : string) (text : str) (d : Q) : QueryRow :=
  {| row_id := lit name;
     row_document := text;
     row_metadata := meta name;
     row_distance := d |}.

(** An index that answers every query with two rows, at raw distances 2
    and 14, and a generation backend that answers every call. *)
Definition world_up : World :=
  {| chroma :=
       {| top_k := 5;
          encode := fun texts => Some (map (fun _ => [1%Q]) texts);
          uuid4 := fun n => lit "uuid-" ++ str_of_nat n;
          storage_accepts := fun _ _ => true;
          collection_query := fun _ _ _ =>
            Some [[row "tck.txt" (lit "Madde 1") 2;
                   row "tmk.txt" (lit "Madde 2") 14]] |};
     chroma_state := empty_index;
     chat_completions_create :=
       fun _ _ _ _ _ => Returned (lit " Amaci cezalari gostermektir. ");
     now_isoformat := fun _ => lit "2024-01-01T00:00:00" |}.

(** A chunker with chunk size 10 and overlap 2. *)
Definition narrow_chunker : DocumentProcessor.t :=
  {| DocumentProcessor.supported_formats := [lit ".txt"];
     DocumentProcessor.chunk_size := 10;
     DocumentProcessor.chunk_overlap := 2 |}.

Definition document (text : string) : Document :=
  {| doc_content := Some (lit text);
     doc_filename := Some (lit "tck.txt");
     doc_file_type := Some (lit ".txt");
     doc_chunk_index := Some 0;
     doc_total_chunks := Some 1;
     doc_timestamp := None;
     doc_file_size := None |}.

Definition empty_document : Document :=
  {| doc_content := Some [];
     doc_filename := Some (lit "bos.txt");
     doc_file_type := None;
     doc_chunk_index := None;
     doc_total_chunks := None;
     doc_timestamp := None;
     doc_file_size := None |}.

(** Chunker settings in which the overlap equals the chunk size. *)
Definition overlapping_settings : DocumentProcessor.Config :=
  {| DocumentProcessor.cfg_supported_formats := Some [lit ".txt"];
     DocumentProcessor.cfg_chunk_size := Some 5;
     DocumentProcessor.cfg_chunk_overlap := Some 5 |}.

(** A chunker with chunk size 10 and overlap 5. *)
Definition small_chunker : DocumentProcessor.t :=
  {| DocumentProcessor.supported_formats := [lit ".txt"];
     DocumentProcessor.chunk_size := 10;
     DocumentProcessor.chunk_overlap := 5 |}.

(** 27 characters; the only space is at index 5. *)
Definition early_space_text : str := lit "abcde fghijklmnopqrstuvwxyz".

(** The default chunker: chunk size 1000, overlap 200. *)
Definition default_chunker : DocumentProcessor.t :=
  {| DocumentProcessor.supported_formats :=
       [lit ".pdf"; lit ".docx"; lit ".txt"];
     DocumentProcessor.chunk_size := 1000;
     DocumentProcessor.chunk_overlap := 200 |}.

Definition clock : DocumentProcessor.Clock :=
  {| DocumentProcessor.isoformat_at := fun _ => lit "2024-01-01T00:00:00";
     DocumentProcessor.strftime_at := fun _ => lit "2024-01-01 00:00:00" |}.

(** A text file that exists, is small and reads as UTF-8. *)
Definition text_file (name : string) (text : str) : DocumentProcessor.File :=
  {| DocumentProcessor.file_exists := true;
     DocumentProcessor.file_name := lit name;
     DocumentProcessor.file_path := lit "data/" ++ lit name;
     DocumentProcessor.file_suffix := lit ".TXT";
     DocumentProcessor.file_st_size := len text;
     DocumentProcessor.pdf_pages := None;
     DocumentProcessor.docx_paragraphs := None;
     DocumentProcessor.read_text := fun _ => DocumentProcessor.Read text |}.

Definition short_file : DocumentProcessor.File :=
  text_file "kisa.TXT" (lit " abc ").

Definition law_text : str :=
  lit "  Madde 1 -   Amac
  Bu Kanunun amaci cezalari gostermektir.  ".

Definition law_file : DocumentProcessor.File :=
  text_file "tck.TXT" law_text.

(** A PDF of four pages: the second cannot be read, the third is blank. *)
Definition pdf_file : DocumentProcessor.File :=
  {| DocumentProcessor.file_exists := true;
     DocumentProcessor.file_name := lit "tck.pdf";
     DocumentProcessor.file_path := lit "data/tck.pdf";
     DocumentProcessor.file_suffix := lit ".pdf";
     DocumentProcessor.file_st_size := 2048;
     DocumentProcessor.pdf_pages :=
       Some [Some (lit "Madde 1"); None; Some []; Some (lit "Madde 4")];
     DocumentProcessor.docx_paragraphs := None;
     DocumentProcessor.read_text :=
       fun _ => DocumentProcessor.OtherError |}.

(** A chunker with chunk size 10 and no overlap. *)
Definition plain_chunker : DocumentProcessor.t :=
  {| DocumentProcessor.supported_formats := [lit ".txt"];
     DocumentProcessor.chunk_size := 10;
     DocumentProcessor.chunk_overlap := 0 |}.

(** A chunker with chunk size 30 and overlap 5 that reads text files and
    PDFs. *)
Definition file_chunker : DocumentProcessor.t :=
  {| DocumentProcessor.supported_formats := [lit ".txt"; lit ".pdf"];
     DocumentProcessor.chunk_size := 30;
     DocumentProcessor.chunk_overlap := 5 |}.

Definition spaced_text : str := lit "aaa bbb ccc ddd eee fff".

(** The configuration of the pipeline with the threshold 0.95. *)
Definition strict_config : Config :=
  {| model := lit "openai/gpt-oss-120b:novita";
     alternative_model := None;
     temperature := 1 # 10;
     max_tokens := 1000;
     retrieval_top_k := 5;
     similarity_threshold := 95 # 100 |}.

Definition unspaced_text : str :=
  lit "abcdefghijklmnopqrstuvwxyz0123456789".

(** What [process_file] makes of [law_file] within 10 passes. *)
Definition law_documents : list DocumentProcessor.ProcessedDocument :=
  match DocumentProcessor.process_file 10 file_chunker None clock law_file
  with
  | Some documents => documents
  | None => []
  end.

(** The index after [document "Madde 1"] and an empty record have been
    added to the empty one, and after they have been added once more. *)
Definition added_once : State :=
  snd (add_documents backend empty_index
         [document "Madde 1"; empty_document]).

Definition added_twice : State :=
  snd (add_documents backend added_once
         [document "Madde 1"; empty_document]).

(** The index after the documents of [law_file] have been added to the
    empty one. *)
Definition law_index : State :=
  snd (add_documents backend empty_index
         (map DocumentProcessor.as_document law_documents)).

(** A scanned PDF: no page gives text. *)
Definition scanned_pdf : DocumentProcessor.File :=
  {| DocumentProcessor.file_exists := true;
     DocumentProcessor.file_name := lit "tarama.pdf";
     DocumentProcessor.file_path := lit "data/tarama.pdf";
     DocumentProcessor.file_suffix := lit ".PDF";
     DocumentProcessor.file_st_size := 4096;
     DocumentProcessor.pdf_pages := Some [Some []; None; Some []];
     DocumentProcessor.docx_paragraphs := None;
     DocumentProcessor.read_text :=
       fun _ => DocumentProcessor.OtherError |}.

End Examples.

(** ** Shapes of text used to state the properties *)

Module Shape.

(** The first character is whitespace. *)
Definition starts_with_space (s : str) : bool :=
  match s with
  | c :: _ => isspace c
  | [] => false
  end.

(** The last character is whitespace. *)
Definition ends_with_space (s : str) : bool := starts_with_space (rev s).

(** Every whitespace character is a space and is not followed by
    whitespace. *)
Fixpoint single_spaced (s : str) : bool :=
  match s with
  | [] => true
  | c :: s' =>
      (negb (isspace c)
       || (Ascii.eqb c " "%char && negb (starts_with_space s')))
      && single_spaced s'
  end.

(** The characters that are not whitespace, in order. *)
Definition letters (s : str) : str :=
  filter (fun c => negb (isspace c)) s.

(** [piece] occurs in [text] as a run of consecutive characters. *)
Definition infix (piece text : str) : Prop :=
  exists before after, text = before ++ piece ++ after.

(** The number of calls of the generation backend in a trace. *)
Definition llm_calls (tr : RAGPipeline.trace) : nat :=
  List.length
    (filter (fun e => match e with
                      | RAGPipeline.ChatCompletion _ _ _ _ => true
                      | _ => false
                      end) tr).

(** The call of the generation backend for a model and a prompt under a
    configuration. *)
Definition llm_call (config : RAGPipeline.Config) (model_id prompt : str)
  : RAGPipeline.event :=
  RAGPipeline.ChatCompletion model_id prompt
    (RAGPipeline.temperature config) (RAGPipeline.max_tokens config).

(** An input record of [add_documents] has content that is present and
    not empty. *)
Definition has_content (doc : ChromaManager.Document) : bool :=
  truthy (ChromaManager.get (ChromaManager.doc_content doc) []).

(** The input records with content, each with the number of the draw of
    its identifier: the draws are numbered from [drawn] on, one per input
    record. *)
Definition drawn_for_content (drawn : nat)
    (documents : list ChromaManager.Document)
  : list (nat * ChromaManager.Document) :=
  filter (fun item => has_content (snd item))
    (enumerate_from drawn documents).

(** The pages of a PDF whose text could be read and is not empty, each
    with its 0-based position among all the pages. *)
Definition pages_with_text (pages : list (option str))
  : list (nat * str) :=
  flat_map (fun item =>
              match snd item with
              | Some (c :: text) => [(fst item, c :: text)]
              | _ => []
              end) (enumerate pages).

(** Rows listed by ascending raw distance. *)
Definition ascending (rows : list ChromaManager.QueryRow) : Prop :=
  StronglySorted
    (fun a b =>
       (ChromaManager.row_distance a <= ChromaManager.row_distance b)%Q)
    rows.

(** The mean of some numbers, in exact arithmetic. *)
Definition mean (xs : list Q) : Q :=
  (fold_left Qplus xs 0 / inject_Z (len xs))%Q.

End Shape.

(** * Properties *)

(** ** Arithmetic of the Python primitives *)

Lemma Qltb_lt (x y : Q) : Qltb x y = true <-> (x < y)%Q.
Proof. unfold Qltb, Qlt. apply Z.ltb_lt. Qed.

Lemma Qltb_ge (x y : Q) : Qltb x y = false <-> (y <= x)%Q.
Proof. unfold Qltb, Qle. apply Z.ltb_ge. Qed.

Lemma max2_Qmax (a b : Q) : max2 a b = Qmax a b.
Proof.
  unfold max2, Qltb, Qmax, GenericMinMax.gmax, Qcompare, Z.ltb.
  destruct (Qnum a * QDen b ?= Qnum b * QDen a); reflexivity.
Qed.

Lemma min2_Qmin (a b : Q) : min2 a b = Qmin a b.
Proof.
  unfold min2, Qltb, Qmin, GenericMinMax.gmin, Qcompare, Z.ltb.
  rewrite (Z.compare_antisym (Qnum a * QDen b) (Qnum b * QDen a)).
  destruct (Qnum a * QDen b ?= Qnum b * QDen a); reflexivity.
Qed.

Lemma max2_cases (a b : Q) :
  ((a < b)%Q /\ max2 a b = b) \/ ((b <= a)%Q /\ max2 a b = a).
Proof.
  unfold max2. destruct (Qltb a b) eqn:E.
  - left. split; [now apply Qltb_lt | reflexivity].
  - right. split; [now apply Qltb_ge | reflexivity].
Qed.

Lemma max_iter_upper (rest : list Q) (first : Q) :
  (first <= max_iter first rest)%Q /\
  Forall (fun x => (x <= max_iter first rest)%Q) rest.
Proof.
  unfold max_iter. revert first.
  induction rest as [|x rest IH]; intros first; simpl.
  - split; [apply Qle_refl | constructor].
  - destruct (IH (max2 first x)) as [Hm Hall].
    destruct (max2_cases first x) as [[Hlt Heq] | [Hle Heq]];
      rewrite Heq in *.
    + split; [eapply Qle_trans; [apply Qlt_le_weak, Hlt | exact Hm]|].
      constructor; assumption.
    + split; [exact Hm|].
      constructor; [eapply Qle_trans; eassumption | assumption].
Qed.

Lemma max_iter_attained (rest : list Q) (first : Q) :
  In (max_iter first rest) (first :: rest).
Proof.
  unfold max_iter. revert first.
  induction rest as [|x rest IH]; intros first; simpl.
  - now left.
  - destruct (IH (max2 first x)) as [Heq | Hin].
    + destruct (max2_cases first x) as [[_ E] | [_ E]]; rewrite E in *.
      * right. left. exact Heq.
      * left. exact Heq.
    + right. right. exact Hin.
Qed.

Lemma sum_ones_from {A} (p : A -> bool) (xs : list A) (acc : Z) :
  fold_left (fun acc x => if p x then acc + 1 else acc) xs acc
  = acc + len (filter p xs).
Proof.
  unfold len. revert acc.
  induction xs as [|x xs IH]; intros acc; simpl.
  - lia.
  - rewrite IH. destruct (p x); simpl List.length; lia.
Qed.

Lemma sum_ones_count {A} (p : A -> bool) (xs : list A) :
  sum_ones p xs = len (filter p xs).
Proof. unfold sum_ones. now rewrite sum_ones_from. Qed.

Lemma min2_cases (a b : Q) :
  ((b < a)%Q /\ min2 a b = b) \/ ((a <= b)%Q /\ min2 a b = a).
Proof.
  unfold min2. destruct (Qltb b a) eqn:E.
  - left. split; [now apply Qltb_lt | reflexivity].
  - right. split; [now apply Qltb_ge | reflexivity].
Qed.

Lemma round_half_even_between (x : Q) (a b : Z) :
  (inject_Z a <= x)%Q -> (x <= inject_Z b)%Q ->
  a <= round_half_even x <= b.
Proof.
  intros Ha Hb.
  assert (Hfa : a <= Qfloor x).
  { rewrite <- (Qfloor_Z a). now apply Qfloor_resp_le. }
  assert (Hfb : Qfloor x <= b).
  { rewrite <- (Qfloor_Z b). now apply Qfloor_resp_le. }
  unfold round_half_even.
  destruct (Qltb (x - inject_Z (Qfloor x)) (1 # 2)) eqn:Hlow; [lia|].
  apply Qltb_ge in Hlow.
  assert (Hlt : Qfloor x < b).
  { destruct (Z.eq_dec (Qfloor x) b) as [Heq | Hne]; [|lia].
    exfalso. rewrite Heq in Hlow. lra. }
  destruct (Qltb (1 # 2) (x - inject_Z (Qfloor x))); [lia|].
  destruct (Z.even (Qfloor x)); lia.
Qed.

Lemma round_half_even_cases (x : Q) :
  round_half_even x = Qfloor x \/ round_half_even x = Qfloor x + 1.
Proof.
  unfold round_half_even.
  destruct (Qltb _ _); [now left|].
  destruct (Qltb _ _); [now right|].
  destruct (Z.even _); [now left | now right].
Qed.

Lemma round_half_even_monotone (x y : Q) :
  (x <= y)%Q -> round_half_even x <= round_half_even y.
Proof.
  intros Hxy.
  pose proof (Qfloor_resp_le x y Hxy) as Hf.
  destruct (Z.eq_dec (Qfloor x) (Qfloor y)) as [E | N].
  - unfold round_half_even. rewrite <- E.
    destruct (Qltb (x - inject_Z (Qfloor x)) (1 # 2)) eqn:X1.
    + destruct (Qltb (y - inject_Z (Qfloor x)) (1 # 2)); [lia|].
      destruct (Qltb (1 # 2) (y - inject_Z (Qfloor x))); [lia|].
      destruct (Z.even (Qfloor x)); lia.
    + apply Qltb_ge in X1.
      destruct (Qltb (y - inject_Z (Qfloor x)) (1 # 2)) eqn:Y1.
      { apply Qltb_lt in Y1. lra. }
      destruct (Qltb (1 # 2) (x - inject_Z (Qfloor x))) eqn:X2.
      * apply Qltb_lt in X2.
        destruct (Qltb (1 # 2) (y - inject_Z (Qfloor x))) eqn:Y2; [lia|].
        apply Qltb_ge in Y2. lra.
      * destruct (Qltb (1 # 2) (y - inject_Z (Qfloor x)));
          destruct (Z.even (Qfloor x)); lia.
  - destruct (round_half_even_cases x) as [-> | ->];
      destruct (round_half_even_cases y) as [-> | ->]; lia.
Qed.

Lemma round_half_even_nearest (x : Q) :
  (Qabs (x - inject_Z (round_half_even x)) <= 1 # 2)%Q /\
  (Qabs (x - inject_Z (round_half_even x)) == 1 # 2 ->
   Z.even (round_half_even x) = true).
Proof.
  pose proof (Qfloor_le x) as Hlo. pose proof (Qlt_floor x) as Hhi.
  rewrite inject_Z_plus in Hhi. change (inject_Z 1) with 1%Q in Hhi.
  unfold round_half_even.
  destruct (Qltb (x - inject_Z (Qfloor x)) (1 # 2)) eqn:E1.
  - apply Qltb_lt in E1. split.
    + apply Qabs_case; intros; lra.
    + revert E1. apply Qabs_case; intros; lra.
  - apply Qltb_ge in E1.
    destruct (Qltb (1 # 2) (x - inject_Z (Qfloor x))) eqn:E2.
    + apply Qltb_lt in E2. rewrite inject_Z_plus.
      change (inject_Z 1) with 1%Q. split.
      * apply Qabs_case; intros; lra.
      * revert E2. apply Qabs_case; intros; lra.
    + apply Qltb_ge in E2.
      destruct (Z.even (Qfloor x)) eqn:Ev.
      * split; [apply Qabs_case; intros; lra | intros _; exact Ev].
      * rewrite inject_Z_plus. change (inject_Z 1) with 1%Q. split.
        -- apply Qabs_case; intros; lra.
        -- intros _. rewrite Z.even_add, Ev. reflexivity.
Qed.

(** ** Binary64 rounding

    [Binary64.rnd] is monotone, gives a binary64 number, and no binary64
    number is nearer to its argument; of two nearest ones it gives the
    one with the even significand. *)

Section Rounding.

Import Binary64.


Lemma pow2_pos (e : Z) : (0 < pow2 e)%Q.
Proof. apply Qpower_0_lt. reflexivity. Qed.

Lemma pow2_add (a b : Z) : pow2 (a + b) == pow2 a * pow2 b.
Proof. apply Qpower_plus. discriminate. Qed.

Lemma pow2_le (a b : Z) : a <= b -> (pow2 a <= pow2 b)%Q.
Proof. intros H. apply Qpower_le_compat_l; [exact H | discriminate]. Qed.

Lemma pow2_lt_inv (a b : Z) : (pow2 a < pow2 b)%Q -> a < b.
Proof. intros H. apply (Qpower_lt_compat_l_inv 2); [exact H | reflexivity]. Qed.

Lemma pow2_Z (e : Z) : 0 <= e -> pow2 e == inject_Z (2 ^ e).
Proof. intros H. symmetry. apply (Zpower_Qpower 2 e H). Qed.

Lemma log2_bounds (n : Z) :
  0 < n ->
  (pow2 (Z.log2 n) <= inject_Z n)%Q /\ (inject_Z n < pow2 (Z.log2 n + 1))%Q.
Proof.
  intros Hn. pose proof (Z.log2_spec n Hn) as [Hlo Hhi].
  pose proof (Z.log2_nonneg n) as H0.
  rewrite !pow2_Z by lia. rewrite <- Zle_Qle, <- Zlt_Qlt.
  replace (Z.succ (Z.log2 n)) with (Z.log2 n + 1) in Hhi by lia. lia.
Qed.

Lemma Qabs_fraction (x : Q) :
  Qabs x * inject_Z (QDen x) == inject_Z (Z.abs (Qnum x)).
Proof.
  destruct x as [n d]. unfold Qabs, Qeq, inject_Z. simpl. lia.
Qed.

Lemma ilog2_spec (x : Q) :
  ~ x == 0 ->
  (pow2 (ilog2 x) <= Qabs x)%Q /\ (Qabs x < pow2 (ilog2 x + 1))%Q.
Proof.
  intros Hx.
  assert (Hn : 0 < Z.abs (Qnum x)).
  { destruct x as [n d]. unfold Qeq in Hx. simpl in *. lia. }
  assert (Hd : 0 < QDen x) by reflexivity.
  pose proof (log2_bounds _ Hn) as [Hn1 Hn2].
  pose proof (log2_bounds _ Hd) as [Hd1 Hd2].
  pose proof (Qabs_fraction x) as Hfrac.
  assert (Hdq : (0 < inject_Z (QDen x))%Q).
  { change 0%Q with (inject_Z 0). now rewrite <- Zlt_Qlt. }
  set (ln := Z.log2 (Z.abs (Qnum x))) in *.
  set (ld := Z.log2 (QDen x)) in *.
  unfold ilog2. fold ln. fold ld.
  destruct (Qle_bool (pow2 (ln - ld)) (Qabs x)) eqn:E.
  - apply Qle_bool_iff in E. split; [exact E|].
    apply (Qmult_lt_r _ _ (inject_Z (QDen x)) Hdq).
    rewrite Hfrac.
    eapply Qlt_le_trans; [exact Hn2|].
    assert (Heq : pow2 (ln + 1) == pow2 (ln - ld + 1) * pow2 ld).
    { rewrite <- pow2_add. replace (ln - ld + 1 + ld) with (ln + 1) by lia.
      reflexivity. }
    rewrite Heq. apply Qmult_le_l; [apply pow2_pos | exact Hd1].
  - assert (E' : (Qabs x < pow2 (ln - ld))%Q).
    { apply Qnot_le_lt. intros H. apply Qle_bool_iff in H. congruence. }
    replace (ln - ld - 1 + 1) with (ln - ld) by lia. split; [|exact E'].
    apply (Qmult_le_r _ _ (inject_Z (QDen x)) Hdq).
    rewrite Hfrac.
    eapply Qle_trans; [|exact Hn1].
    assert (Heq : pow2 ln == pow2 (ln - ld - 1) * pow2 (ld + 1)).
    { rewrite <- pow2_add. replace (ln - ld - 1 + (ld + 1)) with ln by lia.
      reflexivity. }
    rewrite Heq. apply Qmult_le_l; [apply pow2_pos|].
    apply Qlt_le_weak, Hd2.
Qed.

Lemma ilog2_monotone (x y : Q) :
  ~ x == 0 -> ~ y == 0 -> (Qabs x <= Qabs y)%Q -> ilog2 x <= ilog2 y.
Proof.
  intros Hx Hy Hle.
  destruct (ilog2_spec x Hx) as [Hx1 _].
  destruct (ilog2_spec y Hy) as [_ Hy2].
  assert (H : (pow2 (ilog2 x) < pow2 (ilog2 y + 1))%Q).
  { eapply Qle_lt_trans; [exact Hx1|].
    eapply Qle_lt_trans; [exact Hle | exact Hy2]. }
  apply pow2_lt_inv in H. lia.
Qed.

Lemma rnd_nonzero (x : Q) :
  ~ x == 0 ->
  rnd x == inject_Z (round_half_even (x / pow2 (exponent x)))
           * pow2 (exponent x).
Proof.
  intros Hx. unfold rnd.
  destruct (Qeq_bool x 0) eqn:E.
  - apply Qeq_bool_iff in E. contradiction.
  - cbv zeta. apply Qred_correct.
Qed.

Lemma rnd_zero (x : Q) : x == 0 -> rnd x = 0%Q.
Proof.
  intros Hx. unfold rnd. apply Qeq_bool_iff in Hx. now rewrite Hx.
Qed.

(** The scaled value of a non-zero [x] has fewer than 54 bits, and
    exactly 53 unless [x] is subnormal. *)
Lemma scaled_bounds (x : Q) :
  ~ x == 0 ->
  (Qabs x < pow2 53 * pow2 (exponent x))%Q /\
  (-1074 < exponent x -> (pow2 52 * pow2 (exponent x) <= Qabs x)%Q).
Proof.
  intros Hx. destruct (ilog2_spec x Hx) as [Hlo Hhi].
  unfold exponent. split.
  - eapply Qlt_le_trans; [exact Hhi|].
    rewrite <- pow2_add. apply pow2_le. lia.
  - intros He. eapply Qle_trans; [|exact Hlo].
    rewrite <- pow2_add. apply pow2_le. lia.
Qed.

Lemma Qle_div_pow2 (x y : Q) (e : Z) :
  (x <= y * pow2 e)%Q -> (x / pow2 e <= y)%Q.
Proof.
  pose proof (pow2_pos e) as Hp. intros H.
  apply Qle_shift_div_r; assumption.
Qed.

Lemma Qge_div_pow2 (x y : Q) (e : Z) :
  (y * pow2 e <= x)%Q -> (y <= x / pow2 e)%Q.
Proof.
  pose proof (pow2_pos e) as Hp. intros H.
  apply Qle_shift_div_l; assumption.
Qed.

Lemma rnd_nonneg (x : Q) : (0 <= x)%Q -> (0 <= rnd x)%Q.
Proof.
  intros Hx. destruct (Qeq_dec x 0) as [E | N].
  - rewrite (rnd_zero x E). lra.
  - rewrite (rnd_nonzero x N).
    pose proof (pow2_pos (exponent x)) as Hp.
    apply Qmult_le_0_compat; [|lra].
    change 0%Q with (inject_Z 0). rewrite <- Zle_Qle.
    assert (H : (inject_Z 0 <= x / pow2 (exponent x))%Q).
    { apply Qge_div_pow2. change (inject_Z 0) with 0%Q. lra. }
    pose proof (Qlt_floor (x / pow2 (exponent x))) as Hup.
    apply (round_half_even_between _ 0 (Qfloor (x / pow2 (exponent x)) + 1));
      [exact H | lra].
Qed.

Lemma rnd_nonpos (x : Q) : (x <= 0)%Q -> (rnd x <= 0)%Q.
Proof.
  intros Hx. destruct (Qeq_dec x 0) as [E | N].
  - rewrite (rnd_zero x E). lra.
  - rewrite (rnd_nonzero x N).
    pose proof (pow2_pos (exponent x)) as Hp.
    assert (H : (x / pow2 (exponent x) <= inject_Z 0)%Q).
    { apply Qle_div_pow2. change (inject_Z 0) with 0%Q. lra. }
    pose proof (Qfloor_le (x / pow2 (exponent x))) as Hdown.
    assert (Hr : round_half_even (x / pow2 (exponent x)) <= 0).
    { apply (round_half_even_between _ (Qfloor (x / pow2 (exponent x))) 0);
        [exact Hdown | exact H]. }
    rewrite Zle_Qle in Hr. change (inject_Z 0) with 0%Q in Hr.
    setoid_replace 0%Q with (0 * pow2 (exponent x))%Q by ring.
    apply Qmult_le_compat_r; lra.
Qed.

Lemma inject_pow2 (e : Z) : 0 <= e -> inject_Z (2 ^ e) == pow2 e.
Proof. intros H. now rewrite pow2_Z. Qed.

Lemma rnd_monotone_pos (x y : Q) :
  (0 < x)%Q -> (x <= y)%Q -> (rnd x <= rnd y)%Q.
Proof.
  intros Hx Hxy.
  assert (Nx : ~ x == 0) by lra. assert (Ny : ~ y == 0) by lra.
  rewrite (rnd_nonzero x Nx), (rnd_nonzero y Ny).
  assert (Habs : (Qabs x <= Qabs y)%Q).
  { rewrite !Qabs_pos by lra. exact Hxy. }
  pose proof (ilog2_monotone x y Nx Ny Habs) as Hlog.
  destruct (scaled_bounds x Nx) as [Hx53 _].
  destruct (scaled_bounds y Ny) as [_ Hy52].
  rewrite Qabs_pos in Hx53 by lra. rewrite Qabs_pos in Hy52 by lra.
  assert (He : exponent x <= exponent y) by (unfold exponent; lia).
  pose proof (pow2_pos (exponent x)) as Hpx.
  pose proof (pow2_pos (exponent y)) as Hpy.
  destruct (Z.eq_dec (exponent x) (exponent y)) as [E | N].
  - rewrite <- E. apply Qmult_le_compat_r; [|lra].
    rewrite <- Zle_Qle. apply round_half_even_monotone.
    apply Qle_shift_div_l; [exact Hpx|].
    assert (Eq : x / pow2 (exponent x) * pow2 (exponent x) == x)
      by (field; lra).
    rewrite Eq. exact Hxy.
  - assert (Hlt : exponent x < exponent y) by lia.
    assert (Hupper : round_half_even (x / pow2 (exponent x)) <= 2 ^ 53).
    { apply (round_half_even_between _ (Qfloor (x / pow2 (exponent x))) _);
        [apply Qfloor_le|].
      rewrite inject_pow2 by lia. apply Qle_div_pow2. lra. }
    assert (Hlower : 2 ^ 52 <= round_half_even (y / pow2 (exponent y))).
    { pose proof (Qlt_floor (y / pow2 (exponent y))) as Hup.
      apply (round_half_even_between _ _
               (Qfloor (y / pow2 (exponent y)) + 1)); [|lra].
      rewrite inject_pow2 by lia. apply Qge_div_pow2. apply Hy52.
      unfold exponent in *. lia. }
    rewrite Zle_Qle in Hupper, Hlower.
    rewrite inject_pow2 in Hupper, Hlower by lia.
    apply Qle_trans with (pow2 53 * pow2 (exponent x))%Q.
    { apply Qmult_le_compat_r; [exact Hupper | lra]. }
    apply Qle_trans with (pow2 52 * pow2 (exponent y))%Q.
    { rewrite <- !pow2_add. apply pow2_le. lia. }
    apply Qmult_le_compat_r; [exact Hlower | lra].
Qed.

Lemma rnd_monotone_neg (x y : Q) :
  (y < 0)%Q -> (x <= y)%Q -> (rnd x <= rnd y)%Q.
Proof.
  intros Hy Hxy.
  assert (Nx : ~ x == 0) by lra. assert (Ny : ~ y == 0) by lra.
  rewrite (rnd_nonzero x Nx), (rnd_nonzero y Ny).
  assert (Habs : (Qabs y <= Qabs x)%Q).
  { rewrite !Qabs_neg by lra. lra. }
  pose proof (ilog2_monotone y x Ny Nx Habs) as Hlog.
  destruct (scaled_bounds y Ny) as [Hy53 _].
  destruct (scaled_bounds x Nx) as [_ Hx52].
  rewrite Qabs_neg in Hy53 by lra. rewrite Qabs_neg in Hx52 by lra.
  assert (He : exponent y <= exponent x) by (unfold exponent; lia).
  pose proof (pow2_pos (exponent x)) as Hpx.
  pose proof (pow2_pos (exponent y)) as Hpy.
  destruct (Z.eq_dec (exponent y) (exponent x)) as [E | N].
  - rewrite E. apply Qmult_le_compat_r; [|lra].
    rewrite <- Zle_Qle. apply round_half_even_monotone.
    apply Qle_shift_div_l; [exact Hpx|].
    assert (Eq : x / pow2 (exponent x) * pow2 (exponent x) == x)
      by (field; lra).
    rewrite Eq. exact Hxy.
  - assert (Hlt : exponent y < exponent x) by lia.
    assert (Hlower : - 2 ^ 53 <= round_half_even (y / pow2 (exponent y))).
    { pose proof (Qlt_floor (y / pow2 (exponent y))) as Hup.
      apply (round_half_even_between _ _
               (Qfloor (y / pow2 (exponent y)) + 1)); [|lra].
      rewrite inject_Z_opp, inject_pow2 by lia.
      apply Qge_div_pow2. lra. }
    assert (Hupper : round_half_even (x / pow2 (exponent x)) <= - 2 ^ 52).
    { apply (round_half_even_between _ (Qfloor (x / pow2 (exponent x))) _);
        [apply Qfloor_le|].
      rewrite inject_Z_opp, inject_pow2 by lia.
      apply Qle_div_pow2.
      assert (H : (pow2 52 * pow2 (exponent x) <= - x)%Q).
      { apply Hx52. unfold exponent in *. lia. }
      lra. }
    rewrite Zle_Qle in Hupper, Hlower.
    rewrite inject_Z_opp, inject_pow2 in Hupper, Hlower by lia.
    apply Qle_trans with (- pow2 52 * pow2 (exponent x))%Q.
    { apply Qmult_le_compat_r; [exact Hupper | lra]. }
    apply Qle_trans with (- pow2 53 * pow2 (exponent y))%Q.
    { assert (H : (pow2 53 * pow2 (exponent y)
                   <= pow2 52 * pow2 (exponent x))%Q).
      { rewrite <- !pow2_add. apply pow2_le. lia. }
      lra. }
    apply Qmult_le_compat_r; [exact Hlower | lra].
Qed.

Lemma rnd_monotone (x y : Q) : (x <= y)%Q -> (rnd x <= rnd y)%Q.
Proof.
  intros Hxy.
  destruct (Qlt_le_dec 0 x) as [Hx | Hx].
  - now apply rnd_monotone_pos.
  - destruct (Qlt_le_dec y 0) as [Hy | Hy].
    + now apply rnd_monotone_neg.
    + apply Qle_trans with 0%Q; [now apply rnd_nonpos | now apply rnd_nonneg].
Qed.

Lemma rnd_compat (x y : Q) : x == y -> rnd x == rnd y.
Proof.
  intros E. apply Qle_antisym; apply rnd_monotone; rewrite E; apply Qle_refl.
Qed.

Lemma rnd_one : rnd 1 == 1.
Proof. reflexivity. Qed.

Lemma rnd_error (x : Q) :
  ~ x == 0 ->
  (Qabs (rnd x - x) <= pow2 (exponent x) * (1 # 2))%Q.
Proof.
  intros Hx. rewrite (rnd_nonzero x Hx).
  pose proof (pow2_pos (exponent x)) as Hp.
  destruct (round_half_even_nearest (x / pow2 (exponent x))) as [Hnear _].
  set (n := inject_Z (round_half_even (x / pow2 (exponent x)))) in *.
  assert (E : n * pow2 (exponent x) - x
              == - (x / pow2 (exponent x) - n) * pow2 (exponent x))
    by (field; lra).
  rewrite E, Qabs_Qmult, Qabs_opp, (Qabs_pos (pow2 (exponent x))) by lra.
  rewrite (Qmult_comm (pow2 (exponent x))).
  apply Qmult_le_compat_r; [exact Hnear | lra].
Qed.

Lemma rnd_error_unit (x : Q) :
  (0 <= x)%Q -> (x <= 1)%Q ->
  (Qabs (rnd x - x) <= 1 # 2 ^ 53)%Q /\ (0 <= rnd x)%Q /\ (rnd x <= 1)%Q.
Proof.
  intros H0 H1. split; [|split].
  - destruct (Qeq_dec x 0) as [E | N].
    + rewrite (rnd_zero x E), E. discriminate.
    + eapply Qle_trans; [apply (rnd_error x N)|].
      assert (He : exponent x <= -52).
      { destruct (ilog2_spec x N) as [Hlo _].
        rewrite Qabs_pos in Hlo by exact H0.
        assert (Hlt : (pow2 (ilog2 x) < pow2 1)%Q).
        { eapply Qle_lt_trans; [exact Hlo|].
          eapply Qle_lt_trans; [exact H1 | reflexivity]. }
        apply pow2_lt_inv in Hlt. unfold exponent. lia. }
      apply pow2_le in He.
      assert (E52 : pow2 (-52) * (1 # 2) == 1 # 2 ^ 53) by reflexivity.
      rewrite <- E52. apply Qmult_le_compat_r; [exact He | discriminate].
  - now apply rnd_nonneg.
  - rewrite <- rnd_one. now apply rnd_monotone.
Qed.

Lemma round_half_even_nearest_integer (q : Q) (k : Z) :
  (Qabs (q - inject_Z (round_half_even q)) <= Qabs (q - inject_Z k))%Q.
Proof.
  destruct (round_half_even_nearest q) as [Hnear _].
  set (n := round_half_even q) in *.
  destruct (Z.eq_dec k n) as [-> | Hne]; [apply Qle_refl|].
  apply Qabs_Qle_condition in Hnear. destruct Hnear as [H1 H2].
  destruct (Z_lt_le_dec k n) as [Hlt | Hge].
  - assert (H : k + 1 <= n) by lia.
    rewrite Zle_Qle, inject_Z_plus in H. change (inject_Z 1) with 1%Q in H.
    do 2 (apply Qabs_case; intros); lra.
  - assert (H : n + 1 <= k) by lia.
    rewrite Zle_Qle, inject_Z_plus in H. change (inject_Z 1) with 1%Q in H.
    do 2 (apply Qabs_case; intros); lra.
Qed.

Lemma rnd_nearest_on_grid (x : Q) (k : Z) :
  ~ x == 0 ->
  (Qabs (rnd x - x) <= Qabs (inject_Z k * pow2 (exponent x) - x))%Q.
Proof.
  intros N. rewrite (rnd_nonzero x N).
  set (e := exponent x). pose proof (pow2_pos e) as Hp.
  pose proof (round_half_even_nearest_integer (x / pow2 e) k) as H.
  set (n := round_half_even (x / pow2 e)) in *.
  assert (E1 : inject_Z n * pow2 e - x
               == - (x / pow2 e - inject_Z n) * pow2 e) by (field; lra).
  assert (E2 : inject_Z k * pow2 e - x
               == - (x / pow2 e - inject_Z k) * pow2 e) by (field; lra).
  rewrite E1, E2, !Qabs_Qmult, !Qabs_opp, (Qabs_pos (pow2 e)) by lra.
  apply Qmult_le_compat_r; [exact H | lra].
Qed.

(** No binary64 number is nearer to [x] than [rnd x] is. *)
Lemma rnd_nearest (x y : Q) :
  representable y -> (Qabs (rnd x - x) <= Qabs (y - x))%Q.
Proof.
  intros [m [e' [Hm [He' Hy]]]].
  destruct (Qeq_dec x 0) as [E | N].
  - rewrite (rnd_zero x E), E.
    setoid_replace (0 - 0)%Q with 0%Q by ring. apply Qabs_nonneg.
  - set (e := exponent x).
    pose proof (pow2_pos e) as Hp. pose proof (pow2_pos e') as Hp'.
    destruct (Z_le_gt_dec e e') as [Hle | Hgt].
    + assert (Hgrid : y == inject_Z (m * 2 ^ (e' - e)) * pow2 e).
      { rewrite Hy, inject_Z_mult, <- pow2_Z by lia.
        rewrite <- Qmult_assoc, <- pow2_add.
        replace (e' - e + e) with e' by lia. reflexivity. }
      rewrite Hgrid. apply (rnd_nearest_on_grid x _ N).
    + destruct (scaled_bounds x N) as [_ Hlow].
      fold e in Hlow.
      assert (Hx : (pow2 52 * pow2 e <= Qabs x)%Q).
      { apply Hlow. subst e. lia. }
      assert (Hyabs : (Qabs y <= pow2 52 * pow2 e)%Q).
      { rewrite Hy, Qabs_Qmult, (Qabs_pos (pow2 e')) by lra.
        apply Qle_trans with (pow2 53 * pow2 e')%Q.
        - apply Qmult_le_compat_r; [|lra].
          rewrite pow2_Z by lia. unfold Qabs. simpl Qnum. simpl Qden.
          unfold inject_Z, Qle. simpl. lia.
        - rewrite <- !pow2_add. apply pow2_le. lia. }
      destruct (Qlt_le_dec 0 x) as [Hpos | Hneg].
      * rewrite Qabs_pos in Hx by lra.
        eapply Qle_trans; [apply (rnd_nearest_on_grid x (2 ^ 52) N)|].
        fold e. rewrite <- pow2_Z by lia.
        apply Qabs_Qle_condition in Hyabs.
        do 2 (apply Qabs_case; intros); lra.
      * rewrite Qabs_neg in Hx by lra.
        eapply Qle_trans; [apply (rnd_nearest_on_grid x (- 2 ^ 52) N)|].
        fold e. rewrite inject_Z_opp, <- pow2_Z by lia.
        apply Qabs_Qle_condition in Hyabs.
        do 2 (apply Qabs_case; intros); lra.
Qed.

(** [rnd x] is a binary64 number. *)
Lemma rnd_representable (x : Q) : representable (rnd x).
Proof.
  destruct (Qeq_dec x 0) as [E | N].
  - rewrite (rnd_zero x E). exists 0, 0.
    split; [reflexivity | split; [lia | reflexivity]].
  - set (e := exponent x). pose proof (pow2_pos e) as Hp.
    assert (He : -1074 <= e) by (subst e; unfold exponent; lia).
    destruct (scaled_bounds x N) as [Hup _]. fold e in Hup.
    set (n := round_half_even (x / pow2 e)).
    assert (Hn : - 2 ^ 53 <= n <= 2 ^ 53).
    { apply Qabs_Qlt_condition in Hup. destruct Hup as [H1 H2].
      subst n. apply round_half_even_between.
      - rewrite inject_Z_opp, <- pow2_Z by lia.
        apply Qge_div_pow2. lra.
      - rewrite <- pow2_Z by lia. apply Qle_div_pow2. lra. }
    destruct (Z.eq_dec (Z.abs n) (2 ^ 53)) as [Heq | Hne].
    + exists (n / 2), (e + 1). split; [|split; [lia|]].
      * destruct (Z.abs_spec n) as [[_ Ha] | [_ Ha]]; rewrite Ha in Heq.
        -- rewrite Heq. reflexivity.
        -- replace n with (- 2 ^ 53) by lia. reflexivity.
      * rewrite (rnd_nonzero x N). fold e. fold n.
        rewrite pow2_add.
        assert (E2 : inject_Z n == inject_Z (n / 2) * pow2 1).
        { destruct (Z.abs_spec n) as [[_ Ha] | [_ Ha]]; rewrite Ha in Heq.
          - rewrite Heq. reflexivity.
          - replace n with (- 2 ^ 53) by lia. reflexivity. }
        rewrite E2. ring.
    + exists n, e. split; [lia|]. split; [exact He|].
      apply (rnd_nonzero x N).
Qed.

(** At a tie the significand of [rnd x] is even. *)
Lemma rnd_ties_to_even (x : Q) :
  ~ x == 0 ->
  exists n : Z,
    rnd x == inject_Z n * pow2 (exponent x) /\
    (Qabs (x / pow2 (exponent x) - inject_Z n) == 1 # 2 ->
     Z.even n = true).
Proof.
  intros N. exists (round_half_even (x / pow2 (exponent x))).
  split; [apply (rnd_nonzero x N) | apply round_half_even_nearest].
Qed.

Lemma round_half_even_compat (x y : Q) :
  x == y -> round_half_even x = round_half_even y.
Proof.
  intros E. apply Z.le_antisymm; apply round_half_even_monotone;
    rewrite E; apply Qle_refl.
Qed.

Lemma round_half_even_integer (z : Z) : round_half_even (inject_Z z) = z.
Proof.
  destruct (round_half_even_between (inject_Z z) z z) as [H1 H2];
    [apply Qle_refl | apply Qle_refl | lia].
Qed.

Lemma rnd_integer (n : Z) :
  0 <= n < 2 ^ 53 -> rnd (inject_Z n) == inject_Z n.
Proof.
  intros [Hn0 Hn].
  destruct (Z.eq_dec n 0) as [-> | Hne]; [reflexivity|].
  assert (Hpos : (0 < inject_Z n)%Q).
  { change 0%Q with (inject_Z 0). rewrite <- Zlt_Qlt. lia. }
  assert (N : ~ inject_Z n == 0) by lra.
  rewrite (rnd_nonzero _ N).
  assert (He : exponent (inject_Z n) <= 0).
  { destruct (ilog2_spec _ N) as [Hlo _].
    rewrite Qabs_pos in Hlo by lra.
    assert (Hlt : (pow2 (ilog2 (inject_Z n)) < pow2 53)%Q).
    { eapply Qle_lt_trans; [exact Hlo|].
      rewrite pow2_Z by lia. rewrite <- Zlt_Qlt. exact Hn. }
    apply pow2_lt_inv in Hlt. unfold exponent. lia. }
  set (e := exponent (inject_Z n)) in *.
  pose proof (pow2_pos e) as Hp.
  assert (Hk : pow2 (- e) * pow2 e == 1).
  { rewrite <- pow2_add. replace (- e + e) with 0 by lia. reflexivity. }
  assert (Hscaled : inject_Z n / pow2 e == inject_Z (n * 2 ^ (- e))).
  { rewrite inject_Z_mult, <- pow2_Z by lia.
    apply Qmult_inj_r with (pow2 e); [lra|].
    rewrite <- Qmult_assoc, Hk. field. lra. }
  rewrite (round_half_even_compat _ _ Hscaled), round_half_even_integer.
  rewrite inject_Z_mult, <- pow2_Z by lia.
  rewrite <- Qmult_assoc, Hk. ring.
Qed.

Lemma rnd_error_below (y : Q) (k : Z) :
  1 <= k -> (0 <= y)%Q -> (y <= inject_Z k)%Q ->
  (Qabs (rnd y - y) <= inject_Z k * (1 # 2 ^ 53))%Q.
Proof.
  intros Hk H0 Hy.
  assert (Hk1 : (1 <= inject_Z k)%Q).
  { change 1%Q with (inject_Z 1). now rewrite <- Zle_Qle. }
  destruct (Qeq_dec y 0) as [E | N].
  - rewrite (rnd_zero y E), E.
    apply Qle_trans with (1 * (1 # 2 ^ 53))%Q; [discriminate|].
    apply Qmult_le_compat_r; [exact Hk1 | discriminate].
  - eapply Qle_trans; [apply (rnd_error y N)|].
    assert (Hu : (pow2 (exponent y) <= inject_Z k * pow2 (-52))%Q).
    { unfold exponent.
      destruct (Z.max_spec (ilog2 y - 52) (-1074)) as [[_ ->] | [_ ->]].
      - apply Qle_trans with (1 * pow2 (-52))%Q; [discriminate|].
        apply Qmult_le_compat_r; [exact Hk1 | discriminate].
      - destruct (ilog2_spec y N) as [Hlo _].
        rewrite Qabs_pos in Hlo by exact H0.
        replace (ilog2 y - 52) with (ilog2 y + -52) by lia.
        rewrite pow2_add.
        apply Qmult_le_compat_r; [lra | discriminate]. }
    assert (E52 : pow2 (-52) * (1 # 2) == 1 # 2 ^ 53) by reflexivity.
    rewrite <- E52, Qmult_assoc.
    apply Qmult_le_compat_r; [exact Hu | discriminate].
Qed.

Lemma round2_unit (x : Q) :
  ((x <= 1 -> round2 x <= 1) /\ (0 <= x -> 0 <= round2 x))%Q.
Proof.
  unfold round2. split; intros Hx.
  - assert (H : round_half_even (x * 100) <= 100).
    { apply (round_half_even_between (x * 100) (Qfloor (x * 100)) 100);
        [apply Qfloor_le | change (inject_Z 100) with 100%Q; lra]. }
    rewrite <- rnd_one. apply rnd_monotone.
    apply Qle_shift_div_r; [reflexivity|].
    rewrite Zle_Qle in H. change (inject_Z 100) with 100%Q in H. lra.
  - assert (H : 0 <= round_half_even (x * 100)).
    { pose proof (Qlt_floor (x * 100)) as Hup.
      apply (round_half_even_between (x * 100) 0
               (Qfloor (x * 100) + 1));
        [change (inject_Z 0) with 0%Q; lra | lra]. }
    apply rnd_nonneg.
    apply Qle_shift_div_l; [reflexivity|].
    rewrite Zle_Qle in H. change (inject_Z 0) with 0%Q in H. lra.
Qed.

End Rounding.

(** ** SimilarityNormalizer *)

Lemma normalize_nonneg (d : Q) : (0 <= ChromaManager.normalize d)%Q.
Proof.
  unfold ChromaManager.normalize.
  destruct (max2_cases 0 (Binary64.sub 1 (Binary64.div d 20)))
    as [[H ->] | [H ->]]; lra.
Qed.

Lemma scaled_distance_monotone (d d' : Q) :
  (d <= d')%Q -> (Binary64.div d 20 <= Binary64.div d' 20)%Q.
Proof.
  intros Hle. apply rnd_monotone. unfold Qdiv.
  apply Qmult_le_compat_r; [exact Hle | discriminate].
Qed.

Lemma normalize_antitone (d d' : Q) :
  (d <= d')%Q ->
  (ChromaManager.normalize d' <= ChromaManager.normalize d)%Q.
Proof.
  intros Hle. unfold ChromaManager.normalize.
  assert (H : (Binary64.sub 1 (Binary64.div d' 20)
               <= Binary64.sub 1 (Binary64.div d 20))%Q).
  { apply rnd_monotone.
    pose proof (scaled_distance_monotone d d' Hle). lra. }
  destruct (max2_cases 0 (Binary64.sub 1 (Binary64.div d 20)))
    as [[H1 ->] | [H1 ->]];
    destruct (max2_cases 0 (Binary64.sub 1 (Binary64.div d' 20)))
      as [[H2 ->] | [H2 ->]]; lra.
Qed.

Lemma normalize_at_most_one (d : Q) :
  (0 <= d)%Q -> (ChromaManager.normalize d <= 1)%Q.
Proof.
  intros Hd. unfold ChromaManager.normalize.
  assert (Hq : (0 <= Binary64.div d 20)%Q).
  { apply rnd_nonneg. apply Qle_shift_div_l; [reflexivity | lra]. }
  assert (H : (Binary64.sub 1 (Binary64.div d 20) <= 1)%Q).
  { rewrite <- rnd_one at 2. apply rnd_monotone. lra. }
  destruct (max2_cases 0 (Binary64.sub 1 (Binary64.div d 20)))
    as [[H1 ->] | [H1 ->]]; lra.
Qed.

Lemma normalize_far (d : Q) :
  (20 <= d)%Q -> ChromaManager.normalize d == 0.
Proof.
  intros Hd. unfold ChromaManager.normalize.
  assert (Hq : (1 <= Binary64.div d 20)%Q).
  { rewrite <- rnd_one. apply rnd_monotone.
    apply Qle_shift_div_l; [reflexivity | lra]. }
  assert (H : (Binary64.sub 1 (Binary64.div d 20) <= 0)%Q).
  { apply rnd_nonpos. lra. }
  destruct (max2_cases 0 (Binary64.sub 1 (Binary64.div d 20)))
    as [[H1 ->] | [H1 ->]]; lra.
Qed.

Lemma normalize_accurate (d : Q) :
  (0 <= d)%Q ->
  (Qabs (ChromaManager.normalize d - Qmax 0 (1 - d / 20))
   <= 1 # 2 ^ 52)%Q.
Proof.
  intros Hd.
  destruct (Qlt_le_dec 20 d) as [Hfar | Hnear].
  - rewrite (normalize_far d) by lra.
    assert (Hq : (1 - d / 20 <= 0)%Q).
    { assert (1 <= d / 20)%Q
        by (apply Qle_shift_div_l; [reflexivity | lra]). lra. }
    rewrite Q.max_l by exact Hq. vm_compute. discriminate.
  - assert (Hq0 : (0 <= d / 20)%Q)
      by (apply Qle_shift_div_l; [reflexivity | lra]).
    assert (Hq1 : (d / 20 <= 1)%Q)
      by (apply Qle_shift_div_r; [reflexivity | lra]).
    pose proof (rnd_error_unit (d / 20) Hq0 Hq1) as [Hr [Hr0 Hr1]].
    fold (Binary64.div d 20) in Hr, Hr0, Hr1.
    assert (Hy0 : (0 <= 1 - Binary64.div d 20)%Q) by lra.
    assert (Hy1 : (1 - Binary64.div d 20 <= 1)%Q) by lra.
    pose proof (rnd_error_unit _ Hy0 Hy1) as [Hs [Hs0 Hs1]].
    fold (Binary64.sub 1 (Binary64.div d 20)) in Hs, Hs0, Hs1.
    unfold ChromaManager.normalize.
    rewrite Q.max_r by lra.
    assert (E : max2 0 (Binary64.sub 1 (Binary64.div d 20))
                == Binary64.sub 1 (Binary64.div d 20)).
    { destruct (max2_cases 0 (Binary64.sub 1 (Binary64.div d 20)))
        as [[H1 ->] | [H1 ->]]; lra. }
    rewrite E.
    apply Qle_trans with ((1 # 2 ^ 53) + (1 # 2 ^ 53))%Q;
      [|vm_compute; discriminate].
    apply Qabs_Qle_condition in Hr, Hs. apply Qabs_Qle_condition.
    revert Hr Hs. generalize (1 # 2 ^ 53)%Q. intros u [Hr2 Hr3] [Hs2 Hs3].
    split; lra.
Qed.

(** C4: the normalized similarity is [max(0, 1 - d/20)], evaluated in
    binary64, and within [2^-52] of the exact value of that expression
    when the raw distance [d] is not negative; it is never negative and at
    most 1 for the raw distances that the index gives, which are not
    negative; it is non-increasing in [d]; it is 1 at 0 and 0 from 20
    on. *)
Theorem normalize_spec (d : Q) :
  ChromaManager.normalize d
  = Qmax 0 (Binary64.sub 1 (Binary64.div d 20)) /\
  ((0 <= d)%Q ->
   (Qabs (ChromaManager.normalize d - Qmax 0 (1 - d / 20))
    <= 1 # 2 ^ 52)%Q) /\
  (0 <= ChromaManager.normalize d)%Q /\
  ((0 <= d)%Q -> (ChromaManager.normalize d <= 1)%Q) /\
  (forall d' : Q,
      (d <= d')%Q ->
      (ChromaManager.normalize d' <= ChromaManager.normalize d)%Q) /\
  ChromaManager.normalize 0 == 1 /\
  ((20 <= d)%Q -> ChromaManager.normalize d == 0).
Proof.
  split; [apply max2_Qmax|].
  split; [apply normalize_accurate|].
  split; [apply normalize_nonneg|].
  split; [apply normalize_at_most_one|].
  split; [intros d'; apply normalize_antitone|].
  split; [reflexivity | apply normalize_far].
Qed.

Lemma normalize_spec_witness :
  (0 <= 5)%Q /\ (5 <= 25)%Q /\ (20 <= 25)%Q /\
  (Qabs (ChromaManager.normalize 5 - Qmax 0 (1 - 5 / 20))
   <= 1 # 2 ^ 52)%Q /\
  (ChromaManager.normalize 5 <= 1)%Q /\
  (ChromaManager.normalize 25 <= ChromaManager.normalize 5)%Q /\
  ChromaManager.normalize 25 == 0.
Proof.
  assert (H0 : (0 <= 5)%Q) by (unfold Qle; simpl; lia).
  assert (H1 : (5 <= 25)%Q) by (unfold Qle; simpl; lia).
  assert (H2 : (20 <= 25)%Q) by (unfold Qle; simpl; lia).
  do 3 (split; [assumption|]).
  split; [|split; [|split]].
  - exact (proj1 (proj2 (normalize_spec 5)) H0).
  - exact (proj1 (proj2 (proj2 (proj2 (normalize_spec 5)))) H0).
  - exact (proj1 (proj2 (proj2 (proj2 (proj2 (normalize_spec 5)))))
             25%Q H1).
  - exact (proj2 (proj2 (proj2 (proj2 (proj2 (proj2
             (normalize_spec 25)))))) H2).
Defined.

(** The raw distance 18 gives the float just below 0.1, and so do the
    primitive floats. *)
Example normalize_18 :
  ChromaManager.normalize 18 = (900719925474099 # 9007199254740992)%Q /\
  Machine.value
    (PrimFloat.sub PrimFloat.one
       (PrimFloat.div (Machine.of_Z 18) (Machine.of_Z 20)))
  = Some (ChromaManager.normalize 18).
Proof. split; vm_compute; reflexivity. Qed.

(** On the raw distances 0, 1/8, 2/8, ..., 50 the primitive floats give
    the same similarities. *)
Example normalize_agrees_with_machine :
  forallb
    (fun k =>
       match Machine.value (Machine.normalize (Machine.fraction k 8)) with
       | Some similarity =>
           Qeq_bool similarity (ChromaManager.normalize (k # 8))
       | None => false
       end)
    (map Z.of_nat (seq 0 401))
  = true.
Proof. vm_compute. reflexivity. Qed.

(** ** ConfidenceScorer *)

Section Confidence.

Import ChromaManager RAGPipeline.

Variable config : Config.

Lemma keeps_iff_threshold (hit : Hit) :
  negb (Qltb (doc_similarity hit) (similarity_threshold config))
  = Qle_bool (similarity_threshold config) (doc_similarity hit).
Proof. unfold Qltb, Qle_bool. symmetry. apply Z.leb_antisym. Qed.

Lemma good_docs_count (hits : list Hit) :
  good_docs config hits
  = Spec.good_count (similarity_threshold config) hits.
Proof.
  unfold good_docs. rewrite sum_ones_count. unfold Spec.good_count.
  f_equal. apply filter_ext. intros hit. apply keeps_iff_threshold.
Qed.

Lemma calculate_confidence_nonempty (doc : Hit) (docs : list Hit) :
  _calculate_confidence config (doc :: docs)
  = Binary64.round2
      (Qmin
         (Binary64.add
            (Qmin (max_iter (doc_similarity doc) (map doc_similarity docs))
               1)
            (Qmin
               (Binary64.mul
                  (Binary64.of_int
                     (Spec.good_count (similarity_threshold config)
                        (doc :: docs)))
                  (Binary64.decimal (1 # 10)))
               (Binary64.decimal (3 # 10))))
         1).
Proof.
  unfold _calculate_confidence.
  rewrite good_docs_count, !min2_Qmin. reflexivity.
Qed.

End Confidence.

(** C1: the confidence of an empty hit sequence is 0; otherwise it is
    [min(best, 1.0) + min(goodCount * 0.1, 0.3)] clamped to 1.0, with
    the product and the sum taken in binary64, and then rounded to two
    decimals: the result is the float nearest to [n / 100], where [n] is
    the whole number nearest to a hundred times the clamped value, the
    even one of two equally near; [best] is the greatest similarity among
    all hits and [goodCount] counts the hits at or above the threshold.
    For similarities 0.9 and 0.3 with threshold 0.7 it is 1.0.  For a
    single hit of similarity 0.875 it is 0.97, because the binary64 sum
    of 0.875 and 0.1 lies just below 0.975. *)
Theorem calculate_confidence_spec (config : RAGPipeline.Config) :
  RAGPipeline._calculate_confidence config [] = 0%Q /\
  (forall doc docs,
      exists (best clamped : Q) (n : Z),
        In best (map RAGPipeline.doc_similarity (doc :: docs)) /\
        Forall (fun s => (s <= best)%Q)
          (map RAGPipeline.doc_similarity (doc :: docs)) /\
        clamped
        = Qmin
            (Binary64.add (Qmin best 1)
               (Qmin
                  (Binary64.mul
                     (Binary64.of_int
                        (Spec.good_count
                           (RAGPipeline.similarity_threshold config)
                           (doc :: docs)))
                     (Binary64.decimal (1 # 10)))
                  (Binary64.decimal (3 # 10))))
            1 /\
        (Qabs (clamped * 100 - inject_Z n) <= 1 # 2)%Q /\
        (Qabs (clamped * 100 - inject_Z n) == 1 # 2 ->
         Z.even n = true) /\
        RAGPipeline._calculate_confidence config (doc :: docs)
        = Binary64.rnd (inject_Z n / 100)) /\
  (forall h1 h2,
      ChromaManager.similarity h1 = Some (Binary64.decimal (9 # 10)) ->
      ChromaManager.similarity h2 = Some (Binary64.decimal (3 # 10)) ->
      RAGPipeline.similarity_threshold config
      = Binary64.decimal (7 # 10) ->
      RAGPipeline._calculate_confidence config [h1; h2] == 1) /\
  (forall h,
      ChromaManager.similarity h = Some (7 # 8) ->
      RAGPipeline.similarity_threshold config
      = Binary64.decimal (7 # 10) ->
      RAGPipeline._calculate_confidence config [h]
      = Binary64.decimal (97 # 100)).
Proof.
  split; [reflexivity | split; [|split]].
  - intros doc docs.
    set (best := max_iter (RAGPipeline.doc_similarity doc)
                   (map RAGPipeline.doc_similarity docs)).
    set (clamped :=
           Qmin
             (Binary64.add (Qmin best 1)
                (Qmin
                   (Binary64.mul
                      (Binary64.of_int
                         (Spec.good_count
                            (RAGPipeline.similarity_threshold config)
                            (doc :: docs)))
                      (Binary64.decimal (1 # 10)))
                   (Binary64.decimal (3 # 10))))
             1).
    exists best, clamped, (round_half_even (clamped * 100)).
    split; [apply max_iter_attained | split].
    { destruct (max_iter_upper (map RAGPipeline.doc_similarity docs)
                  (RAGPipeline.doc_similarity doc)) as [Hfirst Hrest].
      constructor; assumption. }
    split; [reflexivity|].
    split; [apply round_half_even_nearest|].
    split; [apply round_half_even_nearest|].
    rewrite calculate_confidence_nonempty. unfold Binary64.round2.
    subst clamped best. reflexivity.
  - intros h1 h2 H1 H2 Ht.
    unfold RAGPipeline._calculate_confidence, RAGPipeline.good_docs,
      RAGPipeline.doc_similarity.
    simpl map. unfold sum_ones. simpl fold_left.
    unfold RAGPipeline.doc_similarity. rewrite H1, H2, Ht.
    vm_compute. reflexivity.
  - intros h H Ht.
    unfold RAGPipeline._calculate_confidence, RAGPipeline.good_docs,
      RAGPipeline.doc_similarity.
    simpl map. unfold sum_ones. simpl fold_left.
    unfold RAGPipeline.doc_similarity. rewrite H, Ht.
    vm_compute. reflexivity.
Qed.

Lemma calculate_confidence_spec_witness :
  ChromaManager.similarity Examples.float_strong
  = Some (Binary64.decimal (9 # 10)) /\
  ChromaManager.similarity Examples.float_weak
  = Some (Binary64.decimal (3 # 10)) /\
  ChromaManager.similarity Examples.near_hit = Some (7 # 8) /\
  RAGPipeline.similarity_threshold Examples.float_config
  = Binary64.decimal (7 # 10) /\
  RAGPipeline._calculate_confidence Examples.float_config
    [Examples.float_strong; Examples.float_weak] == 1 /\
  RAGPipeline._calculate_confidence Examples.float_config
    [Examples.near_hit]
  = Binary64.decimal (97 # 100).
Proof.
  assert (Hnear : ChromaManager.similarity Examples.near_hit
                  = Some (7 # 8)) by reflexivity.
  do 2 (split; [reflexivity|]).
  split; [exact Hnear|]. split; [reflexivity|]. split.
  - exact (proj1 (proj2 (proj2
             (calculate_confidence_spec Examples.float_config)))
             Examples.float_strong Examples.float_weak
             eq_refl eq_refl eq_refl).
  - exact (proj2 (proj2 (proj2
             (calculate_confidence_spec Examples.float_config)))
             Examples.near_hit Hnear eq_refl).
Defined.

(** The sum of 0.875 and 0.1 on primitive floats, and the confidence of
    the hit that [search] makes of the raw distance 2.5. *)
Example confidence_of_near_hit :
  Machine.value
    (PrimFloat.add (Machine.fraction 7 8) (Machine.fraction 1 10))
  = Some (Binary64.add (7 # 8) (Binary64.decimal (1 # 10))) /\
  Machine.value (Machine.fraction 97 100)
  = Some (Binary64.decimal (97 # 100)) /\
  RAGPipeline._calculate_confidence Examples.float_config
    [Examples.near_hit]
  = Binary64.decimal (97 # 100).
Proof. repeat split; vm_compute; reflexivity. Qed.

(** ** ContextAssembler *)

(** A loop that appends [f x] for the items it does not skip collects
    the image of the items kept, in order. *)
Lemma fold_left_collect {A B} (step : list B -> A -> list B)
    (skip : A -> bool) (f : A -> B) :
  (forall acc x, step acc x = if skip x then acc else acc ++ [f x]) ->
  forall (l : list A) (acc : list B),
    fold_left step l acc
    = acc ++ map f (filter (fun x => negb (skip x)) l).
Proof.
  intros Hstep l.
  induction l as [|x l IH]; intros acc; simpl.
  - now rewrite app_nil_r.
  - rewrite IH, Hstep. destruct (skip x); simpl.
    + reflexivity.
    + now rewrite <- app_assoc.
Qed.

Lemma enumerate_from_In {A} (l : list A) (s i : nat) (x : A) :
  In (i, x) (enumerate_from s l)
  <-> (s <= i)%nat /\ nth_error l (i - s) = Some x.
Proof.
  revert s. induction l as [|y l IH]; intros s; simpl.
  - split; [tauto | intros [_ H]]. destruct (i - s)%nat; discriminate.
  - rewrite IH. split.
    + intros [H | [Hle Hnth]].
      * injection H as -> ->. split; [lia|].
        now rewrite Nat.sub_diag.
      * split; [lia|].
        replace (i - s)%nat with (S (i - S s)) by lia. exact Hnth.
    + intros [Hle Hnth].
      destruct (Nat.eq_dec s i) as [-> | Hne].
      * left. rewrite Nat.sub_diag in Hnth. simpl in Hnth.
        now injection Hnth as ->.
      * right. split; [lia|].
        replace (i - s)%nat with (S (i - S s)) in Hnth by lia.
        exact Hnth.
Qed.

Lemma enumerate_In {A} (l : list A) (i : nat) (x : A) :
  In (i, x) (enumerate l) <-> nth_error l i = Some x.
Proof.
  unfold enumerate. rewrite enumerate_from_In, Nat.sub_0_r.
  split; [tauto | split; [lia | assumption]].
Qed.

Section Assembly.

Import ChromaManager RAGPipeline.

Variable config : Config.

Lemma format_sources_filter (hits : list Hit) :
  _format_sources config hits
  = map make_source (Spec.surviving (similarity_threshold config) hits).
Proof.
  unfold _format_sources, Spec.surviving.
  rewrite (fold_left_collect (format_sources_body config)
             (fun doc => Qltb (doc_similarity doc) (similarity_threshold config)) make_source)
    by reflexivity.
  simpl. f_equal. apply filter_ext. intros hit.
  apply keeps_iff_threshold.
Qed.

Lemma prepare_context_filter (hits : list Hit) :
  _prepare_context config hits
  = join newline
      (map (fun item => context_part (fst item + 1) (snd item))
         (Spec.labelled_survivors (similarity_threshold config) hits)).
Proof.
  unfold _prepare_context, Spec.labelled_survivors.
  rewrite (fold_left_collect (prepare_context_body config)
             (fun item => Qltb (doc_similarity (snd item)) (similarity_threshold config))
             (fun item => context_part (fst item + 1) (snd item))).
  - simpl. do 2 f_equal. apply filter_ext. intros [i hit].
    apply keeps_iff_threshold.
  - intros acc [i doc]. reflexivity.
Qed.

Lemma labelled_survivors_In (hits : list Hit) (i : nat) (hit : Hit) :
  In (i, hit) (Spec.labelled_survivors (similarity_threshold config) hits)
  <-> nth_error hits i = Some hit /\ ((similarity_threshold config) <= doc_similarity hit)%Q.
Proof.
  unfold Spec.labelled_survivors.
  rewrite filter_In, enumerate_In, Qle_bool_iff. reflexivity.
Qed.

Lemma surviving_In (hits : list Hit) (hit : Hit) :
  In hit (Spec.surviving (similarity_threshold config) hits)
  <-> In hit hits /\ ((similarity_threshold config) <= doc_similarity hit)%Q.
Proof.
  unfold Spec.surviving. now rewrite filter_In, Qle_bool_iff.
Qed.

Lemma descending_filter (keep : Hit -> bool) (hits : list Hit) :
  Spec.descending hits -> Spec.descending (filter keep hits).
Proof.
  unfold Spec.descending.
  induction 1 as [|hit hits Hsorted IH Hall]; simpl.
  - constructor.
  - destruct (keep hit); [|exact IH].
    constructor; [exact IH|].
    rewrite Forall_forall in *. intros h Hin.
    apply Hall. apply filter_In in Hin. tauto.
Qed.

End Assembly.

Lemma enumerate_from_snd {A} (l : list A) (s : nat) :
  map snd (enumerate_from s l) = l.
Proof.
  revert s. induction l as [|x l IH]; intros s; simpl;
    [reflexivity | now rewrite IH].
Qed.

Lemma filter_on_snd {A B} (p : B -> bool) (l : list (A * B)) :
  map snd (filter (fun item => p (snd item)) l) = filter p (map snd l).
Proof.
  induction l as [|[a b] l IH]; simpl; [reflexivity|].
  destruct (p b); simpl; now rewrite IH.
Qed.

Lemma labelled_survivors_hits (threshold : Q)
    (hits : list ChromaManager.Hit) :
  map snd (Spec.labelled_survivors threshold hits)
  = Spec.surviving threshold hits.
Proof.
  unfold Spec.labelled_survivors, Spec.surviving, enumerate.
  rewrite (filter_on_snd
             (fun hit => Qle_bool threshold (RAGPipeline.doc_similarity hit))).
  now rewrite enumerate_from_snd.
Qed.

(** C5: for hits given in descending-similarity order and any threshold,
    the sources are built from exactly the hits at or above the threshold,
    in descending-similarity order, and the context block is built from
    those same hits only. *)
Theorem sources_threshold_filtering (config : RAGPipeline.Config)
    (hits : list ChromaManager.Hit) :
  Spec.descending hits ->
  let t := RAGPipeline.similarity_threshold config in
  let kept := Spec.surviving t hits in
  RAGPipeline._format_sources config hits
  = map RAGPipeline.make_source kept /\
  (forall hit,
      In hit kept
      <-> In hit hits /\ (t <= RAGPipeline.doc_similarity hit)%Q) /\
  Spec.descending kept /\
  RAGPipeline._prepare_context config hits
  = join newline
      (map (fun item => RAGPipeline.context_part (fst item + 1) (snd item))
         (Spec.labelled_survivors t hits)) /\
  map snd (Spec.labelled_survivors t hits) = kept.
Proof.
  intros Hsorted t kept. subst t kept.
  split; [apply format_sources_filter|].
  split; [intros hit; apply surviving_In|].
  split; [now apply descending_filter|].
  split; [apply prepare_context_filter | apply labelled_survivors_hits].
Qed.

Lemma sources_threshold_filtering_witness :
  Spec.descending [Examples.strong; Examples.weak] /\
  RAGPipeline._format_sources Examples.config
    [Examples.strong; Examples.weak]
  = [RAGPipeline.make_source Examples.strong].
Proof.
  assert (Hsorted : Spec.descending [Examples.strong; Examples.weak]).
  { unfold Spec.descending. repeat constructor. unfold Qle. simpl. lia. }
  split; [exact Hsorted|].
  exact (proj1 (sources_threshold_filtering Examples.config
                  [Examples.strong; Examples.weak] Hsorted)).
Defined.

Lemma make_preview_cases (content : str) :
  RAGPipeline.make_preview content
  = firstn 200 content
      ++ (if (200 <? List.length content)%nat then lit "..." else []).
Proof.
  unfold RAGPipeline.make_preview, slice_to, adjust, len.
  destruct (Z.gtb_spec (Z.of_nat (List.length content)) 200) as [Hgt | Hle].
  - replace (200 <? List.length content)%nat with true
      by (symmetry; apply Nat.ltb_lt; lia).
    replace (200 <? 0) with false by reflexivity.
    rewrite Z.min_l by lia. reflexivity.
  - replace (200 <? List.length content)%nat with false
      by (symmetry; apply Nat.ltb_ge; lia).
    rewrite app_nil_r, firstn_all2 by lia. reflexivity.
Qed.

Lemma make_preview_length (content : str) :
  (List.length (RAGPipeline.make_preview content) <= 203)%nat.
Proof.
  rewrite make_preview_cases, length_app.
  pose proof (firstn_le_length 200 content) as Hfirst.
  destruct (200 <? List.length content)%nat.
  - change (List.length (lit "...")) with 3%nat. lia.
  - change (List.length (@nil ascii)) with 0%nat. lia.
Qed.

(** C9, counterexample: a surviving hit whose content has 201 characters
    gets a preview of 203 characters, more than 200. *)
Lemma preview_longer_than_200 :
  map (fun src => List.length (RAGPipeline.preview src))
    (RAGPipeline._format_sources Examples.config [Examples.long_hit])
  = [203%nat]
  /\ ~ (forall src,
         In src (RAGPipeline._format_sources Examples.config
                   [Examples.long_hit]) ->
         (List.length (RAGPipeline.preview src) <= 200)%nat).
Proof.
  split; [reflexivity|].
  intros H.
  specialize (H (RAGPipeline.make_source Examples.long_hit)
                (or_introl eq_refl)).
  vm_compute in H. lia.
Qed.

(** C9, amended: for every entry of the sources list, the preview is the
    first 200 characters of the content of a surviving hit, followed by
    the three-character ellipsis when the content is longer than 200; the
    preview is at most 203 characters long. *)
Theorem source_preview_spec (config : RAGPipeline.Config)
    (hits : list ChromaManager.Hit) (src : RAGPipeline.Source) :
  In src (RAGPipeline._format_sources config hits) ->
  exists hit,
    In hit hits /\
    (RAGPipeline.similarity_threshold config
     <= RAGPipeline.doc_similarity hit)%Q /\
    src = RAGPipeline.make_source hit /\
    RAGPipeline.preview src
    = firstn 200 (ChromaManager.content hit)
        ++ (if (200 <? List.length (ChromaManager.content hit))%nat
            then lit "..." else []) /\
    (List.length (RAGPipeline.preview src) <= 203)%nat.
Proof.
  rewrite format_sources_filter, in_map_iff.
  intros [hit [<- Hin]]. apply surviving_In in Hin as [Hin Hge].
  exists hit. repeat split; try assumption.
  - apply make_preview_cases.
  - apply make_preview_length.
Qed.

Lemma source_preview_spec_witness :
  In (RAGPipeline.make_source Examples.long_hit)
    (RAGPipeline._format_sources Examples.config [Examples.long_hit])
  /\ exists hit,
      In hit [Examples.long_hit] /\
      (RAGPipeline.similarity_threshold Examples.config
       <= RAGPipeline.doc_similarity hit)%Q /\
      RAGPipeline.make_source Examples.long_hit
      = RAGPipeline.make_source hit /\
      RAGPipeline.preview (RAGPipeline.make_source Examples.long_hit)
      = firstn 200 (ChromaManager.content hit)
          ++ (if (200 <? List.length (ChromaManager.content hit))%nat
              then lit "..." else []) /\
      (List.length
         (RAGPipeline.preview (RAGPipeline.make_source Examples.long_hit))
       <= 203)%nat.
Proof.
  split.
  - left. reflexivity.
  - apply (source_preview_spec Examples.config [Examples.long_hit]).
    left. reflexivity.
Defined.

Lemma labels_consecutive_positions {A} (items : list (nat * A)) :
  map (fun item => (fst item + 1)%nat) items = seq 1 (List.length items) ->
  map fst items = seq 0 (List.length items).
Proof.
  rewrite <- seq_shift. intros H.
  assert (Hmap : map S (map fst items) = map S (seq 0 (List.length items))).
  { rewrite <- H, map_map. apply map_ext. intros item. lia. }
  revert Hmap. generalize (seq 0 (List.length items)) (map fst items).
  intros l1 l2. revert l1.
  induction l2 as [|x l2 IH]; intros [|y l1]; simpl; try discriminate.
  - reflexivity.
  - intros Heq. injection Heq as -> Hrest. f_equal. now apply IH.
Qed.

Lemma str_of_nat_injective (n m : nat) :
  str_of_nat n = str_of_nat m -> n = m.
Proof.
  unfold str_of_nat, lit. intros H.
  assert (Hs : NilZero.string_of_uint (Nat.to_uint n)
               = NilZero.string_of_uint (Nat.to_uint m)).
  { rewrite <- (string_of_list_ascii_of_string
                  (NilZero.string_of_uint (Nat.to_uint n))), H.
    apply string_of_list_ascii_of_string. }
  assert (Hd : forall k,
             option_map Nat.of_uint
               (NilZero.uint_of_string
                  (NilZero.string_of_uint (Nat.to_uint k)))
             = Some k).
  { intros k. pose proof (Unsigned.of_to k) as Hk.
    destruct (Nat.to_uint k) eqn:E;
      [rewrite NilZero.usu_nil; simpl; simpl in Hk; now rewrite <- Hk
      |rewrite NilZero.usu by discriminate; simpl option_map;
       now rewrite Hk ..]. }
  pose proof (Hd n) as Hn. rewrite Hs, Hd in Hn. now injection Hn.
Qed.

Lemma enumerate_from_fst {A} (l : list A) (s : nat) :
  map fst (enumerate_from s l) = seq s (List.length l).
Proof.
  revert s. induction l as [|x l IH]; intros s; simpl;
    [reflexivity | now rewrite IH].
Qed.

Lemma seq_increasing (s n : nat) : StronglySorted lt (seq s n).
Proof.
  revert s. induction n as [|n IH]; intros s; simpl; constructor.
  - apply IH.
  - apply Forall_forall. intros i Hi. apply in_seq in Hi. lia.
Qed.

Lemma positions_filter_increasing {A} (keep : nat * A -> bool)
    (l : list (nat * A)) :
  StronglySorted lt (map fst l) ->
  StronglySorted lt (map fst (filter keep l)).
Proof.
  induction l as [|item l IH]; simpl; intros Hsorted; [constructor|].
  inversion Hsorted as [|? ? Htail Hhead]; subst.
  destruct (keep item); simpl; [|now apply IH].
  constructor; [now apply IH|].
  rewrite Forall_forall in *. intros i Hi. apply Hhead.
  apply in_map_iff in Hi as [item' [<- Hin]].
  apply in_map. apply filter_In in Hin. tauto.
Qed.

(** C10: the context block is the join of one part per surviving hit, in
    the order of the hit list; the header of a part reads
    [[Kaynak N: filename]], where N is the 1-based position of its hit in
    the full hit list; so when a hit below the threshold precedes a
    surviving hit, the numbers written in the headers are not 1, 2, ...,
    in sequence. *)
Theorem context_labels_are_positions (config : RAGPipeline.Config)
    (hits : list ChromaManager.Hit) :
  let t := RAGPipeline.similarity_threshold config in
  let kept := Spec.labelled_survivors t hits in
  RAGPipeline._prepare_context config hits
  = join newline
      (map (fun item =>
              lit "[Kaynak " ++ str_of_nat (fst item + 1) ++ lit ": "
                ++ ChromaManager.filename
                     (ChromaManager.metadata (snd item))
                ++ lit "]" ++ newline
                ++ strip (ChromaManager.content (snd item)) ++ newline)
         kept) /\
  (forall i hit,
      In (i, hit) kept
      <-> nth_error hits i = Some hit
          /\ (t <= RAGPipeline.doc_similarity hit)%Q) /\
  StronglySorted lt (map fst kept) /\
  (forall i j below above,
      (i < j)%nat ->
      nth_error hits i = Some below ->
      (RAGPipeline.doc_similarity below < t)%Q ->
      nth_error hits j = Some above ->
      (t <= RAGPipeline.doc_similarity above)%Q ->
      map (fun item => str_of_nat (fst item + 1)) kept
      <> map str_of_nat (seq 1 (List.length kept))).
Proof.
  intros t kept. subst t kept.
  split.
  { rewrite prepare_context_filter. f_equal. apply map_ext.
    intros item. unfold RAGPipeline.context_part.
    now rewrite <- !app_assoc. }
  split; [intros i hit; apply labelled_survivors_In|].
  split.
  { unfold Spec.labelled_survivors. apply positions_filter_increasing.
    unfold enumerate. rewrite enumerate_from_fst. apply seq_increasing. }
  intros i j below above Hij Hi Hbelow Hj Habove Hwritten.
  assert (Hlabels : map (fun item : nat * ChromaManager.Hit =>
                           (fst item + 1)%nat)
                      (Spec.labelled_survivors
                         (RAGPipeline.similarity_threshold config) hits)
                    = seq 1 (List.length
                               (Spec.labelled_survivors
                                  (RAGPipeline.similarity_threshold config)
                                  hits))).
  { revert Hwritten.
    generalize (seq 1 (List.length
                         (Spec.labelled_survivors
                            (RAGPipeline.similarity_threshold config)
                            hits))).
    generalize (Spec.labelled_survivors
                  (RAGPipeline.similarity_threshold config) hits).
    induction l as [|item l IH]; intros [|n ns]; simpl;
      try discriminate; [reflexivity|].
    intros H. injection H as Hhead Htail.
    f_equal; [now apply str_of_nat_injective | now apply IH]. }
  apply labels_consecutive_positions in Hlabels.
  set (kept := Spec.labelled_survivors _ hits) in *.
  assert (Hjin : In j (map fst kept)).
  { apply in_map_iff. exists (j, above). split; [reflexivity|].
    apply labelled_survivors_In. now split. }
  rewrite Hlabels in Hjin. apply in_seq in Hjin.
  assert (Hiin : In i (map fst kept)).
  { rewrite Hlabels. apply in_seq. lia. }
  apply in_map_iff in Hiin as [[i' hit] [Heq Hin]].
  simpl in Heq. subst i'.
  apply labelled_survivors_In in Hin as [Hnth Hge].
  rewrite Hi in Hnth. injection Hnth as <-.
  apply (Qlt_not_le _ _ Hbelow Hge).
Qed.

Lemma context_labels_are_positions_witness :
  (0 < 1)%nat /\
  nth_error [Examples.weak; Examples.strong] 0 = Some Examples.weak /\
  (RAGPipeline.doc_similarity Examples.weak
   < RAGPipeline.similarity_threshold Examples.config)%Q /\
  nth_error [Examples.weak; Examples.strong] 1 = Some Examples.strong /\
  (RAGPipeline.similarity_threshold Examples.config
   <= RAGPipeline.doc_similarity Examples.strong)%Q /\
  map (fun item => str_of_nat (fst item + 1))
    (Spec.labelled_survivors
       (RAGPipeline.similarity_threshold Examples.config)
       [Examples.weak; Examples.strong])
  <> map str_of_nat
       (seq 1 (List.length
                 (Spec.labelled_survivors
                    (RAGPipeline.similarity_threshold Examples.config)
                    [Examples.weak; Examples.strong]))).
Proof.
  assert (H01 : (0 < 1)%nat) by lia.
  assert (Hweak : (RAGPipeline.doc_similarity Examples.weak
                   < RAGPipeline.similarity_threshold Examples.config)%Q)
    by reflexivity.
  assert (Hstrong : (RAGPipeline.similarity_threshold Examples.config
                     <= RAGPipeline.doc_similarity Examples.strong)%Q)
    by (unfold Qle; simpl; lia).
  do 5 (split; [first [assumption | reflexivity]|]).
  exact (proj2 (proj2 (proj2 (context_labels_are_positions Examples.config
                                [Examples.weak; Examples.strong])))
           0%nat 1%nat Examples.weak Examples.strong
           H01 eq_refl Hweak eq_refl Hstrong).
Defined.

(** The labels of that context are just [2]: the surviving hit keeps the
    number of its place in the full list. *)
Example context_label_example :
  RAGPipeline._prepare_context Examples.config
    [Examples.weak; Examples.strong]
  = lit "[Kaynak 2: tck.txt]" ++ newline ++ lit "Madde 1" ++ newline.
Proof. reflexivity. Qed.


(** ** GenerationOrchestrator *)

Section Generation.

Import ChromaManager RAGPipeline.

Variables (W : World) (config : Config).

Lemma create_run (model_id prompt : str) (tr : trace) :
  create W config model_id prompt tr
  = (chat_completions_create W tr model_id prompt (temperature config)
       (max_tokens config),
     tr ++ [ChatCompletion model_id prompt (temperature config)
              (max_tokens config)]).
Proof. reflexivity. Qed.

(** The generation step always returns. *)
Lemma get_llm_response_returns (prompt : str) (tr : trace) :
  exists response tr',
    _get_llm_response W config prompt tr = (Returned response, tr').
Proof.
  unfold _get_llm_response, try_except, bind, ret. rewrite create_run.
  destruct (chat_completions_create W tr (model config) prompt _ _)
    as [content | e]; [eauto|].
  destruct (alternative_model config) as [alt_model|]; [|eauto].
  destruct (truthy alt_model); [|eauto].
  rewrite create_run.
  destruct (chat_completions_create W _ alt_model prompt _ _); eauto.
Qed.

End Generation.

(** C6: the generation step never raises; when the primary call fails and
    an alternative model is configured, the calls made are the primary
    call followed by exactly one call of the alternative model with the
    same prompt; when that call fails too, the fixed degraded message is
    returned. *)
Theorem llm_fallback_spec (W : RAGPipeline.World)
    (config : RAGPipeline.Config) (prompt : str)
    (tr : RAGPipeline.trace) (e : RAGPipeline.exn) (alt_model : str) :
  let call m :=
    RAGPipeline.ChatCompletion m prompt (RAGPipeline.temperature config)
      (RAGPipeline.max_tokens config) in
  let run := RAGPipeline._get_llm_response W config prompt tr in
  RAGPipeline.chat_completions_create W tr (RAGPipeline.model config)
    prompt (RAGPipeline.temperature config) (RAGPipeline.max_tokens config)
  = RAGPipeline.Raised e ->
  RAGPipeline.alternative_model config = Some alt_model ->
  truthy alt_model = true ->
  (exists response, fst run = RAGPipeline.Returned response) /\
  snd run = tr ++ [call (RAGPipeline.model config); call alt_model] /\
  (forall e',
      RAGPipeline.chat_completions_create W
        (tr ++ [call (RAGPipeline.model config)]) alt_model prompt
        (RAGPipeline.temperature config) (RAGPipeline.max_tokens config)
      = RAGPipeline.Raised e' ->
      fst run = RAGPipeline.Returned RAGPipeline.degraded_answer).
Proof.
  intros call run Hprimary Halt Htruthy. subst run call.
  destruct (get_llm_response_returns W config prompt tr)
    as [response [tr' Hrun]].
  split; [exists response; now rewrite Hrun|].
  clear response tr' Hrun.
  unfold RAGPipeline._get_llm_response, RAGPipeline.try_except,
    RAGPipeline.bind, RAGPipeline.ret.
  rewrite create_run, Hprimary, Halt, Htruthy, create_run.
  destruct (RAGPipeline.chat_completions_create W _ alt_model prompt _ _)
    as [content | e2] eqn:Hfallback; simpl.
  - split; [now rewrite <- app_assoc | discriminate].
  - split; [now rewrite <- app_assoc | reflexivity].
Qed.

Lemma llm_fallback_spec_witness :
  let run :=
    RAGPipeline._get_llm_response Examples.world_down
      Examples.config_with_alternative Examples.question [] in
  RAGPipeline.alternative_model Examples.config_with_alternative
  = Some (lit "backup-model") /\
  truthy (lit "backup-model") = true /\
  fst run = RAGPipeline.Returned RAGPipeline.degraded_answer /\
  snd run
  = [RAGPipeline.ChatCompletion (lit "openai/gpt-oss-120b:novita")
       Examples.question (1 # 10) 1000;
     RAGPipeline.ChatCompletion (lit "backup-model")
       Examples.question (1 # 10) 1000].
Proof.
  destruct (llm_fallback_spec Examples.world_down
              Examples.config_with_alternative Examples.question []
              (RAGPipeline.Exception (lit "timeout")) (lit "backup-model")
              eq_refl eq_refl eq_refl) as [_ [Hcalls Hdegraded]].
  do 2 (split; [reflexivity|]).
  split.
  - apply (Hdegraded (RAGPipeline.Exception (lit "timeout"))).
    reflexivity.
  - exact Hcalls.
Defined.

(** When no alternative model is configured, a failed primary call is
    followed by no other call. *)
Lemma llm_no_alternative (W : RAGPipeline.World)
    (config : RAGPipeline.Config) (prompt : str)
    (tr : RAGPipeline.trace) (e : RAGPipeline.exn) :
  RAGPipeline.chat_completions_create W tr (RAGPipeline.model config)
    prompt (RAGPipeline.temperature config) (RAGPipeline.max_tokens config)
  = RAGPipeline.Raised e ->
  RAGPipeline.alternative_model config = None ->
  RAGPipeline._get_llm_response W config prompt tr
  = (RAGPipeline.Returned RAGPipeline.degraded_answer,
     tr ++ [RAGPipeline.ChatCompletion (RAGPipeline.model config) prompt
              (RAGPipeline.temperature config)
              (RAGPipeline.max_tokens config)]).
Proof.
  intros Hprimary Halt.
  unfold RAGPipeline._get_llm_response, RAGPipeline.try_except,
    RAGPipeline.bind, RAGPipeline.ret.
  now rewrite create_run, Hprimary, Halt.
Qed.

(** C7: when retrieval returns no hit, the query returns the fixed
    "no relevant documents" answer with confidence 0 and no sources, and
    the only call it has made is the search: neither the context assembly
    nor the generation backend is invoked. *)
Theorem query_without_hits (W : RAGPipeline.World)
    (config : RAGPipeline.Config) (question : str)
    (chat_history : option (list RAGPipeline.Message))
    (tr : RAGPipeline.trace) :
  let searched :=
    tr ++ [RAGPipeline.Search question
             (RAGPipeline.retrieval_top_k config)] in
  ChromaManager.search (RAGPipeline.chroma W) (RAGPipeline.chroma_state W)
    question (Some (RAGPipeline.retrieval_top_k config)) = [] ->
  RAGPipeline.query W config question chat_history tr
  = (RAGPipeline.Returned
       {| RAGPipeline.answer := RAGPipeline.no_documents_answer;
          RAGPipeline.sources := [];
          RAGPipeline.confidence := 0;
          RAGPipeline.query_text := question;
          RAGPipeline.result_timestamp :=
            RAGPipeline.now_isoformat W searched;
          RAGPipeline.retrieved_docs_count := None |},
     searched).
Proof.
  intros searched Hnone.
  unfold RAGPipeline.query, RAGPipeline.try_except, RAGPipeline.bind,
    RAGPipeline.emit. rewrite Hnone. reflexivity.
Qed.

Lemma query_without_hits_witness :
  ChromaManager.search (RAGPipeline.chroma Examples.world_down)
    (RAGPipeline.chroma_state Examples.world_down) Examples.question
    (Some (RAGPipeline.retrieval_top_k Examples.config)) = []
  /\ snd (RAGPipeline.query Examples.world_down Examples.config
            Examples.question None [])
     = [RAGPipeline.Search Examples.question 5].
Proof.
  split; [reflexivity|].
  rewrite (query_without_hits Examples.world_down Examples.config
             Examples.question None [] eq_refl).
  reflexivity.
Defined.


(** ** EmbeddingIndex *)

Section Upsert.

Import ChromaManager.

Variable B : Backend.



End Upsert.

Lemma zip_records_length (texts : list str) :
  forall metadatas ids embeddings batch,
    ChromaManager.zip_records texts metadatas ids embeddings = Some batch ->
    List.length batch = List.length texts.
Proof.
  induction texts as [|t texts IH];
    intros [|m metadatas] [|i ids] [|e embeddings] batch; simpl;
    try discriminate.
  - now intros [= <-].
  - destruct (ChromaManager.zip_records texts metadatas ids embeddings)
      as [rest|] eqn:Hzip; [|discriminate].
    intros [= <-]. simpl. f_equal. eapply IH, Hzip.
Qed.




(** ** Chunker *)

Section Chunker.

Import DocumentProcessor.

(** A text that fits in one chunk is returned whole, whatever the overlap
    and however many passes are allowed. *)
Lemma split_short_text (fuel : nat) (self : t) (text : str) :
  len text <= chunk_size self ->
  _split_into_chunks fuel self text = Some [text].
Proof.
  intros Hshort. unfold _split_into_chunks.
  now replace (len text <=? chunk_size self) with true
    by (symmetry; apply Z.leb_le; exact Hshort).
Qed.

(** Where the loop goes next depends on [start] only. *)
Lemma loop_body_start (self : t) (text : str) (st st' : loop_state) :
  start st = start st' ->
  start (loop_body self text st) = start (loop_body self text st').
Proof.
  intros Heq. unfold loop_body. rewrite Heq.
  destruct (start st' + chunk_size self >=? len text); reflexivity.
Qed.

(** A pass that leaves [start] where it was is repeated for ever. *)
Lemma loop_stuck (self : t) (text : str) (fuel : nat) :
  forall st,
    start st < len text ->
    start (loop_body self text st) = start st ->
    loop fuel self text st = None.
Proof.
  induction fuel as [|fuel IH]; intros st Hlt Hsame; simpl.
  - now replace (start st <? len text) with true
      by (symmetry; apply Z.ltb_lt; exact Hlt).
  - replace (start st <? len text) with true
      by (symmetry; apply Z.ltb_lt; exact Hlt).
    replace (start (loop_body self text st) >=? len text) with false
      by (symmetry; rewrite Hsame, Z.geb_leb; apply Z.leb_gt; exact Hlt).
    apply IH.
    + now rewrite Hsame.
    + rewrite (loop_body_start self text (loop_body self text st) st Hsame).
      now rewrite Hsame.
Qed.

End Chunker.

Lemma rfind_scan_absent (c : ascii) (s : str) :
  ~ In c s -> forall i a b acc, rfind_scan c s i a b acc = acc.
Proof.
  induction s as [|x s IH]; intros Hnot i a b acc; simpl; [reflexivity|].
  rewrite IH by (intros Hin; apply Hnot; now right).
  destruct (Ascii.eqb_spec x c) as [-> | Hne].
  - exfalso. apply Hnot. now left.
  - now rewrite andb_false_r.
Qed.

Lemma rfind_absent (c : ascii) (s : str) (start stop : Z) :
  ~ In c s -> rfind c s start stop = -1.
Proof. intros Hnot. unfold rfind. now apply rfind_scan_absent. Qed.

(** In a text without spaces every pass moves [start] forward by the
    chunk size less the overlap. *)
Lemma loop_body_advances (self : DocumentProcessor.t) (text : str)
    (st : DocumentProcessor.loop_state) :
  ~ In space text ->
  0 <= DocumentProcessor.start st ->
  DocumentProcessor.start (DocumentProcessor.loop_body self text st)
  = DocumentProcessor.start st + DocumentProcessor.chunk_size self
    - DocumentProcessor.chunk_overlap self.
Proof.
  intros Hnot Hstart. unfold DocumentProcessor.loop_body.
  destruct (_ >=? len text); [reflexivity|].
  rewrite rfind_absent by exact Hnot.
  replace (-1 >? DocumentProcessor.start st) with false
    by (symmetry; rewrite Z.gtb_ltb; apply Z.ltb_ge; lia).
  reflexivity.
Qed.

Lemma loop_terminates_without_spaces (self : DocumentProcessor.t)
    (text : str) :
  ~ In space text ->
  DocumentProcessor.chunk_overlap self < DocumentProcessor.chunk_size self ->
  forall fuel st,
    0 <= DocumentProcessor.start st ->
    len text - DocumentProcessor.start st <= Z.of_nat fuel ->
    exists chunks, DocumentProcessor.loop fuel self text st = Some chunks.
Proof.
  intros Hnot Hsizes.
  induction fuel as [|fuel IH]; intros st Hstart Hfuel; simpl.
  - replace (DocumentProcessor.start st <? len text) with false
      by (symmetry; apply Z.ltb_ge; lia).
    eauto.
  - destruct (DocumentProcessor.start st <? len text); [|eauto].
    pose proof (loop_body_advances self text st Hnot Hstart) as Hnext.
    destruct (_ >=? len text); [eauto|].
    apply IH; lia.
Qed.

(** The chunker does terminate on texts without spaces, for every chunk
    size and every smaller overlap. *)
Lemma split_terminates_without_spaces (self : DocumentProcessor.t)
    (text : str) :
  ~ In space text ->
  DocumentProcessor.chunk_overlap self < DocumentProcessor.chunk_size self ->
  exists chunks,
    DocumentProcessor._split_into_chunks (List.length text) self text
    = Some chunks.
Proof.
  intros Hnot Hsizes. unfold DocumentProcessor._split_into_chunks.
  destruct (len text <=? _); [eauto|].
  destruct (loop_terminates_without_spaces self text Hnot Hsizes
              (List.length text)
              {| DocumentProcessor.start := 0;
                 DocumentProcessor.chunks := [] |})
    as [chunks Hloop]; simpl; unfold len; try lia.
  rewrite Hloop. eauto.
Qed.

(** C2: with chunk size 10 and overlap 5, a valid configuration, the
    splitting of a 27-character text whose only space is at index 5 does
    not terminate: the edge of the first window is pulled back to the
    space, [start] becomes [5 - 5 = 0] again, and no number of passes ends
    the loop. *)
Theorem split_into_chunks_loops_forever :
  0 < DocumentProcessor.chunk_size Examples.small_chunker /\
  0 <= DocumentProcessor.chunk_overlap Examples.small_chunker
    < DocumentProcessor.chunk_size Examples.small_chunker /\
  DocumentProcessor.start
    (DocumentProcessor.loop_body Examples.small_chunker
       Examples.early_space_text
       {| DocumentProcessor.start := 0; DocumentProcessor.chunks := [] |})
  = 0 /\
  forall fuel,
    DocumentProcessor._split_into_chunks fuel Examples.small_chunker
      Examples.early_space_text = None.
Proof.
  split; [reflexivity|]. split; [split; [discriminate | reflexivity]|].
  split; [reflexivity|].
  intros fuel. unfold DocumentProcessor._split_into_chunks.
  change (len Examples.early_space_text
          <=? DocumentProcessor.chunk_size Examples.small_chunker)
    with false.
  now rewrite loop_stuck.
Qed.

(** The same happens under the default settings (chunk size 1000, overlap
    200) when the last space of a window lies exactly 200 characters
    after its start. *)
Lemma split_into_chunks_default_loops_forever (fuel : nat) :
  DocumentProcessor._split_into_chunks fuel Examples.default_chunker
    (repeat "a"%char 200 ++ [space] ++ repeat "b"%char 1000) = None.
Proof.
  unfold DocumentProcessor._split_into_chunks.
  match goal with
  | |- context [len ?t <=? ?n] =>
      replace (len t <=? n) with false by (vm_compute; reflexivity)
  end.
  rewrite loop_stuck; [reflexivity | | ]; vm_compute; reflexivity.
Qed.

(** C3, counterexample: settings with overlap 5 and chunk size 5 are
    accepted, and the chunker built from them goes on to split text. *)
Lemma invalid_sizes_are_accepted :
  let accepted :=
    {| DocumentProcessor.supported_formats := [lit ".txt"];
       DocumentProcessor.chunk_size := 5;
       DocumentProcessor.chunk_overlap := 5 |} in
  (5 >= 5 \/ 5 <= 0) /\
  DocumentProcessor.__init__ Examples.overlapping_settings
  = DocumentProcessor.Started accepted /\
  (forall e,
      DocumentProcessor.__init__ Examples.overlapping_settings
      <> DocumentProcessor.Fatal e) /\
  DocumentProcessor._split_into_chunks 0 accepted (lit "abc")
  = Some [lit "abc"].
Proof.
  repeat split; try discriminate. left. lia.
Qed.

(** With these settings the risk is real: a text longer than the chunk
    is never finished. *)
Lemma overlapping_settings_loop_forever (fuel : nat) :
  DocumentProcessor._split_into_chunks fuel
    {| DocumentProcessor.supported_formats := [lit ".txt"];
       DocumentProcessor.chunk_size := 5;
       DocumentProcessor.chunk_overlap := 5 |}
    (lit "abcdefghij") = None.
Proof.
  unfold DocumentProcessor._split_into_chunks.
  change (len (lit "abcdefghij") <=? _) with false. cbv iota.
  now rewrite loop_stuck.
Qed.

(** C3, amended: the chunker does not check the chunk size and the
    overlap.  Settings in which the three entries are present are accepted
    with their values unchanged, whatever these are; start-up fails only
    when an entry is missing; and the chunker that was built splits text:
    one that is no longer than the chunk size comes back as a single
    chunk. *)
Theorem chunker_accepts_any_sizes (config : DocumentProcessor.Config) :
  (forall formats size overlap,
      DocumentProcessor.cfg_supported_formats config = Some formats ->
      DocumentProcessor.cfg_chunk_size config = Some size ->
      DocumentProcessor.cfg_chunk_overlap config = Some overlap ->
      let self :=
        {| DocumentProcessor.supported_formats := formats;
           DocumentProcessor.chunk_size := size;
           DocumentProcessor.chunk_overlap := overlap |} in
      DocumentProcessor.__init__ config = DocumentProcessor.Started self /\
      forall fuel text,
        len text <= size ->
        DocumentProcessor._split_into_chunks fuel self text = Some [text]) /\
  (forall e,
      DocumentProcessor.__init__ config = DocumentProcessor.Fatal e ->
      DocumentProcessor.cfg_supported_formats config = None
      \/ DocumentProcessor.cfg_chunk_size config = None
      \/ DocumentProcessor.cfg_chunk_overlap config = None).
Proof.
  unfold DocumentProcessor.__init__. split.
  - intros formats size overlap -> -> ->. split; [reflexivity|].
    intros fuel text Hshort. now apply split_short_text.
  - intros e.
    destruct (DocumentProcessor.cfg_supported_formats config); [|auto].
    destruct (DocumentProcessor.cfg_chunk_size config); [|auto].
    destruct (DocumentProcessor.cfg_chunk_overlap config); [|auto].
    discriminate.
Qed.

Lemma chunker_accepts_any_sizes_witness :
  DocumentProcessor.cfg_supported_formats Examples.overlapping_settings
  = Some [lit ".txt"] /\
  DocumentProcessor.cfg_chunk_size Examples.overlapping_settings = Some 5 /\
  DocumentProcessor.cfg_chunk_overlap Examples.overlapping_settings
  = Some 5 /\
  DocumentProcessor.__init__ Examples.overlapping_settings
  = DocumentProcessor.Started
      {| DocumentProcessor.supported_formats := [lit ".txt"];
         DocumentProcessor.chunk_size := 5;
         DocumentProcessor.chunk_overlap := 5 |}.
Proof.
  do 3 (split; [reflexivity|]).
  exact (proj1 (proj1 (chunker_accepts_any_sizes
                         Examples.overlapping_settings)
                  [lit ".txt"] 5 5 eq_refl eq_refl eq_refl)).
Defined.

(** ** From the index to the assembler *)

(** Rows that the store returns by ascending distance are hits by
    descending similarity. *)
Lemma search_results_descending (rows : list ChromaManager.QueryRow) :
  StronglySorted
    (fun a b =>
       (ChromaManager.row_distance a <= ChromaManager.row_distance b)%Q)
    rows ->
  Spec.descending (map ChromaManager.format_result rows).
Proof.
  unfold Spec.descending.
  induction 1 as [|row rows Hsorted IH Hall]; simpl; constructor.
  - exact IH.
  - rewrite Forall_forall in *. intros hit Hin.
    apply in_map_iff in Hin as [row' [<- Hin']].
    apply normalize_antitone. now apply Hall.
Qed.

(** ** Worked examples *)

(** Word boundaries are respected and the windows overlap; after the
    window that reaches the end of the text one more, shorter tail is
    emitted, because [start] is still inside the text. *)
Example split_at_word_boundaries :
  DocumentProcessor._split_into_chunks 5 Examples.narrow_chunker
    (lit "aaa bbb ccc ddd eee fff")
  = Some [lit "aaa bbb"; lit "bb ccc"; lit "cc ddd"; lit "dd eee fff";
          lit "ff"].
Proof. reflexivity. Qed.

(** Raw distances 2 and 14 become the float 0.9 and the float that
    binary64 gives for [1.0 - 0.7], which lies just above 0.3. *)
Example search_example :
  map RAGPipeline.doc_similarity
    (ChromaManager.search (RAGPipeline.chroma Examples.world_up)
       (RAGPipeline.chroma_state Examples.world_up) Examples.question None)
  = [Binary64.decimal (9 # 10);
     Binary64.sub 1 (Binary64.decimal (7 # 10))] /\
  (Binary64.decimal (3 # 10)
   < Binary64.sub 1 (Binary64.decimal (7 # 10)))%Q.
Proof. split; vm_compute; reflexivity. Qed.

(** The raw distance 1.5 gives the float just above 0.925, which is
    shown as 0.93. *)
Example similarity_shown_example :
  (37 # 40 < ChromaManager.normalize (3 # 2))%Q /\
  format_2f (ChromaManager.normalize (3 # 2)) = lit "0.93".
Proof. split; vm_compute; reflexivity. Qed.

(** The full path of a query: one source survives the threshold 0.7, the
    confidence is 1, the answer is the stripped reply of the primary
    model, and the calls are made in the order of the state machine. *)
Example query_with_hits_example :
  match RAGPipeline.query Examples.world_up Examples.config
          Examples.question None [] with
  | (RAGPipeline.Returned result, calls) =>
      RAGPipeline.answer result = lit "Amaci cezalari gostermektir."
      /\ map RAGPipeline.src_filename (RAGPipeline.sources result)
         = [lit "tck.txt"]
      /\ map RAGPipeline.src_similarity (RAGPipeline.sources result)
         = [lit "0.90"]
      /\ RAGPipeline.confidence result == 1
      /\ RAGPipeline.retrieved_docs_count result = Some 2
      /\ match calls with
         | [RAGPipeline.Search _ 5; RAGPipeline.PrepareContext [_; _];
            RAGPipeline.CreatePrompt _ _;
            RAGPipeline.ChatCompletion model _ _ 1000] =>
             model = RAGPipeline.model Examples.config
         | _ => False
         end
  | (RAGPipeline.Raised _, _) => False
  end.
Proof. vm_compute. repeat split; reflexivity. Qed.


(** * Further properties of the code *)

(** ** Stripping *)

Lemma lstrip_suffix (s : str) :
  exists spaces, s = spaces ++ lstrip s /\ Forall (fun c => isspace c = true) spaces.
Proof.
  induction s as [|c s [spaces [Heq Hall]]]; simpl.
  - now exists [].
  - destruct (isspace c) eqn:Hc.
    + exists (c :: spaces). simpl. split; [now f_equal | now constructor].
    + now exists [].
Qed.

Lemma lstrip_starts (s : str) : Shape.starts_with_space (lstrip s) = false.
Proof.
  induction s as [|c s IH]; simpl; [reflexivity|].
  destruct (isspace c) eqn:Hc; [exact IH | exact Hc].
Qed.

Lemma lstrip_fixed (s : str) :
  Shape.starts_with_space s = false -> lstrip s = s.
Proof. destruct s as [|c s]; simpl; [reflexivity | now intros ->]. Qed.

Lemma rstrip_prefix (s : str) :
  exists spaces, s = rstrip s ++ spaces /\ Forall (fun c => isspace c = true) spaces.
Proof.
  unfold rstrip. destruct (lstrip_suffix (rev s)) as [spaces [Heq Hall]].
  exists (rev spaces). split.
  - rewrite <- rev_app_distr, <- Heq. now rewrite rev_involutive.
  - now apply Forall_rev.
Qed.

Lemma rstrip_ends (s : str) : Shape.ends_with_space (rstrip s) = false.
Proof.
  unfold Shape.ends_with_space, rstrip. rewrite rev_involutive.
  apply lstrip_starts.
Qed.

Lemma rstrip_fixed (s : str) :
  Shape.ends_with_space s = false -> rstrip s = s.
Proof.
  unfold Shape.ends_with_space, rstrip. intros H.
  rewrite lstrip_fixed by exact H. apply rev_involutive.
Qed.

Lemma prefix_starts (s rest : str) :
  Shape.starts_with_space (s ++ rest) = false ->
  s <> [] -> Shape.starts_with_space s = false.
Proof. destruct s as [|c s]; simpl; [now intros _ [] | now intros ->]. Qed.

Lemma rstrip_starts (s : str) :
  Shape.starts_with_space s = false ->
  Shape.starts_with_space (rstrip s) = false.
Proof.
  intros Hs. destruct (rstrip_prefix s) as [spaces [Heq _]].
  destruct (rstrip s) as [|c r] eqn:Hr; [reflexivity|].
  rewrite Heq in Hs. exact Hs.
Qed.

Lemma strip_starts (s : str) : Shape.starts_with_space (strip s) = false.
Proof. unfold strip. apply rstrip_starts, lstrip_starts. Qed.

Lemma strip_ends (s : str) : Shape.ends_with_space (strip s) = false.
Proof. unfold strip. apply rstrip_ends. Qed.

Lemma strip_fixed (s : str) :
  Shape.starts_with_space s = false ->
  Shape.ends_with_space s = false ->
  strip s = s.
Proof.
  intros Hstart Hend. unfold strip.
  rewrite (lstrip_fixed s Hstart). now apply rstrip_fixed.
Qed.

Lemma strip_idempotent (s : str) : strip (strip s) = strip s.
Proof. apply strip_fixed; [apply strip_starts | apply strip_ends]. Qed.

Lemma strip_infix (s : str) : Shape.infix (strip s) s.
Proof.
  unfold strip.
  destruct (lstrip_suffix s) as [before [Hs _]].
  destruct (rstrip_prefix (lstrip s)) as [after [Hl _]].
  exists before, after. now rewrite <- Hl.
Qed.

Lemma letters_lstrip (s : str) : Shape.letters (lstrip s) = Shape.letters s.
Proof.
  induction s as [|c s IH]; simpl; [reflexivity|].
  destruct (isspace c) eqn:Hc; simpl; [exact IH | now rewrite Hc].
Qed.

Lemma letters_rev (s : str) : Shape.letters (rev s) = rev (Shape.letters s).
Proof.
  unfold Shape.letters. induction s as [|c s IH]; simpl; [reflexivity|].
  rewrite filter_app, IH. simpl.
  destruct (negb (isspace c)); simpl; [reflexivity | apply app_nil_r].
Qed.

Lemma letters_strip (s : str) : Shape.letters (strip s) = Shape.letters s.
Proof.
  unfold strip, rstrip.
  now rewrite letters_rev, letters_lstrip, letters_rev, rev_involutive,
    letters_lstrip.
Qed.

(** ** Text cleaning *)

Lemma isspace_space : isspace " "%char = true.
Proof. reflexivity. Qed.

Lemma sub_spaces_single_spaced (s : str) :
  forall in_run,
    Shape.single_spaced (sub_spaces in_run s) = true
    /\ (in_run = true ->
        Shape.starts_with_space (sub_spaces in_run s) = false).
Proof.
  induction s as [|c s IH]; intros in_run; simpl.
  - split; [reflexivity | reflexivity].
  - destruct (isspace c) eqn:Hc.
    + destruct (IH true) as [Hsingle Hstart].
      destruct in_run.
      * split; [exact Hsingle | intros _; now apply Hstart].
      * split; [|discriminate]. simpl.
        rewrite Hsingle, (Hstart eq_refl). reflexivity.
    + destruct (IH false) as [Hsingle _].
      split; [|intros _; simpl; exact Hc].
      simpl. now rewrite Hc, Hsingle.
Qed.

Lemma single_spaced_suffix (before s : str) :
  Shape.single_spaced (before ++ s) = true -> Shape.single_spaced s = true.
Proof.
  induction before as [|c before IH]; simpl; [trivial|].
  intros H. apply andb_prop in H as [_ H]. now apply IH.
Qed.

Lemma starts_with_space_app (s rest : str) :
  Shape.starts_with_space (s ++ rest) = false ->
  Shape.starts_with_space s = false.
Proof. destruct s as [|c s]; simpl; [reflexivity | trivial]. Qed.

Lemma single_spaced_prefix (s after : str) :
  Shape.single_spaced (s ++ after) = true -> Shape.single_spaced s = true.
Proof.
  induction s as [|c s IH]; simpl; [reflexivity|].
  intros H. apply andb_prop in H as [Hc H].
  rewrite (IH H), andb_true_r.
  destruct (isspace c); simpl in *; [|reflexivity].
  apply andb_prop in Hc as [Heq Hnext]. rewrite Heq. simpl.
  apply negb_true_iff in Hnext.
  now rewrite (starts_with_space_app s after Hnext).
Qed.

Lemma single_spaced_strip (s : str) :
  Shape.single_spaced s = true -> Shape.single_spaced (strip s) = true.
Proof.
  intros H. destruct (strip_infix s) as [before [after Heq]].
  rewrite Heq in H. apply single_spaced_suffix in H.
  now apply single_spaced_prefix in H.
Qed.

Lemma sub_spaces_fixed (s : str) :
  Shape.single_spaced s = true ->
  sub_spaces false s = s
  /\ (Shape.starts_with_space s = false -> sub_spaces true s = s).
Proof.
  induction s as [|c s IH]; simpl; [now split|].
  intros H. apply andb_prop in H as [Hc Hs].
  destruct (IH Hs) as [Hfalse Htrue].
  destruct (isspace c) eqn:Hsp; simpl in Hc.
  - apply andb_prop in Hc as [Heq Hnext].
    apply Ascii.eqb_eq in Heq. subst c.
    apply negb_true_iff in Hnext.
    split; [now rewrite (Htrue Hnext) | discriminate].
  - split; [now rewrite Hfalse | intros _; now rewrite Hfalse].
Qed.

Lemma letters_sub_spaces (s : str) (in_run : bool) :
  Shape.letters (sub_spaces in_run s) = Shape.letters s.
Proof.
  unfold Shape.letters. revert in_run.
  induction s as [|c s IH]; intros in_run; simpl; [reflexivity|].
  destruct (isspace c) eqn:Hc; simpl.
  - destruct in_run; simpl; apply IH.
  - now rewrite Hc, IH.
Qed.

Lemma clean_text_cases (text : str) :
  (DocumentProcessor._clean_text text = []
   /\ len (strip (re_sub_spaces text)) < 10)
  \/ (DocumentProcessor._clean_text text = strip (re_sub_spaces text)
      /\ 10 <= len (strip (re_sub_spaces text))).
Proof.
  unfold DocumentProcessor._clean_text.
  destruct (Z.ltb_spec (len (strip (re_sub_spaces text))) 10); auto.
Qed.

(** X1: cleaned text is in normal form: its only whitespace is single
    spaces between other characters, never at either end, and it is
    either empty or at least 10 characters long. *)
Theorem clean_text_normal_form (text : str) :
  let cleaned := DocumentProcessor._clean_text text in
  Shape.single_spaced cleaned = true /\
  Shape.starts_with_space cleaned = false /\
  Shape.ends_with_space cleaned = false /\
  (cleaned = [] \/ 10 <= len cleaned).
Proof.
  intros cleaned. subst cleaned.
  destruct (clean_text_cases text) as [[-> _] | [-> Hlen]].
  - repeat split; try reflexivity. now left.
  - split; [|split; [|split]].
    + apply single_spaced_strip, sub_spaces_single_spaced.
    + apply strip_starts.
    + apply strip_ends.
    + now right.
Qed.

(** X2: cleaning is idempotent. *)
Theorem clean_text_idempotent (text : str) :
  DocumentProcessor._clean_text (DocumentProcessor._clean_text text)
  = DocumentProcessor._clean_text text.
Proof.
  destruct (clean_text_cases text) as [[-> _] | [Heq Hlen]];
    [reflexivity|].
  rewrite Heq. unfold DocumentProcessor._clean_text at 1.
  assert (Hsub : re_sub_spaces (strip (re_sub_spaces text))
                 = strip (re_sub_spaces text)).
  { apply sub_spaces_fixed, single_spaced_strip, sub_spaces_single_spaced. }
  rewrite Hsub, strip_idempotent.
  now replace (len (strip (re_sub_spaces text)) <? 10) with false
    by (symmetry; apply Z.ltb_ge; exact Hlen).
Qed.

(** X3: cleaning touches whitespace only: unless the result is empty, the
    characters that are not whitespace are those of the input, in the
    same order. *)
Theorem clean_text_keeps_letters (text : str) :
  DocumentProcessor._clean_text text <> [] ->
  Shape.letters (DocumentProcessor._clean_text text) = Shape.letters text.
Proof.
  intros Hne.
  destruct (clean_text_cases text) as [[Hnil _] | [-> _]];
    [contradiction|].
  unfold re_sub_spaces. now rewrite letters_strip, letters_sub_spaces.
Qed.

(** ** Slices and searches *)

Lemma adjust_range (n i : Z) : 0 <= n -> 0 <= adjust n i <= n.
Proof. intros Hn. unfold adjust. destruct (Z.ltb_spec i 0); lia. Qed.

Lemma adjust_inside (n i : Z) : 0 <= i <= n -> adjust n i = i.
Proof. intros Hi. unfold adjust. destruct (Z.ltb_spec i 0); lia. Qed.

Lemma len_nonneg {A} (l : list A) : 0 <= len l.
Proof. unfold len. lia. Qed.

Lemma len_app {A} (l l' : list A) : len (l ++ l') = len l + len l'.
Proof. unfold len. rewrite length_app. lia. Qed.

Lemma len_slice {A} (s : list A) (start stop : Z) :
  len (slice s start stop)
  = Z.max 0 (adjust (len s) stop - adjust (len s) start).
Proof.
  unfold slice.
  pose proof (adjust_range (len s) start (len_nonneg s)) as Ha.
  pose proof (adjust_range (len s) stop (len_nonneg s)) as Hb.
  unfold len in *. rewrite length_firstn, length_skipn. lia.
Qed.

Lemma len_slice_from {A} (s : list A) (start : Z) :
  len (slice_from s start) = len s - adjust (len s) start.
Proof.
  unfold slice_from.
  pose proof (adjust_range (len s) start (len_nonneg s)) as Ha.
  unfold len in *. rewrite length_skipn. lia.
Qed.

Lemma infix_refl (s : str) : Shape.infix s s.
Proof. exists [], []. now rewrite app_nil_r. Qed.

Lemma infix_trans (a b c : str) :
  Shape.infix a b -> Shape.infix b c -> Shape.infix a c.
Proof.
  intros [p [q ->]] [p' [q' ->]].
  exists (p' ++ p), (q ++ q'). now rewrite <- !app_assoc.
Qed.

Lemma infix_len (a b : str) : Shape.infix a b -> len a <= len b.
Proof.
  intros [p [q ->]]. rewrite !len_app.
  pose proof (len_nonneg p). pose proof (len_nonneg q). lia.
Qed.

Lemma firstn_skipn_infix (s : str) (n m : nat) :
  Shape.infix (firstn n (skipn m s)) s.
Proof.
  exists (firstn m s), (skipn n (skipn m s)).
  now rewrite firstn_skipn, firstn_skipn.
Qed.

Lemma slice_infix (s : str) (start stop : Z) :
  Shape.infix (slice s start stop) s.
Proof. apply firstn_skipn_infix. Qed.

Lemma slice_from_infix (s : str) (start : Z) :
  Shape.infix (slice_from s start) s.
Proof.
  unfold slice_from. exists (firstn (Z.to_nat (adjust (len s) start)) s), [].
  now rewrite app_nil_r, firstn_skipn.
Qed.

Lemma rfind_scan_range (c : ascii) (s : str) :
  forall i a b acc,
    let r := rfind_scan c s i a b acc in
    r = acc \/ (a <= r < b /\ i <= r).
Proof.
  induction s as [|x s IH]; intros i a b acc; simpl; [now left|].
  destruct (IH (i + 1) a b
              (if (a <=? i) && (i <? b) && Ascii.eqb x c then i else acc))
    as [Heq | [Hrange Hle]].
  - rewrite Heq.
    destruct ((a <=? i) && (i <? b) && Ascii.eqb x c) eqn:Hhit;
      [|now left].
    right. apply andb_prop in Hhit as [Hhit _].
    apply andb_prop in Hhit as [Ha Hb].
    apply Z.leb_le in Ha. apply Z.ltb_lt in Hb. lia.
  - right. lia.
Qed.

(** [rfind] answers -1 or an index inside the adjusted range. *)
Lemma rfind_range (c : ascii) (s : str) (start stop : Z) :
  rfind c s start stop = -1
  \/ adjust (len s) start <= rfind c s start stop < adjust (len s) stop.
Proof.
  unfold rfind.
  destruct (rfind_scan_range c s 0 (adjust (len s) start)
              (adjust (len s) stop) (-1)) as [H | [H _]]; auto.
Qed.

(** ** Chunker: what every pass keeps *)

Section ChunkerInvariants.

Import DocumentProcessor.

Variables (self : t) (text : str).

(** A property of the loop variables that every pass keeps holds of the
    state in which the loop ends, and there [start] has left the text. *)
Lemma loop_invariant (I : loop_state -> Prop) :
  (forall st, I st -> start st < len text -> I (loop_body self text st)) ->
  forall fuel st result,
    I st ->
    loop fuel self text st = Some result ->
    exists final,
      I final /\ len text <= start final /\ chunks final = result.
Proof.
  intros Hkeep.
  induction fuel as [|fuel IH]; intros st result Hst; simpl.
  - destruct (Z.ltb_spec (start st) (len text)); [discriminate|].
    intros [= <-]. now exists st.
  - destruct (Z.ltb_spec (start st) (len text)) as [Hlt | Hge].
    + destruct (Z.geb_spec (start (loop_body self text st)) (len text))
        as [Hout | Hin].
      * intros [= <-]. exists (loop_body self text st).
        split; [now apply Hkeep | split; [lia | reflexivity]].
      * apply IH. now apply Hkeep.
    + intros [= <-]. now exists st.
Qed.

(** A pass appends one chunk: the stripped form of a slice of the text. *)
Lemma loop_body_appends (st : loop_state) :
  exists raw,
    chunks (loop_body self text st) = chunks st ++ [strip raw]
    /\ Shape.infix raw text.
Proof.
  unfold loop_body.
  destruct (start st + chunk_size self >=? len text).
  - eexists. split; [reflexivity | apply slice_from_infix].
  - eexists. split; [reflexivity | apply slice_infix].
Qed.

Lemma loop_chunks_stripped_pieces (fuel : nat) (result : list str) :
  loop fuel self text {| start := 0; chunks := [] |} = Some result ->
  Forall (fun chunk => strip chunk = chunk /\ Shape.infix chunk text)
    result.
Proof.
  intros Hloop.
  destruct (loop_invariant
              (fun st =>
                 Forall (fun chunk =>
                           strip chunk = chunk /\ Shape.infix chunk text)
                   (chunks st))
              ) with (fuel := fuel) (st := {| start := 0; chunks := [] |})
                     (result := result)
    as [final [Hall [_ <-]]]; try assumption.
  - intros st Hst _.
    destruct (loop_body_appends st) as [raw [-> Hraw]].
    apply Forall_app. split; [exact Hst|].
    constructor; [|constructor]. split; [apply strip_idempotent|].
    eapply infix_trans; [apply strip_infix | exact Hraw].
  - constructor.
Qed.

End ChunkerInvariants.

Lemma Forall_filter_weaken {A} (P : A -> Prop) (keep : A -> bool)
    (l : list A) :
  Forall P l -> Forall (fun x => P x /\ keep x = true) (filter keep l).
Proof.
  intros H. apply Forall_forall. intros x Hin.
  apply filter_In in Hin as [Hin Hkeep].
  rewrite Forall_forall in H. split; [now apply H | exact Hkeep].
Qed.

(** X4: when the text is longer than the chunk size, every chunk that the
    chunker returns is non-empty and has no whitespace at either end. *)
Theorem chunks_are_trimmed_and_nonempty (fuel : nat)
    (self : DocumentProcessor.t) (text : str) (result : list str) :
  DocumentProcessor.chunk_size self < len text ->
  DocumentProcessor._split_into_chunks fuel self text = Some result ->
  Forall (fun chunk =>
            chunk <> []
            /\ Shape.starts_with_space chunk = false
            /\ Shape.ends_with_space chunk = false) result.
Proof.
  intros Hlong. unfold DocumentProcessor._split_into_chunks.
  replace (len text <=? DocumentProcessor.chunk_size self) with false
    by (symmetry; apply Z.leb_gt; exact Hlong).
  destruct (DocumentProcessor.loop fuel self text _) as [chunks|] eqn:Hloop;
    [|discriminate].
  intros [= <-].
  apply loop_chunks_stripped_pieces in Hloop.
  apply (Forall_filter_weaken _ (fun chunk => truthy (strip chunk)))
    in Hloop.
  eapply Forall_impl; [|exact Hloop].
  intros chunk [[Hstrip _] Hkeep]. rewrite Hstrip in Hkeep.
  split; [intros ->; discriminate|].
  rewrite <- Hstrip. split; [apply strip_starts | apply strip_ends].
Qed.

(** X5: every chunk that the chunker returns occurs in the text as a run
    of consecutive characters. *)
Theorem chunks_are_pieces_of_text (fuel : nat)
    (self : DocumentProcessor.t) (text : str) (result : list str) :
  DocumentProcessor._split_into_chunks fuel self text = Some result ->
  Forall (fun chunk => Shape.infix chunk text) result.
Proof.
  unfold DocumentProcessor._split_into_chunks.
  destruct (len text <=? DocumentProcessor.chunk_size self).
  - intros [= <-]. constructor; [apply infix_refl | constructor].
  - destruct (DocumentProcessor.loop fuel self text _) as [chunks|]
      eqn:Hloop; [|discriminate].
    intros [= <-].
    apply loop_chunks_stripped_pieces in Hloop.
    apply Forall_forall. intros chunk Hin.
    apply filter_In in Hin as [Hin _].
    rewrite Forall_forall in Hloop. now apply Hloop.
Qed.

Lemma loop_body_bounded (self : DocumentProcessor.t) (text : str)
    (st : DocumentProcessor.loop_state) :
  let size := DocumentProcessor.chunk_size self in
  let st' := DocumentProcessor.loop_body self text st in
  size < len text ->
  0 <= DocumentProcessor.chunk_overlap self < size ->
  - size <= DocumentProcessor.start st < len text ->
  - size <= DocumentProcessor.start st'
  /\ exists raw,
      DocumentProcessor.chunks st'
      = DocumentProcessor.chunks st ++ [strip raw]
      /\ len raw <= size.
Proof.
  intros size st' Hlong Hoverlap Hstart. subst size st'.
  unfold DocumentProcessor.loop_body.
  pose proof (len_nonneg text) as Hlen.
  destruct (Z.geb_spec
              (DocumentProcessor.start st + DocumentProcessor.chunk_size self)
              (len text)) as [Hlast | Hmore].
  - simpl. split; [lia|]. eexists. split; [reflexivity|].
    rewrite len_slice_from. unfold adjust.
    destruct (Z.ltb_spec (DocumentProcessor.start st) 0); lia.
  - set (stop := DocumentProcessor.start st
                 + DocumentProcessor.chunk_size self) in *.
    pose proof (rfind_range space text (DocumentProcessor.start st) stop)
      as Hfound.
    set (last_space := rfind space text (DocumentProcessor.start st) stop)
      in *.
    destruct (Z.gtb_spec last_space (DocumentProcessor.start st))
      as [Hback | Hkeep]; simpl.
    + split.
      * unfold adjust in Hfound.
        destruct (Z.ltb_spec (DocumentProcessor.start st) 0),
          (Z.ltb_spec stop 0); lia.
      * eexists. split; [reflexivity|].
        rewrite len_slice. unfold adjust in *.
        destruct (Z.ltb_spec (DocumentProcessor.start st) 0),
          (Z.ltb_spec stop 0), (Z.ltb_spec last_space 0); lia.
    + split; [lia|]. eexists. split; [reflexivity|].
      rewrite len_slice. unfold adjust.
      destruct (Z.ltb_spec (DocumentProcessor.start st) 0),
        (Z.ltb_spec stop 0); lia.
Qed.

(** X6: with an overlap that is not negative and smaller than the chunk
    size, no chunk that the chunker returns is longer than the chunk
    size. *)
Theorem chunks_fit_chunk_size (fuel : nat) (self : DocumentProcessor.t)
    (text : str) (result : list str) :
  0 <= DocumentProcessor.chunk_overlap self
    < DocumentProcessor.chunk_size self ->
  DocumentProcessor._split_into_chunks fuel self text = Some result ->
  Forall (fun chunk => len chunk <= DocumentProcessor.chunk_size self)
    result.
Proof.
  intros Hoverlap. unfold DocumentProcessor._split_into_chunks.
  destruct (Z.leb_spec (len text) (DocumentProcessor.chunk_size self))
    as [Hshort | Hlong].
  - intros [= <-]. constructor; [exact Hshort | constructor].
  - destruct (DocumentProcessor.loop fuel self text _) as [chunks|]
      eqn:Hloop; [|discriminate].
    intros [= <-].
    destruct (loop_invariant self text
                (fun st =>
                   - DocumentProcessor.chunk_size self
                   <= DocumentProcessor.start st
                   /\ Forall (fun chunk =>
                                len chunk
                                <= DocumentProcessor.chunk_size self)
                        (DocumentProcessor.chunks st)))
      with (fuel := fuel)
           (st := {| DocumentProcessor.start := 0;
                     DocumentProcessor.chunks := [] |})
           (result := chunks)
      as [final [[_ Hall] [_ <-]]]; try assumption.
    + intros st [Hstart Hall] Hin.
      destruct (loop_body_bounded self text st Hlong Hoverlap
                  (conj Hstart Hin)) as [Hstart' [raw [-> Hraw]]].
      split; [exact Hstart'|].
      apply Forall_app. split; [exact Hall|].
      constructor; [|constructor].
      pose proof (infix_len _ _ (strip_infix raw)). lia.
    + simpl. split; [lia | constructor].
    + apply Forall_forall. intros chunk Hin.
      apply filter_In in Hin as [Hin _].
      rewrite Forall_forall in Hall. now apply Hall.
Qed.

(** ** Chunker without overlap *)

Lemma firstn_plus {A} (l : list A) (a b : nat) :
  firstn (a + b) l = firstn a l ++ firstn b (skipn a l).
Proof.
  revert l. induction a as [|a IH]; intros [|x l]; simpl;
    try reflexivity.
  - now rewrite firstn_nil.
  - now rewrite IH.
Qed.

(** A loop whose passes keep a property and move [start] forward ends
    within as many passes as there are characters after [start]. *)
Lemma loop_terminates (self : DocumentProcessor.t) (text : str)
    (I : DocumentProcessor.loop_state -> Prop) :
  (forall st,
      I st ->
      DocumentProcessor.start st < len text ->
      I (DocumentProcessor.loop_body self text st)
      /\ DocumentProcessor.start st
         < DocumentProcessor.start
             (DocumentProcessor.loop_body self text st)) ->
  forall fuel st,
    I st ->
    len text - DocumentProcessor.start st <= Z.of_nat fuel ->
    exists result, DocumentProcessor.loop fuel self text st = Some result.
Proof.
  intros Hstep.
  induction fuel as [|fuel IH]; intros st Hst Hfuel; simpl.
  - destruct (Z.ltb_spec (DocumentProcessor.start st) (len text));
      [lia | eauto].
  - destruct (Z.ltb_spec (DocumentProcessor.start st) (len text))
      as [Hlt | Hge]; [|eauto].
    destruct (Hstep st Hst Hlt) as [Hnext Hforward].
    destruct (_ >=? len text); [eauto|].
    apply IH; [exact Hnext | lia].
Qed.

Lemma loop_body_zero_overlap (self : DocumentProcessor.t) (text : str)
    (st : DocumentProcessor.loop_state) :
  let st' := DocumentProcessor.loop_body self text st in
  DocumentProcessor.chunk_overlap self = 0 ->
  0 < DocumentProcessor.chunk_size self ->
  0 <= DocumentProcessor.start st < len text ->
  DocumentProcessor.start st < DocumentProcessor.start st'
  /\ exists raw,
      DocumentProcessor.chunks st'
      = DocumentProcessor.chunks st ++ [strip raw]
      /\ firstn (Z.to_nat (DocumentProcessor.start st')) text
         = firstn (Z.to_nat (DocumentProcessor.start st)) text ++ raw.
Proof.
  intros st' Hzero Hsize Hstart. subst st'.
  unfold DocumentProcessor.loop_body. rewrite Hzero.
  destruct (Z.geb_spec
              (DocumentProcessor.start st + DocumentProcessor.chunk_size self)
              (len text)) as [Hlast | Hmore].
  - simpl. split; [lia|]. eexists. split; [reflexivity|].
    unfold slice_from. rewrite adjust_inside by lia.
    rewrite firstn_all2 by (unfold len in *; lia).
    now rewrite firstn_skipn.
  - set (stop := DocumentProcessor.start st
                 + DocumentProcessor.chunk_size self) in *.
    pose proof (rfind_range space text (DocumentProcessor.start st) stop)
      as Hfound.
    rewrite !adjust_inside in Hfound by lia.
    set (last_space := rfind space text (DocumentProcessor.start st) stop)
      in *.
    assert (Hslice : forall e,
               DocumentProcessor.start st < e <= stop ->
               firstn (Z.to_nat e) text
               = firstn (Z.to_nat (DocumentProcessor.start st)) text
                   ++ slice text (DocumentProcessor.start st) e).
    { intros e He. unfold slice. rewrite !adjust_inside by lia.
      rewrite <- firstn_plus. f_equal. lia. }
    destruct (Z.gtb_spec last_space (DocumentProcessor.start st))
      as [Hback | Hkeep]; simpl; rewrite Z.sub_0_r.
    + split; [lia|]. eexists. split; [reflexivity|]. apply Hslice. lia.
    + split; [lia|]. eexists. split; [reflexivity|]. apply Hslice. lia.
Qed.

(** X7: with no overlap and a positive chunk size the chunker terminates
    on every text, within as many passes as the text has characters. *)
Theorem split_terminates_without_overlap (self : DocumentProcessor.t)
    (text : str) :
  DocumentProcessor.chunk_overlap self = 0 ->
  0 < DocumentProcessor.chunk_size self ->
  exists result,
    DocumentProcessor._split_into_chunks (List.length text) self text
    = Some result.
Proof.
  intros Hzero Hsize. unfold DocumentProcessor._split_into_chunks.
  destruct (len text <=? _); [eauto|].
  destruct (loop_terminates self text
              (fun st => 0 <= DocumentProcessor.start st))
    with (fuel := List.length text)
         (st := {| DocumentProcessor.start := 0;
                   DocumentProcessor.chunks := [] |})
    as [result Hloop].
  - intros st Hst Hlt.
    destruct (loop_body_zero_overlap self text st Hzero Hsize
                (conj Hst Hlt)) as [Hforward _].
    split; lia.
  - simpl. lia.
  - simpl. unfold len. lia.
  - rewrite Hloop. eauto.
Qed.

Lemma letters_of_kept_chunks (chunks : list str) :
  List.concat (map Shape.letters
            (filter (fun chunk => truthy (strip chunk)) chunks))
  = List.concat (map Shape.letters chunks).
Proof.
  induction chunks as [|chunk chunks IH]; simpl; [reflexivity|].
  destruct (strip chunk) eqn:Hstrip; simpl.
  - rewrite IH, <- (letters_strip chunk), Hstrip. reflexivity.
  - now rewrite IH.
Qed.

(** X8: with no overlap and a positive chunk size nothing but whitespace
    is lost or repeated: the characters of the chunks that are not
    whitespace, read chunk after chunk, are those of the text. *)
Theorem chunks_without_overlap_keep_letters (fuel : nat)
    (self : DocumentProcessor.t) (text : str) (result : list str) :
  DocumentProcessor.chunk_overlap self = 0 ->
  0 < DocumentProcessor.chunk_size self ->
  DocumentProcessor._split_into_chunks fuel self text = Some result ->
  List.concat (map Shape.letters result) = Shape.letters text.
Proof.
  intros Hzero Hsize. unfold DocumentProcessor._split_into_chunks.
  destruct (len text <=? _).
  - intros [= <-]. simpl. apply app_nil_r.
  - destruct (DocumentProcessor.loop fuel self text _) as [chunks|]
      eqn:Hloop; [|discriminate].
    intros [= <-]. rewrite letters_of_kept_chunks.
    destruct (loop_invariant self text
                (fun st =>
                   0 <= DocumentProcessor.start st
                   /\ List.concat (map Shape.letters
                                (DocumentProcessor.chunks st))
                      = Shape.letters
                          (firstn (Z.to_nat (DocumentProcessor.start st))
                             text)))
      with (fuel := fuel)
           (st := {| DocumentProcessor.start := 0;
                     DocumentProcessor.chunks := [] |})
           (result := chunks)
      as [final [[Hstart Hletters] [Hout <-]]]; try assumption.
    + intros st [Hstart Hletters] Hin.
      destruct (loop_body_zero_overlap self text st Hzero Hsize
                  (conj Hstart Hin)) as [Hforward [raw [-> Hfirst]]].
      split; [lia|].
      rewrite map_app, List.concat_app, Hletters, Hfirst. simpl.
      rewrite app_nil_r, letters_strip. unfold Shape.letters.
      now rewrite filter_app.
    + simpl. split; [lia | reflexivity].
    + rewrite Hletters, firstn_all2 by (unfold len in *; lia).
      reflexivity.
Qed.

(** ** File processing *)

Lemma enumerate_from_length {A} (l : list A) (s : nat) :
  List.length (enumerate_from s l) = List.length l.
Proof.
  revert s. induction l as [|x l IH]; intros s; simpl;
    [reflexivity | now rewrite IH].
Qed.

Lemma nth_error_enumerate_from {A} (l : list A) (s n : nat) :
  nth_error (enumerate_from s l) n
  = option_map (fun x => ((s + n)%nat, x)) (nth_error l n).
Proof.
  revert s n. induction l as [|x l IH]; intros s [|n]; simpl;
    try reflexivity.
  - now rewrite Nat.add_0_r.
  - rewrite IH. now replace (S s + n)%nat with (s + S n)%nat by lia.
Qed.

Lemma process_file_cases (fuel : nat) (self : DocumentProcessor.t)
    (max_file_size_mb : option Z) (clock : DocumentProcessor.Clock)
    (f : DocumentProcessor.File) (documents : list DocumentProcessor.ProcessedDocument) :
  DocumentProcessor.process_file fuel self max_file_size_mb clock f
  = Some documents ->
  documents = []
  \/ (DocumentProcessor.file_exists f = true
      /\ str_in (lower (DocumentProcessor.file_suffix f))
           (DocumentProcessor.supported_formats self) = true
      /\ DocumentProcessor.file_st_size f
         <= match max_file_size_mb with Some m => m | None => 50 end
            * 1024 * 1024
      /\ strip (DocumentProcessor._extract_text f) <> []
      /\ exists chunks,
          DocumentProcessor._split_into_chunks fuel self
            (DocumentProcessor._clean_text
               (DocumentProcessor._extract_text f))
          = Some chunks
          /\ documents
             = map (DocumentProcessor.make_document f clock (len chunks))
                 (enumerate chunks)).
Proof.
  unfold DocumentProcessor.process_file.
  destruct (DocumentProcessor.file_exists f); simpl;
    [|intros [= <-]; now left].
  destruct (str_in _ _); simpl; [|intros [= <-]; now left].
  destruct (Z.gtb_spec (DocumentProcessor.file_st_size f)
              (match max_file_size_mb with Some m => m | None => 50 end
               * 1024 * 1024)) as [Hbig | Hfits];
    [intros [= <-]; now left|].
  destruct (strip (DocumentProcessor._extract_text f)) eqn:Htext; simpl;
    [intros [= <-]; now left|].
  destruct (DocumentProcessor._split_into_chunks fuel self _)
    as [chunks|]; [|discriminate].
  intros [= <-]. right. repeat split; try assumption; try discriminate.
  now exists chunks.
Qed.

(** X9: the documents that [process_file] returns are numbered by their
    place: the document at position [i] has chunk index [i], every
    document carries the number of documents returned as its total, and
    so each index lies between 0 and the total. *)
Theorem process_file_chunk_bounds (fuel : nat)
    (self : DocumentProcessor.t) (max_file_size_mb : option Z)
    (clock : DocumentProcessor.Clock) (f : DocumentProcessor.File)
    (documents : list DocumentProcessor.ProcessedDocument) :
  DocumentProcessor.process_file fuel self max_file_size_mb clock f
  = Some documents ->
  forall i d,
    nth_error documents i = Some d ->
    DocumentProcessor.pd_chunk_index d = Z.of_nat i
    /\ DocumentProcessor.pd_total_chunks d = len documents
    /\ 0 <= DocumentProcessor.pd_chunk_index d
       < DocumentProcessor.pd_total_chunks d.
Proof.
  intros Hrun i d Hnth.
  apply process_file_cases in Hrun
    as [-> | [_ [_ [_ [_ [chunks [_ ->]]]]]]].
  - destruct i; discriminate.
  - assert (Hlen : len (map (DocumentProcessor.make_document f clock
                               (len chunks)) (enumerate chunks))
                   = len chunks).
    { unfold len, enumerate.
      now rewrite length_map, enumerate_from_length. }
    rewrite nth_error_map in Hnth. unfold enumerate in Hnth.
    rewrite nth_error_enumerate_from in Hnth.
    destruct (nth_error chunks i) as [chunk|] eqn:Hchunk; [|discriminate].
    assert (Hi : (i < List.length chunks)%nat)
      by (apply nth_error_Some; now rewrite Hchunk).
    simpl in Hnth. injection Hnth as <-. simpl.
    rewrite Hlen. unfold len. lia.
Qed.

Lemma make_document_contents (f : DocumentProcessor.File)
    (clock : DocumentProcessor.Clock) (total : Z) (chunks : list str) :
  forall s,
    map DocumentProcessor.pd_content
      (map (DocumentProcessor.make_document f clock total)
         (enumerate_from s chunks))
    = chunks.
Proof.
  induction chunks as [|chunk chunks IH]; intros s; simpl;
    [reflexivity | now rewrite IH].
Qed.

Lemma extract_text_formats (f : DocumentProcessor.File) :
  DocumentProcessor._extract_text f <> [] ->
  In (lower (DocumentProcessor.file_suffix f))
    [lit ".pdf"; lit ".docx"; lit ".txt"].
Proof.
  unfold DocumentProcessor._extract_text, str_eqb.
  destruct (list_eq_dec ascii_dec _ (lit ".pdf")) as [-> | _];
    [intros _; now left|].
  destruct (list_eq_dec ascii_dec _ (lit ".docx")) as [-> | _];
    [intros _; right; now left|].
  destruct (list_eq_dec ascii_dec _ (lit ".txt")) as [-> | _];
    [intros _; right; right; now left|].
  intros H. now destruct H.
Qed.

(** X10: [process_file] returns documents only for a file that exists,
    whose lower-cased suffix is among the supported formats and is one of
    the three that have a reader, whose size is within the limit (50 MB
    when none is configured) and whose text is not blank; their contents
    are then the chunks of the cleaned text, in order, and each carries
    the name, the lower-cased suffix and the size of the file. *)
Theorem process_file_documents (fuel : nat) (self : DocumentProcessor.t)
    (max_file_size_mb : option Z) (clock : DocumentProcessor.Clock)
    (f : DocumentProcessor.File)
    (documents : list DocumentProcessor.ProcessedDocument) :
  DocumentProcessor.process_file fuel self max_file_size_mb clock f
  = Some documents ->
  documents <> [] ->
  DocumentProcessor.file_exists f = true
  /\ str_in (lower (DocumentProcessor.file_suffix f))
       (DocumentProcessor.supported_formats self) = true
  /\ In (lower (DocumentProcessor.file_suffix f))
       [lit ".pdf"; lit ".docx"; lit ".txt"]
  /\ DocumentProcessor.file_st_size f
     <= match max_file_size_mb with Some m => m | None => 50 end
        * 1024 * 1024
  /\ strip (DocumentProcessor._extract_text f) <> []
  /\ DocumentProcessor._split_into_chunks fuel self
       (DocumentProcessor._clean_text (DocumentProcessor._extract_text f))
     = Some (map DocumentProcessor.pd_content documents)
  /\ Forall (fun d =>
               DocumentProcessor.pd_filename d
               = DocumentProcessor.file_name f
               /\ DocumentProcessor.pd_file_type d
                  = lower (DocumentProcessor.file_suffix f)
               /\ DocumentProcessor.pd_file_size d
                  = DocumentProcessor.file_st_size f) documents.
Proof.
  intros Hrun Hne.
  apply process_file_cases in Hrun
    as [-> | [Hex [Hfmt [Hsize [Htext [chunks [Hsplit ->]]]]]]];
    [now destruct Hne|].
  repeat split; try assumption.
  - apply extract_text_formats. intros Hnil. apply Htext.
    now rewrite Hnil.
  - unfold enumerate. now rewrite make_document_contents.
  - apply Forall_forall. intros d Hin.
    apply in_map_iff in Hin as [[i chunk] [<- _]]. now repeat split.
Qed.

(** X11: a file that passes the checks but whose text has fewer than 10
    characters once cleaned is not dropped by [process_file]: with a chunk
    size that is not negative it comes back as one document with empty
    content, which [add_documents] then refuses, storing nothing. *)
Theorem short_file_gives_empty_document (fuel : nat)
    (self : DocumentProcessor.t) (max_file_size_mb : option Z)
    (clock : DocumentProcessor.Clock) (f : DocumentProcessor.File) :
  DocumentProcessor.file_exists f = true ->
  str_in (lower (DocumentProcessor.file_suffix f))
    (DocumentProcessor.supported_formats self) = true ->
  DocumentProcessor.file_st_size f
  <= match max_file_size_mb with Some m => m | None => 50 end
     * 1024 * 1024 ->
  strip (DocumentProcessor._extract_text f) <> [] ->
  len (strip (re_sub_spaces (DocumentProcessor._extract_text f))) < 10 ->
  0 <= DocumentProcessor.chunk_size self ->
  exists d,
    DocumentProcessor.process_file fuel self max_file_size_mb clock f
    = Some [d]
    /\ DocumentProcessor.pd_content d = []
    /\ DocumentProcessor.pd_chunk_index d = 0
    /\ DocumentProcessor.pd_total_chunks d = 1
    /\ forall B st,
        ChromaManager.add_documents B st
          [DocumentProcessor.as_document d]
        = (false,
           {| ChromaManager.collection := ChromaManager.collection st;
              ChromaManager.uuids_drawn :=
                S (ChromaManager.uuids_drawn st) |}).
Proof.
  intros Hex Hfmt Hsize Htext Hshort Hchunk.
  unfold DocumentProcessor.process_file.
  rewrite Hex, Hfmt. simpl.
  replace (DocumentProcessor.file_st_size f >? _) with false
    by (symmetry; rewrite Z.gtb_ltb; apply Z.ltb_ge; exact Hsize).
  destruct (strip (DocumentProcessor._extract_text f)) eqn:Hstrip;
    [now destruct Htext|]. simpl.
  destruct (clean_text_cases (DocumentProcessor._extract_text f))
    as [[-> _] | [_ Hlong]]; [|lia].
  unfold DocumentProcessor._split_into_chunks.
  replace (len [] <=? DocumentProcessor.chunk_size self) with true
    by (symmetry; apply Z.leb_le; exact Hchunk).
  eexists. split; [reflexivity|]. simpl. repeat split.
Qed.

(** ** Search results *)

Lemma search_cases (B : ChromaManager.Backend) (st : ChromaManager.State)
    (query : str) (n_results : option Z) :
  ChromaManager.search B st query n_results = []
  \/ exists embedding rows rest,
      ChromaManager.encode B [query] = Some embedding
      /\ ChromaManager.collection_query B (ChromaManager.collection st)
           embedding
           (match n_results with
            | Some n => n
            | None => ChromaManager.top_k B
            end)
         = Some (rows :: rest)
      /\ ChromaManager.search B st query n_results
         = map ChromaManager.format_result rows.
Proof.
  unfold ChromaManager.search.
  destruct (ChromaManager.encode B [query]) as [embedding|];
    [|now left].
  destruct (ChromaManager.collection_query B _ embedding _)
    as [[|rows rest]|] eqn:Hquery; try now left.
  right. now exists embedding, rows, rest.
Qed.

Lemma search_similarity_nonneg (B : ChromaManager.Backend)
    (st : ChromaManager.State) (query : str) (n_results : option Z) :
  Forall (fun hit => (0 <= RAGPipeline.doc_similarity hit)%Q)
    (ChromaManager.search B st query n_results).
Proof.
  destruct (search_cases B st query n_results)
    as [-> | [_ [rows [_ [_ [_ ->]]]]]]; [constructor|].
  apply Forall_forall. intros hit Hin.
  apply in_map_iff in Hin as [row [<- _]].
  apply normalize_nonneg.
Qed.

(** X12: every hit that [search] returns carries the similarity
    [max(0, 1 - distance/20)] of its own raw distance, which is not
    negative; there is one hit per row of the first answer of the store,
    in the same order; and when the store lists the rows by ascending
    distance, the hits are in descending order of similarity. *)
Theorem search_results_shape (B : ChromaManager.Backend)
    (st : ChromaManager.State) (query : str) (n_results : option Z) :
  let hits := ChromaManager.search B st query n_results in
  let n :=
    match n_results with Some n => n | None => ChromaManager.top_k B end in
  Forall (fun hit =>
            ChromaManager.similarity hit
            = Some (ChromaManager.normalize (ChromaManager.distance hit))
            /\ (0 <= RAGPipeline.doc_similarity hit)%Q) hits /\
  (forall embedding rows rest,
      ChromaManager.encode B [query] = Some embedding ->
      ChromaManager.collection_query B (ChromaManager.collection st)
        embedding n = Some (rows :: rest) ->
      map ChromaManager.distance hits
      = map ChromaManager.row_distance rows
      /\ map ChromaManager.content hits
         = map ChromaManager.row_document rows
      /\ (Shape.ascending rows -> Spec.descending hits)).
Proof.
  intros hits n. subst hits n. split.
  - destruct (search_cases B st query n_results)
      as [-> | [_ [rows [_ [_ [_ ->]]]]]]; [constructor|].
    apply Forall_forall. intros hit Hin.
    apply in_map_iff in Hin as [row [<- _]].
    split; [reflexivity | apply normalize_nonneg].
  - intros embedding rows rest Hencode Hquery.
    unfold ChromaManager.search. rewrite Hencode, Hquery.
    rewrite !map_map. simpl.
    repeat split. apply search_results_descending.
Qed.

(** ** Bounds of the confidence *)

Lemma confidence_in_unit (config : RAGPipeline.Config)
    (hits : list ChromaManager.Hit) :
  (RAGPipeline._calculate_confidence config hits <= 1)%Q /\
  (Forall (fun hit => (0 <= RAGPipeline.doc_similarity hit)%Q) hits ->
   (0 <= RAGPipeline._calculate_confidence config hits)%Q).
Proof.
  destruct hits as [|doc docs].
  - split; [discriminate | intros _; apply Qle_refl].
  - unfold RAGPipeline._calculate_confidence.
    set (best := max_iter _ _).
    set (good := RAGPipeline.good_docs _ _).
    assert (Hgood : 0 <= good).
    { subst good. unfold RAGPipeline.good_docs.
      rewrite sum_ones_count. apply len_nonneg. }
    rewrite Zle_Qle in Hgood. change (inject_Z 0) with 0%Q in Hgood.
    set (bonus := min2 _ (Binary64.decimal (3 # 10))).
    assert (Hbonus : (0 <= bonus)%Q).
    { subst bonus.
      destruct (min2_cases
                  (Binary64.mul (Binary64.of_int good)
                     (Binary64.decimal (1 # 10)))
                  (Binary64.decimal (3 # 10))) as [[_ ->] | [_ ->]].
      - vm_compute. discriminate.
      - apply rnd_nonneg. apply Qmult_le_0_compat.
        + apply rnd_nonneg. exact Hgood.
        + vm_compute. discriminate. }
    split.
    + apply round2_unit.
      destruct (min2_cases (Binary64.add (min2 best 1) bonus) 1)
        as [[_ ->] | [H ->]]; lra.
    + intros Hall. apply Forall_inv in Hall.
      assert (Hbest : (0 <= best)%Q).
      { eapply Qle_trans; [exact Hall|]. apply max_iter_upper. }
      apply round2_unit.
      destruct (min2_cases (Binary64.add (min2 best 1) bonus) 1)
        as [[_ ->] | [_ ->]]; [lra|].
      apply rnd_nonneg.
      destruct (min2_cases best 1) as [[_ ->] | [_ ->]]; lra.
Qed.

(** X13: the confidence never exceeds 1, and it is not negative when no
    hit has a negative similarity, as is the case for the hits that
    [search] returns. *)
Theorem calculate_confidence_bounds (config : RAGPipeline.Config)
    (hits : list ChromaManager.Hit) :
  (RAGPipeline._calculate_confidence config hits <= 1)%Q /\
  (Forall (fun hit => (0 <= RAGPipeline.doc_similarity hit)%Q) hits ->
   (0 <= RAGPipeline._calculate_confidence config hits)%Q) /\
  (forall B st query n_results,
      (0 <= RAGPipeline._calculate_confidence config
              (ChromaManager.search B st query n_results) <= 1)%Q).
Proof.
  split; [apply confidence_in_unit|].
  split; [apply confidence_in_unit|].
  intros B st query n_results. split.
  - apply confidence_in_unit, search_similarity_nonneg.
  - apply confidence_in_unit.
Qed.

(** ** The generation step and the whole query *)

Section QueryPath.

Import ChromaManager RAGPipeline.

Variables (W : World) (config : Config).

Lemma get_llm_response_calls (prompt : str) (tr : trace) :
  exists response calls,
    _get_llm_response W config prompt tr
    = (Returned response, tr ++ Shape.llm_call config (model config) prompt :: calls)
    /\ (Shape.llm_calls calls <= 1)%nat.
Proof.
  unfold _get_llm_response, try_except, bind, ret. rewrite create_run.
  destruct (chat_completions_create W tr (model config) prompt _ _)
    as [content | e].
  { exists (strip content), []. split; [reflexivity | unfold Shape.llm_calls; simpl; lia]. }
  destruct (alternative_model config) as [alt_model|].
  2:{ exists degraded_answer, []. split; [reflexivity | unfold Shape.llm_calls; simpl; lia]. }
  destruct (truthy alt_model).
  2:{ exists degraded_answer, []. split; [reflexivity | unfold Shape.llm_calls; simpl; lia]. }
  rewrite create_run.
  destruct (chat_completions_create W _ alt_model prompt _ _)
    as [content | e'].
  - exists (strip content), [Shape.llm_call config alt_model prompt].
    rewrite <- app_assoc. split; [reflexivity | unfold Shape.llm_calls; simpl; lia].
  - exists degraded_answer, [Shape.llm_call config alt_model prompt].
    rewrite <- app_assoc. split; [reflexivity | unfold Shape.llm_calls; simpl; lia].
Qed.

Lemma query_with_hits (question : str)
    (chat_history : option (list Message)) (tr : trace)
    (hit : Hit) (hits : list Hit) :
  ChromaManager.search (chroma W) (chroma_state W) question
    (Some (retrieval_top_k config)) = hit :: hits ->
  let relevant_docs := hit :: hits in
  let context := _prepare_context config relevant_docs in
  let prompt := _create_prompt question context chat_history in
  exists response calls,
    query W config question chat_history tr
    = (Returned
         {| answer := response;
            sources := _format_sources config relevant_docs;
            confidence := _calculate_confidence config relevant_docs;
            query_text := question;
            result_timestamp :=
              now_isoformat W
                (tr ++ Search question (retrieval_top_k config)
                    :: PrepareContext relevant_docs
                    :: CreatePrompt question context
                    :: Shape.llm_call config (model config) prompt :: calls);
            retrieved_docs_count := Some (len relevant_docs) |},
       tr ++ Search question (retrieval_top_k config)
          :: PrepareContext relevant_docs
          :: CreatePrompt question context
          :: Shape.llm_call config (model config) prompt :: calls)
    /\ (Shape.llm_calls calls <= 1)%nat.
Proof.
  intros Hsearch relevant_docs context prompt.
  subst relevant_docs context prompt.
  unfold query, try_except, bind, emit, now, ret. rewrite Hsearch.
  cbn [truthy negb].
  destruct (get_llm_response_calls
              (_create_prompt question
                 (_prepare_context config (hit :: hits)) chat_history)
              (((tr ++ [Search question (retrieval_top_k config)])
                  ++ [PrepareContext (hit :: hits)])
                 ++ [CreatePrompt question
                       (_prepare_context config (hit :: hits))]))
    as [response [calls [Hrun Hcalls]]].
  rewrite Hrun. exists response, calls.
  rewrite <- !app_assoc. simpl. now split.
Qed.

End QueryPath.

(** X14: a query always returns a result, whatever the index and the
    generation backend do: the result repeats the question, its
    confidence lies between 0 and 1, it has no more sources than hits
    were retrieved, and after the search the generation backend has been
    called at most twice. *)
Theorem query_always_answers (W : RAGPipeline.World)
    (config : RAGPipeline.Config) (question : str)
    (chat_history : option (list RAGPipeline.Message))
    (tr : RAGPipeline.trace) :
  exists result calls,
    RAGPipeline.query W config question chat_history tr
    = (RAGPipeline.Returned result,
       tr ++ RAGPipeline.Search question
               (RAGPipeline.retrieval_top_k config) :: calls)
    /\ RAGPipeline.query_text result = question
    /\ (0 <= RAGPipeline.confidence result <= 1)%Q
    /\ len (RAGPipeline.sources result)
       <= len (ChromaManager.search (RAGPipeline.chroma W)
                 (RAGPipeline.chroma_state W) question
                 (Some (RAGPipeline.retrieval_top_k config)))
    /\ (Shape.llm_calls calls <= 2)%nat.
Proof.
  pose proof (search_similarity_nonneg (RAGPipeline.chroma W)
                (RAGPipeline.chroma_state W) question
                (Some (RAGPipeline.retrieval_top_k config))) as Hnonneg.
  destruct (ChromaManager.search (RAGPipeline.chroma W)
              (RAGPipeline.chroma_state W) question
              (Some (RAGPipeline.retrieval_top_k config)))
    as [|hit hits] eqn:Hsearch.
  - eexists. exists [].
    unfold RAGPipeline.query, RAGPipeline.try_except, RAGPipeline.bind,
      RAGPipeline.emit, RAGPipeline.now, RAGPipeline.ret.
    rewrite Hsearch. simpl.
    split; [reflexivity|]. simpl. split; [reflexivity|].
    split; [split; lra|].
    split; [reflexivity | unfold Shape.llm_calls; simpl; lia].
  - destruct (query_with_hits W config question chat_history tr hit hits
                Hsearch) as [response [calls [Hrun Hcalls]]].
    rewrite Hrun. eexists. eexists.
    split; [reflexivity|].
    cbn [RAGPipeline.query_text RAGPipeline.confidence RAGPipeline.sources].
    split; [reflexivity|].
    split.
    { split.
      - apply (proj2 (confidence_in_unit config (hit :: hits))).
        exact Hnonneg.
      - apply (proj1 (confidence_in_unit config (hit :: hits))). }
    split.
    + rewrite format_sources_filter. unfold Spec.surviving, len.
      rewrite length_map.
      pose proof (filter_length_le
                    (fun h => Qle_bool
                                (RAGPipeline.similarity_threshold config)
                                (RAGPipeline.doc_similarity h))
                    (hit :: hits)). lia.
    + unfold Shape.llm_calls in *. simpl. lia.
Qed.

(** X15: the generation step calls the primary model first, always; it
    calls the alternative model only after the primary call has raised and
    only when one is configured and not empty, and after it no other; its
    answer is the stripped reply of the call that returned, or the fixed
    degraded message when none did. *)
Theorem generation_outcomes (W : RAGPipeline.World)
    (config : RAGPipeline.Config) (prompt : str) (tr : RAGPipeline.trace) :
  let run := RAGPipeline._get_llm_response W config prompt tr in
  let primary :=
    Shape.llm_call config (RAGPipeline.model config) prompt in
  let reply model_id tr' :=
    RAGPipeline.chat_completions_create W tr' model_id prompt
      (RAGPipeline.temperature config) (RAGPipeline.max_tokens config) in
  match reply (RAGPipeline.model config) tr with
  | RAGPipeline.Returned content =>
      run = (RAGPipeline.Returned (strip content), tr ++ [primary])
  | RAGPipeline.Raised _ =>
      match RAGPipeline.alternative_model config with
      | Some ((_ :: _) as alt_model) =>
          let fallback := Shape.llm_call config alt_model prompt in
          match reply alt_model (tr ++ [primary]) with
          | RAGPipeline.Returned content =>
              run = (RAGPipeline.Returned (strip content),
                     tr ++ [primary; fallback])
          | RAGPipeline.Raised _ =>
              run = (RAGPipeline.Returned RAGPipeline.degraded_answer,
                     tr ++ [primary; fallback])
          end
      | _ =>
          run = (RAGPipeline.Returned RAGPipeline.degraded_answer,
                 tr ++ [primary])
      end
  end.
Proof.
  intros run primary reply. subst run primary reply.
  unfold RAGPipeline._get_llm_response, RAGPipeline.try_except,
    RAGPipeline.bind, RAGPipeline.ret, Shape.llm_call.
  rewrite create_run.
  destruct (RAGPipeline.chat_completions_create W tr _ prompt _ _)
    as [content | e]; [reflexivity|].
  destruct (RAGPipeline.alternative_model config) as [[|c alt]|];
    try reflexivity.
  cbn [truthy]. rewrite create_run.
  destruct (RAGPipeline.chat_completions_create W _ (c :: alt) prompt _ _);
    now rewrite <- app_assoc.
Qed.

(** ** The prompt *)

Lemma slice_from_last {A} (older recent : list A) :
  recent <> [] ->
  slice_from (older ++ recent) (- len recent) = recent.
Proof.
  intros Hne. unfold slice_from, adjust. rewrite len_app.
  pose proof (len_nonneg older) as Ho.
  assert (Hr : 0 < len recent)
    by (destruct recent; [now destruct Hne | unfold len; simpl; lia]).
  replace (- len recent <? 0) with true by (symmetry; apply Z.ltb_lt; lia).
  replace (Z.to_nat (Z.max (- len recent + (len older + len recent)) 0))
    with (List.length older) by (unfold len in *; lia).
  now rewrite skipn_app, skipn_all, Nat.sub_diag.
Qed.

(** X16: the prompt holds the last three messages of the chat history
    only: whatever precedes them changes nothing; and an empty history
    gives the prompt of no history at all. *)
Theorem prompt_uses_last_three_messages (question context : str)
    (older : list RAGPipeline.Message) (m1 m2 m3 : RAGPipeline.Message) :
  RAGPipeline._create_prompt question context (Some (older ++ [m1; m2; m3]))
  = RAGPipeline._create_prompt question context (Some [m1; m2; m3])
  /\ RAGPipeline._create_prompt question context (Some [])
     = RAGPipeline._create_prompt question context None.
Proof.
  split; [|reflexivity].
  unfold RAGPipeline._create_prompt. do 8 f_equal.
  unfold RAGPipeline.history_context.
  assert (Hlast := slice_from_last older [m1; m2; m3]).
  specialize (Hlast ltac:(discriminate)).
  change (- len [m1; m2; m3]) with (-3) in Hlast.
  destruct (older ++ [m1; m2; m3]) as [|m rest] eqn:Hall.
  - destruct older; discriminate.
  - rewrite Hlast. reflexivity.
Qed.

(** ** Hits below the threshold *)

Lemma filter_none {A} (keep : A -> bool) (l : list A) :
  Forall (fun x => keep x = false) l -> filter keep l = [].
Proof.
  induction 1 as [|x l Hx _ IH]; simpl; [reflexivity|].
  now rewrite Hx.
Qed.

Lemma below_threshold_none_survive (threshold : Q)
    (hits : list ChromaManager.Hit) :
  Forall (fun hit => (RAGPipeline.doc_similarity hit < threshold)%Q) hits ->
  Spec.surviving threshold hits = []
  /\ Spec.labelled_survivors threshold hits = [].
Proof.
  intros Hbelow.
  assert (Hnone : Spec.surviving threshold hits = []).
  { apply filter_none. eapply Forall_impl; [|exact Hbelow].
    intros hit Hlt. simpl.
    destruct (Qle_bool threshold (RAGPipeline.doc_similarity hit)) eqn:E;
      [|reflexivity].
    apply Qle_bool_iff in E. exfalso. apply (Qlt_not_le _ _ Hlt E). }
  split; [exact Hnone|].
  pose proof (labelled_survivors_hits threshold hits) as Hsnd.
  rewrite Hnone in Hsnd.
  destruct (Spec.labelled_survivors threshold hits); [reflexivity|].
  discriminate.
Qed.

(** X17: when hits are retrieved but all lie below the threshold, the
    context block and the sources are empty, and the query does not stop
    there: it calls the primary model with the prompt built around the
    empty context, and returns no sources with the confidence computed
    from the hits. *)
Theorem query_with_no_survivor (W : RAGPipeline.World)
    (config : RAGPipeline.Config) (question : str)
    (chat_history : option (list RAGPipeline.Message))
    (tr : RAGPipeline.trace) (hit : ChromaManager.Hit)
    (hits : list ChromaManager.Hit) :
  ChromaManager.search (RAGPipeline.chroma W) (RAGPipeline.chroma_state W)
    question (Some (RAGPipeline.retrieval_top_k config)) = hit :: hits ->
  Forall (fun h =>
            (RAGPipeline.doc_similarity h
             < RAGPipeline.similarity_threshold config)%Q) (hit :: hits) ->
  RAGPipeline._prepare_context config (hit :: hits) = []
  /\ RAGPipeline._format_sources config (hit :: hits) = []
  /\ exists result calls,
      RAGPipeline.query W config question chat_history tr
      = (RAGPipeline.Returned result, calls)
      /\ RAGPipeline.sources result = []
      /\ RAGPipeline.confidence result
         = RAGPipeline._calculate_confidence config (hit :: hits)
      /\ In (Shape.llm_call config (RAGPipeline.model config)
               (RAGPipeline._create_prompt question [] chat_history))
           calls.
Proof.
  intros Hsearch Hbelow.
  destruct (below_threshold_none_survive _ _ Hbelow) as [Hkept Hlabelled].
  assert (Hcontext : RAGPipeline._prepare_context config (hit :: hits) = [])
    by (now rewrite prepare_context_filter, Hlabelled).
  assert (Hsources : RAGPipeline._format_sources config (hit :: hits) = [])
    by (now rewrite format_sources_filter, Hkept).
  split; [exact Hcontext|]. split; [exact Hsources|].
  destruct (query_with_hits W config question chat_history tr hit hits
              Hsearch) as [response [calls [Hrun _]]].
  rewrite Hrun, Hcontext, Hsources. eexists. eexists.
  split; [reflexivity|]. split; [reflexivity|]. split; [reflexivity|].
  apply in_or_app. right. right. right. right. now left.
Qed.

(** X18: the sources are as many as the hits at or above the threshold,
    never more than the hits retrieved, and their number is the count
    [good_docs] of [_calculate_confidence], which enters the bonus
    [min(good_docs * 0.1, 0.3)] of the confidence. *)
Theorem sources_count_is_good_count (config : RAGPipeline.Config)
    (hit : ChromaManager.Hit) (hits : list ChromaManager.Hit) :
  let shown := len (RAGPipeline._format_sources config (hit :: hits)) in
  shown = Spec.good_count (RAGPipeline.similarity_threshold config)
            (hit :: hits)
  /\ 0 <= shown <= len (hit :: hits)
  /\ shown = RAGPipeline.good_docs config (hit :: hits)
  /\ RAGPipeline._calculate_confidence config (hit :: hits)
     = Binary64.round2
         (Qmin
            (Binary64.add
               (Qmin
                  (max_iter (RAGPipeline.doc_similarity hit)
                     (map RAGPipeline.doc_similarity hits))
                  1)
               (Qmin
                  (Binary64.mul (Binary64.of_int shown)
                     (Binary64.decimal (1 # 10)))
                  (Binary64.decimal (3 # 10))))
            1).
Proof.
  intros shown. subst shown.
  assert (Hcount : len (RAGPipeline._format_sources config (hit :: hits))
                   = Spec.good_count
                       (RAGPipeline.similarity_threshold config)
                       (hit :: hits)).
  { rewrite format_sources_filter. unfold Spec.surviving, Spec.good_count,
      len. now rewrite length_map. }
  split; [exact Hcount|]. split; [|split].
  - rewrite Hcount. unfold Spec.good_count, len.
    pose proof (filter_length_le
                  (fun h => Qle_bool
                              (RAGPipeline.similarity_threshold config)
                              (RAGPipeline.doc_similarity h))
                  (hit :: hits)). lia.
  - rewrite Hcount. symmetry. apply good_docs_count.
  - rewrite Hcount. apply calculate_confidence_nonempty.
Qed.

(** ** What a successful upsert stores *)

Section UpsertExact.

Import ChromaManager.

Variable B : Backend.

Lemma add_documents_loop_exact (documents : list Document) :
  forall texts metadatas ids drawn,
    let items := Shape.drawn_for_content drawn documents in
    fold_left (add_documents_body B) documents
      (texts, metadatas, ids, drawn)
    = (texts ++ map (fun item => get (doc_content (snd item)) []) items,
       metadatas ++ map (fun item => stored_metadata (snd item)) items,
       ids ++ map (fun item => uuid4 B (fst item)) items,
       (drawn + List.length documents)%nat).
Proof.
  induction documents as [|doc documents IH];
    intros texts metadatas ids drawn; simpl.
  - now rewrite !app_nil_r, Nat.add_0_r.
  - unfold Shape.drawn_for_content.
    cbn [enumerate_from filter snd].
    change (truthy (get (doc_content doc) []))
      with (Shape.has_content doc).
    destruct (Shape.has_content doc); cbn [negb].
    + rewrite IH. unfold Shape.drawn_for_content.
      rewrite <- !app_assoc. cbn [map app fst snd].
      unfold stored_metadata at 2. f_equal. lia.
    + rewrite IH. unfold Shape.drawn_for_content. f_equal. lia.
Qed.

Lemma zip_records_fields (texts : list str) :
  forall metadatas ids embeddings batch,
    zip_records texts metadatas ids embeddings = Some batch ->
    map rec_document batch = texts
    /\ map rec_metadata batch = metadatas
    /\ map rec_id batch = ids
    /\ map rec_embedding batch = embeddings.
Proof.
  induction texts as [|t texts IH];
    intros [|m metadatas] [|i ids] [|e embeddings] batch; simpl;
    try discriminate.
  - intros [= <-]. now repeat split.
  - destruct (zip_records texts metadatas ids embeddings) as [rest|] eqn:Hzip;
      [|discriminate].
    intros [= <-]. simpl.
    destruct (IH _ _ _ _ Hzip) as [-> [-> [-> ->]]]. now repeat split.
Qed.

(** A call that returns [True] has encoded the contents, zipped the four
    lists and appended the batch. *)
Lemma add_documents_success (st st' : State) (documents : list Document) :
  add_documents B st documents = (true, st') ->
  let items := Shape.drawn_for_content (uuids_drawn st) documents in
  exists batch embeddings,
    encode B (map (fun item => get (doc_content (snd item)) []) items)
    = Some embeddings
    /\ zip_records
         (map (fun item => get (doc_content (snd item)) []) items)
         (map (fun item => stored_metadata (snd item)) items)
         (map (fun item => uuid4 B (fst item)) items) embeddings
       = Some batch
    /\ st' = {| collection := collection st ++ batch;
                uuids_drawn :=
                  (uuids_drawn st + List.length documents)%nat |}.
Proof.
  intros Hrun items. subst items. revert Hrun.
  unfold add_documents.
  destruct documents as [|doc documents]; [discriminate|].
  rewrite add_documents_loop_exact. cbn [app].
  set (items := Shape.drawn_for_content (uuids_drawn st) (doc :: documents)).
  destruct (map (fun item => get (doc_content (snd item)) []) items)
    as [|text texts] eqn:Htexts; [discriminate|].
  rewrite <- Htexts. clear Htexts.
  destruct (encode B _) as [embeddings|]; [|discriminate].
  unfold collection_add.
  destruct (zip_records _ _ _ embeddings) as [batch|] eqn:Hzip;
    [|discriminate].
  destruct (storage_accepts B (collection st) batch); [|discriminate].
  intros [= <-]. now exists batch, embeddings.
Qed.

End UpsertExact.

Lemma enumerate_from_range {A} (l : list A) (s : nat) :
  Forall (fun item => (s <= fst item < s + List.length l)%nat)
    (enumerate_from s l).
Proof.
  revert s. induction l as [|x l IH]; intros s; simpl; constructor.
  - simpl. lia.
  - eapply Forall_impl; [|apply (IH (S s))].
    intros item H. simpl in *. lia.
Qed.

Lemma enumerate_from_NoDup {A} (l : list A) (s : nat) :
  NoDup (map fst (enumerate_from s l)).
Proof.
  revert s. induction l as [|x l IH]; intros s; simpl; constructor.
  - intros Hin. apply in_map_iff in Hin as [item [Heq Hin]].
    pose proof (enumerate_from_range l (S s)) as Hrange.
    rewrite Forall_forall in Hrange. apply Hrange in Hin. lia.
  - apply IH.
Qed.

Lemma NoDup_map_filter {A B} (f : A -> B) (keep : A -> bool) (l : list A) :
  NoDup (map f l) -> NoDup (map f (filter keep l)).
Proof.
  induction l as [|x l IH]; simpl; [trivial|].
  intros Hnd. inversion Hnd as [|y ys Hnotin Hrest]; subst.
  destruct (keep x); simpl; [|now apply IH].
  constructor; [|now apply IH].
  intros Hin. apply Hnotin.
  apply in_map_iff in Hin as [z [Heq Hz]].
  apply filter_In in Hz as [Hz _].
  apply in_map_iff. now exists z.
Qed.

Lemma NoDup_map_injective {A B} (f : A -> B) (l : list A) :
  (forall x y, f x = f y -> x = y) -> NoDup l -> NoDup (map f l).
Proof.
  intros Hinj. induction 1 as [|x l Hnotin _ IH]; simpl; constructor.
  - intros Hin. apply in_map_iff in Hin as [y [Heq Hy]].
    apply Hinj in Heq. now subst y.
  - exact IH.
Qed.

(** X19: when [add_documents] returns [True], the collection is the old
    one followed by one new record per input record with content, in
    input order; each new record holds the content of its input, the
    metadata built from it (with the defaults for the keys it lacks) and
    the identifier drawn for it; one identifier is drawn per input record,
    with or without content; and when the source of identifiers never
    repeats itself, the new identifiers are pairwise distinct. *)
Theorem add_documents_stores (B : ChromaManager.Backend)
    (st st' : ChromaManager.State)
    (documents : list ChromaManager.Document) :
  ChromaManager.add_documents B st documents = (true, st') ->
  let items :=
    Shape.drawn_for_content (ChromaManager.uuids_drawn st) documents in
  exists batch,
    ChromaManager.collection st' = ChromaManager.collection st ++ batch
    /\ ChromaManager.uuids_drawn st'
       = (ChromaManager.uuids_drawn st + List.length documents)%nat
    /\ map snd items = Spec.with_content documents
    /\ map ChromaManager.rec_document batch
       = map (fun item =>
                ChromaManager.get (ChromaManager.doc_content (snd item)) [])
           items
    /\ map ChromaManager.rec_metadata batch
       = map (fun item => ChromaManager.stored_metadata (snd item)) items
    /\ map ChromaManager.rec_id batch
       = map (fun item => ChromaManager.uuid4 B (fst item)) items
    /\ Forall (fun item =>
                 (ChromaManager.uuids_drawn st <= fst item
                  < ChromaManager.uuids_drawn st')%nat) items
    /\ ((forall i j,
            ChromaManager.uuid4 B i = ChromaManager.uuid4 B j -> i = j) ->
        NoDup (map ChromaManager.rec_id batch)).
Proof.
  intros Hrun items.
  destruct (add_documents_success B st st' documents Hrun)
    as [batch [embeddings [_ [Hzip ->]]]].
  apply zip_records_fields in Hzip as [Hdocs [Hmetas [Hids _]]].
  exists batch. cbn [ChromaManager.collection ChromaManager.uuids_drawn].
  split; [reflexivity|]. split; [reflexivity|].
  split.
  { subst items. unfold Shape.drawn_for_content, Spec.with_content.
    rewrite (filter_on_snd Shape.has_content).
    now rewrite enumerate_from_snd. }
  split; [exact Hdocs|]. split; [exact Hmetas|]. split; [exact Hids|].
  split.
  - subst items. unfold Shape.drawn_for_content.
    apply Forall_forall. intros item Hin.
    apply filter_In in Hin as [Hin _].
    pose proof (enumerate_from_range documents
                  (ChromaManager.uuids_drawn st)) as Hrange.
    rewrite Forall_forall in Hrange. now apply Hrange.
  - intros Hinj. rewrite Hids, <- (map_map fst (ChromaManager.uuid4 B)).
    apply NoDup_map_injective; [exact Hinj|].
    subst items. unfold Shape.drawn_for_content.
    apply NoDup_map_filter, enumerate_from_NoDup.
Qed.

(** X20: nothing is deduplicated: when the same records are added twice
    and both calls return [True], their contents are stored twice, after
    what was there before. *)
Theorem add_documents_twice_stores_twice (B : ChromaManager.Backend)
    (st st1 st2 : ChromaManager.State)
    (documents : list ChromaManager.Document) :
  ChromaManager.add_documents B st documents = (true, st1) ->
  ChromaManager.add_documents B st1 documents = (true, st2) ->
  let texts :=
    map (fun d => ChromaManager.get (ChromaManager.doc_content d) [])
      (Spec.with_content documents) in
  map ChromaManager.rec_document (ChromaManager.collection st2)
  = map ChromaManager.rec_document (ChromaManager.collection st)
      ++ texts ++ texts
  /\ texts <> [].
Proof.
  intros Hfirst Hsecond texts.
  assert (Htexts : forall drawn,
             map (fun item =>
                    ChromaManager.get
                      (ChromaManager.doc_content (snd item)) [])
               (Shape.drawn_for_content drawn documents)
             = texts).
  { intros drawn. subst texts.
    rewrite <- (map_map snd
                  (fun d => ChromaManager.get
                              (ChromaManager.doc_content d) [])).
    f_equal. unfold Shape.drawn_for_content, Spec.with_content.
    rewrite (filter_on_snd Shape.has_content).
    now rewrite enumerate_from_snd. }
  destruct (add_documents_success B st st1 documents Hfirst)
    as [batch1 [emb1 [_ [Hzip1 ->]]]].
  destruct (add_documents_success B _ st2 documents Hsecond)
    as [batch2 [emb2 [_ [Hzip2 ->]]]].
  apply zip_records_fields in Hzip1 as [Hdocs1 _].
  apply zip_records_fields in Hzip2 as [Hdocs2 _].
  rewrite Htexts in Hdocs1, Hdocs2.
  cbn [ChromaManager.collection]. split.
  - rewrite !map_app, Hdocs1, Hdocs2. now rewrite <- app_assoc.
  - intros Hnil. revert Hfirst. unfold ChromaManager.add_documents.
    destruct documents as [|doc documents]; [discriminate|].
    rewrite add_documents_loop_exact. cbn [app].
    rewrite Htexts, Hnil. discriminate.
Qed.

(** ** The confidence of the HTTP API *)

Lemma inject_len_cons {A} (x : A) (l : list A) :
  inject_Z (len (x :: l)) == inject_Z (len l) + 1.
Proof.
  unfold len. simpl List.length. rewrite Nat2Z.inj_succ, <- Z.add_1_r.
  rewrite inject_Z_plus. reflexivity.
Qed.

Lemma binary64_sum_nonneg (l : list Q) (acc : Q) :
  Forall (fun y => (0 <= y)%Q) l -> (0 <= acc)%Q ->
  (0 <= fold_left Binary64.add l acc)%Q.
Proof.
  revert acc. induction l as [|y l IH]; intros acc Hl Hacc; simpl.
  - exact Hacc.
  - inversion Hl; subst. apply IH; [assumption|].
    apply rnd_nonneg. lra.
Qed.

Lemma api_confidence_in_unit (hits : list ChromaManager.Hit) :
  (Main.calculate_confidence hits <= 1)%Q /\
  (Forall (fun hit => (0 <= RAGPipeline.doc_similarity hit)%Q) hits ->
   (0 <= Main.calculate_confidence hits)%Q).
Proof.
  destruct hits as [|hit rest].
  - split; [discriminate | intros _; apply Qle_refl].
  - unfold Main.calculate_confidence.
    set (avg := Binary64.div _ _).
    split.
    + destruct (min2_cases avg 1) as [[_ ->] | [H ->]]; lra.
    + intros Hall.
      assert (Havg : (0 <= avg)%Q).
      { subst avg. apply rnd_nonneg.
        assert (Hpos : (0 < Binary64.of_int (len (hit :: rest)))%Q).
        { apply Qlt_le_trans with 1%Q; [reflexivity|].
          rewrite <- rnd_one. apply rnd_monotone.
          rewrite inject_len_cons.
          pose proof (len_nonneg rest) as Hl. rewrite Zle_Qle in Hl.
          change (inject_Z 0) with 0%Q in Hl. lra. }
        apply Qle_shift_div_l; [exact Hpos|].
        rewrite Qmult_0_l. apply binary64_sum_nonneg; [|apply Qle_refl].
        apply Forall_forall. intros y Hy.
        apply in_map_iff in Hy as [h [<- Hh]].
        rewrite Forall_forall in Hall. now apply Hall. }
      destruct (min2_cases avg 1) as [[_ ->] | [_ ->]]; lra.
Qed.

Lemma binary64_sum_error (N : Z) (l : list Q) :
  N < 2 ^ 53 ->
  Forall (fun x => (0 <= x <= 1)%Q) l ->
  forall (m : Z) (S E : Q),
    0 <= m -> m + len l <= N ->
    (0 <= S)%Q -> (S <= inject_Z m)%Q ->
    (0 <= fold_left Binary64.add l S)%Q /\
    (fold_left Binary64.add l S <= inject_Z (m + len l))%Q /\
    (Qabs (fold_left Binary64.add l S - fold_left Qplus l E)
     <= Qabs (S - E) + inject_Z (len l) * (inject_Z N * (1 # 2 ^ 53)))%Q.
Proof.
  intros HN. induction 1 as [|x l [Hx0 Hx1] _ IH];
    intros m S E Hm HmN HS0 HSm.
  - simpl. change (len (@nil Q)) with 0. rewrite Z.add_0_r.
    split; [exact HS0|]. split; [exact HSm|].
    change (inject_Z 0) with 0%Q. lra.
  - assert (Hlen : len (x :: l) = len l + 1).
    { unfold len. simpl List.length. lia. }
    pose proof (len_nonneg l) as Hl.
    rewrite Hlen in *.
    assert (Hy0 : (0 <= S + x)%Q) by lra.
    assert (Hym : (S + x <= inject_Z (m + 1))%Q).
    { rewrite inject_Z_plus. change (inject_Z 1) with 1%Q. lra. }
    assert (HyN : (S + x <= inject_Z N)%Q).
    { eapply Qle_trans; [exact Hym|]. rewrite <- Zle_Qle. lia. }
    assert (Hr0 : (0 <= Binary64.add S x)%Q) by (now apply rnd_nonneg).
    assert (Hrm : (Binary64.add S x <= inject_Z (m + 1))%Q).
    { rewrite <- (rnd_integer (m + 1)) by lia. now apply rnd_monotone. }
    assert (Herr : (Qabs (Binary64.add S x - (S + x))
                    <= inject_Z N * (1 # 2 ^ 53))%Q).
    { apply rnd_error_below; [lia | exact Hy0 | exact HyN]. }
    simpl fold_left.
    destruct (IH (m + 1) (Binary64.add S x) (E + x)%Q) as [H0 [H1 H2]];
      [lia | lia | exact Hr0 | exact Hrm |].
    split; [exact H0|]. split.
    + replace (m + (len l + 1)) with (m + 1 + len l) by lia. exact H1.
    + eapply Qle_trans; [exact H2|].
      rewrite inject_Z_plus. change (inject_Z 1) with 1%Q.
      assert (Htri : (Qabs (Binary64.add S x - (E + x))
                      <= Qabs (Binary64.add S x - (S + x))
                         + Qabs (S - E))%Q).
      { setoid_replace (Binary64.add S x - (E + x))%Q
          with ((Binary64.add S x - (S + x)) + (S - E))%Q by ring.
        apply Qabs_triangle. }
      lra.
Qed.

Lemma api_confidence_accurate (hits : list ChromaManager.Hit) :
  hits <> [] -> len hits < 2 ^ 53 ->
  Forall (fun hit => (0 <= RAGPipeline.doc_similarity hit <= 1)%Q) hits ->
  (Qabs (Main.calculate_confidence hits
         - Qmin (Shape.mean (map RAGPipeline.doc_similarity hits)) 1)
   <= (inject_Z (len hits) + 1) * (1 # 2 ^ 53))%Q.
Proof.
  intros Hne Hlen Hall.
  destruct hits as [|hit rest]; [now destruct Hne|].
  unfold Main.calculate_confidence, Shape.mean, Binary64.sum.
  set (sims := map RAGPipeline.doc_similarity (hit :: rest)).
  assert (Hsims : Forall (fun x => (0 <= x <= 1)%Q) sims).
  { subst sims. apply Forall_forall. intros y Hy.
    apply in_map_iff in Hy as [h [<- Hh]].
    rewrite Forall_forall in Hall. now apply Hall. }
  assert (Hlens : len sims = len (hit :: rest)).
  { subst sims. unfold len. now rewrite length_map. }
  rewrite Hlens.
  set (n := len (hit :: rest)) in *.
  assert (Hn1 : 1 <= n).
  { subst n. unfold len. simpl List.length. lia. }
  assert (Hnq : (1 <= inject_Z n)%Q).
  { change 1%Q with (inject_Z 1). now rewrite <- Zle_Qle. }
  destruct (binary64_sum_error n sims Hlen Hsims 0 0%Q 0%Q)
    as [HS0 [HSn HSE]]; [lia | lia | apply Qle_refl | apply Qle_refl |].
  rewrite Hlens in HSn, HSE. fold n in HSn, HSE.
  rewrite Z.add_0_l in HSn.
  set (S := fold_left Binary64.add sims 0%Q) in *.
  set (E := fold_left Qplus sims 0%Q) in *.
  assert (HSE' : (Qabs (S - E)
                  <= inject_Z n * (inject_Z n * (1 # 2 ^ 53)))%Q).
  { eapply Qle_trans; [exact HSE|].
    setoid_replace (0 - 0)%Q with 0%Q by ring.
    change (Qabs 0) with 0%Q. lra. }
  assert (Hof : Binary64.of_int n == inject_Z n).
  { apply rnd_integer. lia. }
  assert (Hq0 : (0 <= S / inject_Z n)%Q)
    by (apply Qle_shift_div_l; lra).
  assert (Hq1 : (S / inject_Z n <= 1)%Q)
    by (apply Qle_shift_div_r; lra).
  assert (Havg : Binary64.div S (Binary64.of_int n)
                 == Binary64.rnd (S / inject_Z n)).
  { unfold Binary64.div. apply rnd_compat. now rewrite Hof. }
  destruct (rnd_error_unit _ Hq0 Hq1) as [Herr [Hr0 Hr1]].
  assert (Hdiv : (Qabs (S / inject_Z n - E / inject_Z n)
                  <= inject_Z n * (1 # 2 ^ 53))%Q).
  { setoid_replace (S / inject_Z n - E / inject_Z n)%Q
      with ((S - E) / inject_Z n)%Q by (field; lra).
    unfold Qdiv. rewrite Qabs_Qmult.
    rewrite (Qabs_pos (/ inject_Z n)).
    2:{ apply Qinv_le_0_compat. lra. }
    apply Qle_shift_div_r; [lra|].
    eapply Qle_trans; [exact HSE'|].
    rewrite (Qmult_comm (inject_Z n * (1 # 2 ^ 53))). apply Qle_refl. }
  assert (HE1 : (E / inject_Z n <= 1 + inject_Z n * (1 # 2 ^ 53))%Q).
  { apply Qabs_Qle_condition in Hdiv. lra. }
  set (avg := Binary64.div S (Binary64.of_int n)) in *.
  set (r := Binary64.rnd (S / inject_Z n)) in *.
  set (a := (S / inject_Z n)%Q) in *.
  set (b := (E / inject_Z n)%Q) in *.
  set (u := (1 # 2 ^ 53)%Q) in *.
  assert (Hm : min2 avg 1 == avg).
  { destruct (min2_cases avg 1) as [[H ->] | [H ->]]; lra. }
  rewrite Hm, Havg.
  apply Qabs_Qle_condition in Herr, Hdiv. apply Qabs_Qle_condition.
  destruct (Q.min_spec b 1) as [[Hb ->] | [Hb ->]]; split; lra.
Qed.

(** X21: the confidence that the HTTP API reports is 0 for no hit; it
    never exceeds 1, and it is not negative when no hit has a negative
    similarity, so that it lies between 0 and 1 for the hits that
    [search] returns; it is the mean similarity capped at 1 up to the
    rounding of binary64: for [n] hits with similarities between 0 and 1
    it differs from the exact mean, capped at 1, by at most
    [(n + 1) / 2^53]. *)
Theorem api_confidence_bounds (hits : list ChromaManager.Hit) :
  Main.calculate_confidence [] = 0%Q /\
  (Main.calculate_confidence hits <= 1)%Q /\
  (Forall (fun hit => (0 <= RAGPipeline.doc_similarity hit)%Q) hits ->
   (0 <= Main.calculate_confidence hits)%Q) /\
  (hits <> [] -> len hits < 2 ^ 53 ->
   Forall (fun hit => (0 <= RAGPipeline.doc_similarity hit <= 1)%Q) hits ->
   (Qabs (Main.calculate_confidence hits
          - Qmin (Shape.mean (map RAGPipeline.doc_similarity hits)) 1)
    <= (inject_Z (len hits) + 1) * (1 # 2 ^ 53))%Q) /\
  (forall B st query n_results,
      (0 <= Main.calculate_confidence
              (ChromaManager.search B st query n_results) <= 1)%Q).
Proof.
  split; [reflexivity|].
  split; [apply api_confidence_in_unit|].
  split; [apply api_confidence_in_unit|].
  split; [apply api_confidence_accurate|].
  intros B st query n_results. split.
  - apply api_confidence_in_unit, search_similarity_nonneg.
  - apply api_confidence_in_unit.
Qed.

(** The mean is taken in binary64 and can exceed every similarity: three
    hits of similarity 0.9875 give the next float above 0.9875, on
    primitive floats as well. *)
Example api_confidence_above_every_similarity :
  let sim := Binary64.decimal (79 # 80) in
  let hit := Examples.hit "tck.txt" (lit "Madde 1") sim in
  (sim < Main.calculate_confidence [hit; hit; hit])%Q /\
  Machine.value
    (PrimFloat.div
       (PrimFloat.add
          (PrimFloat.add (Machine.fraction 79 80) (Machine.fraction 79 80))
          (Machine.fraction 79 80))
       (Machine.of_Z 3))
  = Some (Main.calculate_confidence [hit; hit; hit]).
Proof. split; vm_compute; reflexivity. Qed.


(** ** Text of a PDF *)

Lemma fold_left_append {A} (step : str -> A -> str) (part : A -> str) :
  (forall text x, step text x = text ++ part x) ->
  forall (l : list A) (text : str),
    fold_left step l text = text ++ List.concat (map part l).
Proof.
  intros Hstep l.
  induction l as [|x l IH]; intros text; simpl.
  - now rewrite app_nil_r.
  - now rewrite IH, Hstep, <- app_assoc.
Qed.

Lemma concat_flat_map {A B} (h : A -> list B) (block : B -> str)
    (l : list A) :
  List.concat (map block (flat_map h l))
  = List.concat (map (fun x => List.concat (map block (h x))) l).
Proof.
  induction l as [|x l IH]; simpl; [reflexivity|].
  now rewrite map_app, List.concat_app, IH.
Qed.

Lemma pages_with_text_In (pages : list (option str)) (i : nat) (t : str) :
  In (i, t) (Shape.pages_with_text pages)
  <-> nth_error pages i = Some (Some t) /\ t <> [].
Proof.
  unfold Shape.pages_with_text. rewrite in_flat_map. split.
  - intros [[j page] [Hin Hitem]]. apply enumerate_In in Hin.
    simpl in Hitem. destruct page as [[|c text]|]; try now destruct Hitem.
    destruct Hitem as [[= <- <-] | []]. split; [exact Hin | discriminate].
  - intros [Hnth Hne]. exists (i, Some t). split.
    + now apply enumerate_In.
    + simpl. destruct t as [|c text]; [now destruct Hne | now left].
Qed.

(** X22: the text taken from a PDF is made of one block per page that
    gave text, headed by the number of that page among all the pages,
    counted from 1; the pages that could not be read or gave nothing
    leave no trace and do not stop the reading; and a PDF of which no page
    gives text yields no document. *)
Theorem pdf_text_is_numbered_pages (f : DocumentProcessor.File)
    (pages : list (option str)) :
  DocumentProcessor.pdf_pages f = Some pages ->
  DocumentProcessor._extract_from_pdf f
  = List.concat
      (map (fun item =>
              newline ++ lit "--- Sayfa " ++ str_of_nat (fst item + 1)
                ++ lit " ---" ++ newline ++ snd item ++ newline)
         (Shape.pages_with_text pages))
  /\ (forall i t,
         In (i, t) (Shape.pages_with_text pages)
         <-> nth_error pages i = Some (Some t) /\ t <> [])
  /\ (Shape.pages_with_text pages = [] ->
      lower (DocumentProcessor.file_suffix f) = lit ".pdf" ->
      forall fuel self max_file_size_mb clock,
        DocumentProcessor.process_file fuel self max_file_size_mb clock f
        = Some []).
Proof.
  intros Hpages.
  assert (Htext :
            DocumentProcessor._extract_from_pdf f
            = List.concat
                (map (fun item =>
                        newline ++ lit "--- Sayfa "
                          ++ str_of_nat (fst item + 1)
                          ++ lit " ---" ++ newline ++ snd item ++ newline)
                   (Shape.pages_with_text pages))).
  { unfold DocumentProcessor._extract_from_pdf. rewrite Hpages.
    rewrite (fold_left_append DocumentProcessor.pdf_page_body
               (fun item =>
                  match snd item with
                  | Some (c :: text) =>
                      newline ++ lit "--- Sayfa "
                        ++ str_of_nat (fst item + 1)
                        ++ lit " ---" ++ newline ++ (c :: text) ++ newline
                  | _ => []
                  end)).
    - unfold Shape.pages_with_text. rewrite concat_flat_map. simpl.
      f_equal. apply map_ext. intros [i [[|c text]|]]; simpl;
        try reflexivity.
      now rewrite app_nil_r.
    - intros text [i [[|c page]|]]; simpl; try now rewrite app_nil_r.
      reflexivity. }
  split; [exact Htext|]. split; [apply pages_with_text_In|].
  intros Hnone Hsuffix fuel self max_file_size_mb clock.
  unfold DocumentProcessor.process_file.
  destruct (negb (DocumentProcessor.file_exists f)); [reflexivity|].
  destruct (negb (str_in _ _)); [reflexivity|].
  destruct (_ >? _); [reflexivity|].
  unfold DocumentProcessor._extract_text. rewrite Hsuffix.
  change (str_eqb (lit ".pdf") (lit ".pdf")) with true. cbv iota.
  rewrite Htext, Hnone. reflexivity.
Qed.

(** ** Chunker on text without spaces *)

(** X23: on a text that holds no space, every pass of the chunker moves
    [start] forward by the chunk size less the overlap, and so, for every
    overlap smaller than the chunk size, the chunker terminates within as
    many passes as the text has characters. *)
Theorem unspaced_text_is_chunked (self : DocumentProcessor.t)
    (text : str) :
  ~ In space text ->
  DocumentProcessor.chunk_overlap self < DocumentProcessor.chunk_size self ->
  (forall st,
      0 <= DocumentProcessor.start st ->
      DocumentProcessor.start (DocumentProcessor.loop_body self text st)
      = DocumentProcessor.start st + DocumentProcessor.chunk_size self
        - DocumentProcessor.chunk_overlap self)
  /\ exists chunks,
      DocumentProcessor._split_into_chunks (List.length text) self text
      = Some chunks.
Proof.
  intros Hnot Hsizes. split.
  - intros st. now apply loop_body_advances.
  - unfold DocumentProcessor._split_into_chunks.
    destruct (len text <=? _); [eauto|].
    destruct (loop_terminates_without_spaces self text Hnot Hsizes
                (List.length text)
                {| DocumentProcessor.start := 0;
                   DocumentProcessor.chunks := [] |})
      as [chunks Hloop]; simpl; unfold len; try lia.
    rewrite Hloop. eauto.
Qed.

(** ** From a file to the index *)

Lemma filter_all {A} (keep : A -> bool) (l : list A) :
  Forall (fun x => keep x = true) l -> filter keep l = l.
Proof.
  induction 1 as [|x l Hx _ IH]; simpl; [reflexivity|].
  now rewrite Hx, IH.
Qed.

Lemma map_on_snd {A B C} (f : B -> C) (l : list (A * B)) :
  map (fun item => f (snd item)) l = map f (map snd l).
Proof. now rewrite map_map. Qed.

Lemma split_chunks_nonempty (fuel : nat) (self : DocumentProcessor.t)
    (text : str) (result : list str) :
  text <> [] ->
  DocumentProcessor._split_into_chunks fuel self text = Some result ->
  Forall (fun chunk => chunk <> []) result.
Proof.
  intros Hne. unfold DocumentProcessor._split_into_chunks.
  destruct (len text <=? DocumentProcessor.chunk_size self).
  - intros [= <-]. constructor; [exact Hne | constructor].
  - destruct (DocumentProcessor.loop fuel self text _) as [chunks|] eqn:Hloop;
      [|discriminate].
    intros [= <-].
    apply loop_chunks_stripped_pieces in Hloop.
    apply Forall_forall. intros chunk Hin.
    apply filter_In in Hin as [Hin Hkeep].
    rewrite Forall_forall in Hloop.
    destruct (Hloop chunk Hin) as [Hstrip _].
    rewrite Hstrip in Hkeep. intros ->. discriminate.
Qed.

(** X24: when a file whose cleaned text is not empty has been processed
    and its documents are added to the index with success, no chunk is
    left out: the new records are the chunks of the file, one per
    document and in order, and each holds the content, the file name, the
    file type, the chunk index, the total, the timestamp and the file size
    of its document, none replaced by a default. *)
Theorem ingested_file_is_stored_whole (fuel : nat)
    (self : DocumentProcessor.t) (max_file_size_mb : option Z)
    (clock : DocumentProcessor.Clock) (f : DocumentProcessor.File)
    (documents : list DocumentProcessor.ProcessedDocument)
    (B : ChromaManager.Backend) (st st' : ChromaManager.State) :
  DocumentProcessor.process_file fuel self max_file_size_mb clock f
  = Some documents ->
  DocumentProcessor._clean_text (DocumentProcessor._extract_text f) <> [] ->
  ChromaManager.add_documents B st
    (map DocumentProcessor.as_document documents) = (true, st') ->
  exists batch,
    ChromaManager.collection st' = ChromaManager.collection st ++ batch
    /\ List.length batch = List.length documents
    /\ map ChromaManager.rec_document batch
       = map DocumentProcessor.pd_content documents
    /\ map ChromaManager.rec_metadata batch
       = map (fun d =>
                {| ChromaManager.filename :=
                     DocumentProcessor.pd_filename d;
                   ChromaManager.file_type :=
                     DocumentProcessor.pd_file_type d;
                   ChromaManager.chunk_index :=
                     Some (DocumentProcessor.pd_chunk_index d);
                   ChromaManager.total_chunks :=
                     DocumentProcessor.pd_total_chunks d;
                   ChromaManager.timestamp :=
                     DocumentProcessor.pd_timestamp d;
                   ChromaManager.file_size :=
                     DocumentProcessor.pd_file_size d |}) documents.
Proof.
  intros Hfile Htext Hadd.
  assert (Hcontent : Forall (fun d => DocumentProcessor.pd_content d <> [])
                       documents).
  { apply process_file_cases in Hfile
      as [-> | [_ [_ [_ [_ [chunks [Hsplit ->]]]]]]]; [constructor|].
    pose proof (split_chunks_nonempty _ _ _ _ Htext Hsplit) as Hchunks.
    apply Forall_forall. intros d Hin.
    apply in_map_iff in Hin as [[i chunk] [<- Hin]]. simpl.
    apply enumerate_In, nth_error_In in Hin.
    rewrite Forall_forall in Hchunks. now apply Hchunks. }
  destruct (add_documents_success B st st' _ Hadd)
    as [batch [embeddings [_ [Hzip ->]]]].
  assert (Hitems : Shape.drawn_for_content (ChromaManager.uuids_drawn st)
                     (map DocumentProcessor.as_document documents)
                   = enumerate_from (ChromaManager.uuids_drawn st)
                       (map DocumentProcessor.as_document documents)).
  { unfold Shape.drawn_for_content. apply filter_all.
    apply Forall_forall. intros [i doc] Hin.
    apply enumerate_from_In in Hin as [_ Hnth].
    apply nth_error_In, in_map_iff in Hnth as [d [<- Hd]].
    rewrite Forall_forall in Hcontent. specialize (Hcontent d Hd).
    unfold Shape.has_content. simpl.
    destruct (DocumentProcessor.pd_content d);
      [now destruct Hcontent | reflexivity]. }
  rewrite Hitems in Hzip.
  pose proof (zip_records_length _ _ _ _ _ Hzip) as Hlen.
  apply zip_records_fields in Hzip as [Hdocs [Hmetas _]].
  rewrite (map_on_snd
             (fun d => ChromaManager.get (ChromaManager.doc_content d) []))
    in Hdocs, Hlen.
  rewrite (map_on_snd ChromaManager.stored_metadata) in Hmetas.
  rewrite enumerate_from_snd, map_map in Hdocs, Hmetas, Hlen.
  exists batch. cbn [ChromaManager.collection].
  split; [reflexivity|]. split.
  - now rewrite Hlen, length_map.
  - split; [exact Hdocs | exact Hmetas].
Qed.

(** ** The further properties at concrete inputs *)

Lemma clean_text_keeps_letters_witness :
  DocumentProcessor._clean_text Examples.law_text <> [] /\
  Shape.letters (DocumentProcessor._clean_text Examples.law_text)
  = Shape.letters Examples.law_text.
Proof.
  assert (H : DocumentProcessor._clean_text Examples.law_text <> [])
    by (vm_compute; discriminate).
  split; [exact H | exact (clean_text_keeps_letters Examples.law_text H)].
Defined.

Lemma narrow_split_run :
  DocumentProcessor._split_into_chunks 5 Examples.narrow_chunker
    Examples.spaced_text
  = Some [lit "aaa bbb"; lit "bb ccc"; lit "cc ddd"; lit "dd eee fff";
          lit "ff"].
Proof. vm_compute. reflexivity. Defined.

Lemma chunks_are_trimmed_and_nonempty_witness :
  DocumentProcessor.chunk_size Examples.narrow_chunker
  < len Examples.spaced_text /\
  Forall (fun chunk =>
            chunk <> []
            /\ Shape.starts_with_space chunk = false
            /\ Shape.ends_with_space chunk = false)
    [lit "aaa bbb"; lit "bb ccc"; lit "cc ddd"; lit "dd eee fff"; lit "ff"].
Proof.
  assert (H : DocumentProcessor.chunk_size Examples.narrow_chunker
              < len Examples.spaced_text) by (vm_compute; reflexivity).
  split; [exact H|].
  exact (chunks_are_trimmed_and_nonempty 5 Examples.narrow_chunker
           Examples.spaced_text _ H narrow_split_run).
Defined.

Lemma chunks_are_pieces_of_text_witness :
  Forall (fun chunk => Shape.infix chunk Examples.spaced_text)
    [lit "aaa bbb"; lit "bb ccc"; lit "cc ddd"; lit "dd eee fff"; lit "ff"].
Proof.
  exact (chunks_are_pieces_of_text 5 Examples.narrow_chunker
           Examples.spaced_text _ narrow_split_run).
Defined.

Lemma chunks_fit_chunk_size_witness :
  0 <= DocumentProcessor.chunk_overlap Examples.narrow_chunker
    < DocumentProcessor.chunk_size Examples.narrow_chunker /\
  Forall (fun chunk =>
            len chunk <= DocumentProcessor.chunk_size Examples.narrow_chunker)
    [lit "aaa bbb"; lit "bb ccc"; lit "cc ddd"; lit "dd eee fff"; lit "ff"].
Proof.
  assert (H : 0 <= DocumentProcessor.chunk_overlap Examples.narrow_chunker
              < DocumentProcessor.chunk_size Examples.narrow_chunker)
    by (simpl; lia).
  split; [exact H|].
  exact (chunks_fit_chunk_size 5 Examples.narrow_chunker
           Examples.spaced_text _ H narrow_split_run).
Defined.

Lemma split_terminates_without_overlap_witness :
  DocumentProcessor.chunk_overlap Examples.plain_chunker = 0 /\
  0 < DocumentProcessor.chunk_size Examples.plain_chunker /\
  exists result,
    DocumentProcessor._split_into_chunks
      (List.length Examples.spaced_text) Examples.plain_chunker
      Examples.spaced_text = Some result.
Proof.
  split; [reflexivity|]. split; [reflexivity|].
  exact (split_terminates_without_overlap Examples.plain_chunker
           Examples.spaced_text eq_refl eq_refl).
Defined.

Lemma plain_split_run :
  DocumentProcessor._split_into_chunks 23 Examples.plain_chunker
    Examples.spaced_text
  = Some [lit "aaa bbb"; lit "ccc ddd"; lit "eee fff"].
Proof. vm_compute. reflexivity. Defined.

Lemma chunks_without_overlap_keep_letters_witness :
  DocumentProcessor.chunk_overlap Examples.plain_chunker = 0 /\
  0 < DocumentProcessor.chunk_size Examples.plain_chunker /\
  List.concat
    (map Shape.letters [lit "aaa bbb"; lit "ccc ddd"; lit "eee fff"])
  = Shape.letters Examples.spaced_text.
Proof.
  split; [reflexivity|]. split; [reflexivity|].
  exact (chunks_without_overlap_keep_letters 23 Examples.plain_chunker
           Examples.spaced_text _ eq_refl eq_refl plain_split_run).
Defined.

Lemma unspaced_text_is_chunked_witness :
  ~ In space Examples.unspaced_text /\
  DocumentProcessor.chunk_overlap Examples.small_chunker
  < DocumentProcessor.chunk_size Examples.small_chunker /\
  exists chunks,
    DocumentProcessor._split_into_chunks
      (List.length Examples.unspaced_text) Examples.small_chunker
      Examples.unspaced_text = Some chunks.
Proof.
  assert (H : ~ In space Examples.unspaced_text).
  { intros Hin. vm_compute in Hin.
    repeat (destruct Hin as [Hin | Hin]; [discriminate|]). exact Hin. }
  split; [exact H|]. split; [reflexivity|].
  exact (proj2 (unspaced_text_is_chunked Examples.small_chunker
                  Examples.unspaced_text H eq_refl)).
Defined.

Lemma law_file_run :
  DocumentProcessor.process_file 10 Examples.file_chunker None
    Examples.clock Examples.law_file = Some Examples.law_documents.
Proof. vm_compute. reflexivity. Defined.

Lemma process_file_chunk_bounds_witness :
  DocumentProcessor.process_file 10 Examples.file_chunker None
    Examples.clock Examples.law_file = Some Examples.law_documents /\
  forall i d,
    nth_error Examples.law_documents i = Some d ->
    DocumentProcessor.pd_chunk_index d = Z.of_nat i
    /\ DocumentProcessor.pd_total_chunks d = len Examples.law_documents
    /\ 0 <= DocumentProcessor.pd_chunk_index d
       < DocumentProcessor.pd_total_chunks d.
Proof.
  split; [exact law_file_run|].
  exact (process_file_chunk_bounds 10 Examples.file_chunker None
           Examples.clock Examples.law_file Examples.law_documents
           law_file_run).
Defined.

Lemma process_file_documents_witness :
  Examples.law_documents <> [] /\
  DocumentProcessor._split_into_chunks 10 Examples.file_chunker
    (DocumentProcessor._clean_text
       (DocumentProcessor._extract_text Examples.law_file))
  = Some (map DocumentProcessor.pd_content Examples.law_documents).
Proof.
  assert (H : Examples.law_documents <> [])
    by (vm_compute; discriminate).
  split; [exact H|].
  apply (process_file_documents 10 Examples.file_chunker None
           Examples.clock Examples.law_file Examples.law_documents
           law_file_run H).
Defined.

Lemma short_file_gives_empty_document_witness :
  strip (DocumentProcessor._extract_text Examples.short_file) <> [] /\
  len (strip (re_sub_spaces
                (DocumentProcessor._extract_text Examples.short_file)))
  < 10 /\
  exists d,
    DocumentProcessor.process_file 10 Examples.file_chunker None
      Examples.clock Examples.short_file = Some [d]
    /\ DocumentProcessor.pd_content d = []
    /\ DocumentProcessor.pd_chunk_index d = 0
    /\ DocumentProcessor.pd_total_chunks d = 1
    /\ forall B st,
        ChromaManager.add_documents B st
          [DocumentProcessor.as_document d]
        = (false,
           {| ChromaManager.collection := ChromaManager.collection st;
              ChromaManager.uuids_drawn :=
                S (ChromaManager.uuids_drawn st) |}).
Proof.
  assert (Htext : strip (DocumentProcessor._extract_text
                           Examples.short_file) <> [])
    by (vm_compute; discriminate).
  assert (Hshort : len (strip (re_sub_spaces
                                 (DocumentProcessor._extract_text
                                    Examples.short_file))) < 10)
    by (vm_compute; reflexivity).
  split; [exact Htext|]. split; [exact Hshort|].
  apply (short_file_gives_empty_document 10 Examples.file_chunker None
           Examples.clock Examples.short_file).
  - vm_compute. reflexivity.
  - vm_compute. reflexivity.
  - vm_compute. discriminate.
  - exact Htext.
  - exact Hshort.
  - vm_compute. discriminate.
Defined.

Lemma search_results_shape_witness :
  let B := RAGPipeline.chroma Examples.world_up in
  let rows :=
    [Examples.row "tck.txt" (lit "Madde 1") 2;
     Examples.row "tmk.txt" (lit "Madde 2") 14] in
  ChromaManager.encode B [Examples.question] = Some [[1%Q]] /\
  ChromaManager.collection_query B
    (ChromaManager.collection Examples.empty_index) [[1%Q]] 5
  = Some [rows] /\
  Shape.ascending rows /\
  Spec.descending
    (ChromaManager.search B Examples.empty_index Examples.question None).
Proof.
  intros B rows.
  assert (Hsorted : Shape.ascending rows).
  { unfold Shape.ascending. repeat constructor. unfold Qle. simpl. lia. }
  split; [reflexivity|]. split; [reflexivity|]. split; [exact Hsorted|].
  exact (proj2 (proj2 (proj2 (search_results_shape B Examples.empty_index
                                Examples.question None)
                         [[1%Q]] rows [] eq_refl eq_refl)) Hsorted).
Defined.

Lemma calculate_confidence_bounds_witness :
  Forall (fun hit => (0 <= RAGPipeline.doc_similarity hit)%Q)
    [Examples.strong; Examples.weak] /\
  (0 <= RAGPipeline._calculate_confidence Examples.config
          [Examples.strong; Examples.weak])%Q.
Proof.
  assert (H : Forall (fun hit => (0 <= RAGPipeline.doc_similarity hit)%Q)
                [Examples.strong; Examples.weak]).
  { repeat constructor; unfold Qle; simpl; lia. }
  split; [exact H|].
  exact (proj1 (proj2 (calculate_confidence_bounds Examples.config
                         [Examples.strong; Examples.weak])) H).
Defined.

Lemma query_with_no_survivor_witness :
  let hit :=
    ChromaManager.format_result
      (Examples.row "tck.txt" (lit "Madde 1") 2) in
  let hits :=
    [ChromaManager.format_result
       (Examples.row "tmk.txt" (lit "Madde 2") 14)] in
  ChromaManager.search (RAGPipeline.chroma Examples.world_up)
    (RAGPipeline.chroma_state Examples.world_up) Examples.question
    (Some (RAGPipeline.retrieval_top_k Examples.strict_config))
  = hit :: hits /\
  Forall (fun h =>
            (RAGPipeline.doc_similarity h
             < RAGPipeline.similarity_threshold Examples.strict_config)%Q)
    (hit :: hits) /\
  RAGPipeline._prepare_context Examples.strict_config (hit :: hits) = [] /\
  RAGPipeline._format_sources Examples.strict_config (hit :: hits) = [].
Proof.
  intros hit hits.
  assert (Hsearch :
            ChromaManager.search (RAGPipeline.chroma Examples.world_up)
              (RAGPipeline.chroma_state Examples.world_up)
              Examples.question
              (Some (RAGPipeline.retrieval_top_k Examples.strict_config))
            = hit :: hits) by reflexivity.
  assert (Hbelow :
            Forall (fun h =>
                      (RAGPipeline.doc_similarity h
                       < RAGPipeline.similarity_threshold
                           Examples.strict_config)%Q) (hit :: hits)).
  { repeat constructor; reflexivity. }
  split; [exact Hsearch|]. split; [exact Hbelow|].
  destruct (query_with_no_survivor Examples.world_up
              Examples.strict_config Examples.question None [] hit hits
              Hsearch Hbelow) as [Hcontext [Hsources _]].
  split; [exact Hcontext | exact Hsources].
Defined.

Lemma added_once_run :
  ChromaManager.add_documents Examples.backend Examples.empty_index
    [Examples.document "Madde 1"; Examples.empty_document]
  = (true, Examples.added_once).
Proof. vm_compute. reflexivity. Defined.

Lemma added_twice_run :
  ChromaManager.add_documents Examples.backend Examples.added_once
    [Examples.document "Madde 1"; Examples.empty_document]
  = (true, Examples.added_twice).
Proof. vm_compute. reflexivity. Defined.

Lemma add_documents_stores_witness :
  ChromaManager.add_documents Examples.backend Examples.empty_index
    [Examples.document "Madde 1"; Examples.empty_document]
  = (true, Examples.added_once) /\
  exists batch,
    ChromaManager.collection Examples.added_once
    = ChromaManager.collection Examples.empty_index ++ batch
    /\ ChromaManager.uuids_drawn Examples.added_once = 2%nat
    /\ map ChromaManager.rec_document batch = [lit "Madde 1"]
    /\ map ChromaManager.rec_id batch = [lit "uuid-0"].
Proof.
  split; [exact added_once_run|].
  destruct (add_documents_stores Examples.backend Examples.empty_index
              Examples.added_once
              [Examples.document "Madde 1"; Examples.empty_document]
              added_once_run)
    as [batch [Hcoll [Hdrawn [_ [Hdocs [_ [Hids _]]]]]]].
  exists batch. split; [exact Hcoll|]. split; [exact Hdrawn|].
  split; [exact Hdocs | exact Hids].
Defined.

Lemma add_documents_twice_stores_twice_witness :
  ChromaManager.add_documents Examples.backend Examples.empty_index
    [Examples.document "Madde 1"; Examples.empty_document]
  = (true, Examples.added_once) /\
  ChromaManager.add_documents Examples.backend Examples.added_once
    [Examples.document "Madde 1"; Examples.empty_document]
  = (true, Examples.added_twice) /\
  map ChromaManager.rec_document
    (ChromaManager.collection Examples.added_twice)
  = [lit "Madde 1"; lit "Madde 1"].
Proof.
  split; [exact added_once_run|]. split; [exact added_twice_run|].
  exact (proj1 (add_documents_twice_stores_twice Examples.backend
                  Examples.empty_index Examples.added_once
                  Examples.added_twice
                  [Examples.document "Madde 1"; Examples.empty_document]
                  added_once_run added_twice_run)).
Defined.

Lemma api_confidence_bounds_witness :
  let hits := [Examples.float_strong; Examples.float_weak] in
  Forall (fun hit => (0 <= RAGPipeline.doc_similarity hit)%Q) hits /\
  hits <> [] /\ len hits < 2 ^ 53 /\
  Forall (fun hit => (0 <= RAGPipeline.doc_similarity hit <= 1)%Q) hits /\
  (0 <= Main.calculate_confidence hits)%Q /\
  (Qabs (Main.calculate_confidence hits
         - Qmin (Shape.mean (map RAGPipeline.doc_similarity hits)) 1)
   <= (inject_Z (len hits) + 1) * (1 # 2 ^ 53))%Q.
Proof.
  intros hits.
  assert (H0 : Forall (fun hit => (0 <= RAGPipeline.doc_similarity hit)%Q)
                 hits).
  { repeat constructor; vm_compute; discriminate. }
  assert (Hne : hits <> []) by discriminate.
  assert (Hlen : len hits < 2 ^ 53) by reflexivity.
  assert (H01 : Forall (fun hit =>
                          (0 <= RAGPipeline.doc_similarity hit <= 1)%Q)
                  hits).
  { repeat constructor; vm_compute; discriminate. }
  do 4 (split; [assumption|]). split.
  - exact (proj1 (proj2 (proj2 (api_confidence_bounds hits))) H0).
  - exact (proj1 (proj2 (proj2 (proj2 (api_confidence_bounds hits))))
             Hne Hlen H01).
Defined.

Lemma pdf_text_is_numbered_pages_witness :
  DocumentProcessor._extract_from_pdf Examples.pdf_file
  = newline ++ lit "--- Sayfa 1 ---" ++ newline ++ lit "Madde 1" ++ newline
      ++ newline ++ lit "--- Sayfa 4 ---" ++ newline ++ lit "Madde 4"
      ++ newline /\
  DocumentProcessor.process_file 10 Examples.file_chunker None
    Examples.clock Examples.scanned_pdf = Some [].
Proof.
  split.
  - exact (proj1 (pdf_text_is_numbered_pages Examples.pdf_file _ eq_refl)).
  - exact (proj2 (proj2 (pdf_text_is_numbered_pages Examples.scanned_pdf
                           _ eq_refl))
             eq_refl eq_refl 10%nat Examples.file_chunker None
             Examples.clock).
Defined.


Lemma law_index_run :
  ChromaManager.add_documents Examples.backend Examples.empty_index
    (map DocumentProcessor.as_document Examples.law_documents)
  = (true, Examples.law_index).
Proof. vm_compute. reflexivity. Defined.

Lemma ingested_file_is_stored_whole_witness :
  DocumentProcessor._clean_text
    (DocumentProcessor._extract_text Examples.law_file) <> [] /\
  exists batch,
    ChromaManager.collection Examples.law_index
    = ChromaManager.collection Examples.empty_index ++ batch
    /\ List.length batch = List.length Examples.law_documents
    /\ map ChromaManager.rec_document batch
       = map DocumentProcessor.pd_content Examples.law_documents.
Proof.
  assert (Htext : DocumentProcessor._clean_text
                    (DocumentProcessor._extract_text Examples.law_file)
                  <> []) by (vm_compute; discriminate).
  split; [exact Htext|].
  destruct (ingested_file_is_stored_whole 10 Examples.file_chunker None
              Examples.clock Examples.law_file Examples.law_documents
              Examples.backend Examples.empty_index Examples.law_index
              law_file_run Htext law_index_run)
    as [batch [Hcoll [Hlen [Hdocs _]]]].
  exists batch. split; [exact Hcoll|]. split; [exact Hlen | exact Hdocs].
Defined.
